(** * Cassette Configuration (CCFG): the parser core, embedded and verified

    A shallow embedding of [src/src/context.c] (the token reader),
    [src/src/substitution.c] (the recursive expander) and
    [src/src/sequence.c] (the sequence dispatcher and its handlers),
    followed by the properties of the specification that are proved about
    them.

    Conventions of the embedding:
    - [struct context] is the record [context]; C functions that mutate it
      through a pointer take a [context] and return the new one;
    - an output buffer [char token[TOKEN_MAX_LEN]] is a [string] passed in
      (its content before the call) and returned (its content after);
    - [double *math_result] is an [option float]: [None] is the NULL
      pointer, [Some d] a pointer to a cell holding [d];
    - [size_t] values are [N]; C [double] is the binary64 [float];
    - the books and dictionaries of the object library are modelled by
      lists of groups and by finite maps. *)

From Stdlib Require Import Strings.Ascii Floats.PrimFloat Numbers.Cyclic.Int63.Uint63.
From stdpp Require Import gmap strings list pretty.

Local Open Scope N_scope.
Local Set Warnings "-inexact-float".
Local Set Primitive Projections.

(** ** Characters and strings *)

Definition NUL : ascii := "000"%char.
Definition LF : ascii := "010"%char.
Definition TAB : ascii := "009"%char.
Definition VT : ascii := "011"%char.
Definition SQUOTE : ascii := "039"%char.
Definition DQUOTE : ascii := "034"%char.
Definition HASH : ascii := "035"%char.
Definition SLASH : ascii := "047"%char.

(** Modelled from the spec: [TOKEN_MAX_LEN] is declared in token.h, which
    is not part of the sources; the specification gives the token capacity
    as 1024 bytes including the terminator. *)
Definition TOKEN_MAX_LEN : nat := 1024.

(** Modelled from the spec: [CONTEXT_MAX_DEPTH] is declared in context.h,
    which is not part of the sources; the specification gives 32. *)
Definition CONTEXT_MAX_DEPTH : nat := 32.

Definition SIZE_MAX : N := 2 ^ 64 - 1.

(** [a + 1] and [a - 1] on a [size_t] value.  Where the C code increments
    a counter under a test [counter < bound], the embedding writes [+ 1]. *)
Definition size_succ (a : N) : N := if a =? SIZE_MAX then 0 else a + 1.
Definition size_pred (a : N) : N := if a =? 0 then SIZE_MAX else a - 1.

Fixpoint str_take (n : nat) (s : string) : string :=
  match n, s with
  | S n', String c s' => String c (str_take n' s')
  | _, _ => EmptyString
  end.

(** [snprintf(token, TOKEN_MAX_LEN, "%s", s)]. *)
Definition snprintf_s (s : string) : string := str_take (TOKEN_MAX_LEN - 1) s.

(** [strncat(a, b, TOKEN_MAX_LEN - strlen(a) - 1)]. *)
Definition strncat_tok (a b : string) : string :=
  a +:+ str_take (TOKEN_MAX_LEN - String.length a - 1) b.

Definition first_char (s : string) : ascii :=
  match s with
  | EmptyString => NUL
  | String c _ => c
  end.

Definition str_is_empty (s : string) : bool :=
  match s with
  | EmptyString => true
  | String _ _ => false
  end.

(** ** The word-group book (cbook)

    The book belongs to the object library, outside this repository.  It is
    an ordered collection of groups of words; [new_group] records that the
    next written word opens a group ([cbook_prepare_new_group]). *)

Record cbook := Cbook { groups : list (list string); new_group : bool }.

Definition cbook_empty : cbook := Cbook [] false.

Definition cbook_clear (b : cbook) : cbook := Cbook [] false.

Definition cbook_prepare_new_group (b : cbook) : cbook := Cbook (groups b) true.

Definition cbook_undo_new_group (b : cbook) : cbook := Cbook (groups b) false.

Fixpoint append_to_last (gs : list (list string)) (w : string) : list (list string) :=
  match gs with
  | [] => [[w]]
  | [g] => [g ++ [w]]
  | g :: gs' => g :: append_to_last gs' w
  end.

Definition cbook_write (b : cbook) (w : string) : cbook :=
  if new_group b then Cbook (groups b ++ [[w]]) false
  else Cbook (append_to_last (groups b) w) false.

Definition cbook_groups_number (b : cbook) : N := N.of_nat (length (groups b)).

(** List lookup at a [size_t] index: the bound is compared in [N]. *)
Definition lookupN {A} (l : list A) (i : N) : option A :=
  if i <? N.of_nat (length l) then l !! N.to_nat i else None.

Definition cbook_group (b : cbook) (g : N) : list string :=
  default [] (lookupN (groups b) g).

Definition cbook_group_length (b : cbook) (g : N) : N :=
  N.of_nat (length (cbook_group b g)).

(** Total number of words. *)
Definition cbook_length (b : cbook) : N :=
  N.of_nat (length (concat (groups b))).

Definition cbook_word_in_group (b : cbook) (g i : N) : string :=
  default EmptyString (lookupN (cbook_group b g) i).

(** Position of a word of a group among all the words of the book. *)
Definition cbook_word_index (b : cbook) (g i : N) : N :=
  N.of_nat (length (concat (take (N.to_nat (N.min g (cbook_groups_number b))) (groups b)))) + i.

(** ** The keyed dictionary (cdict): (key, group) to value *)

Abbreviation cdict G := (gmap (string * G) N).

Definition cdict_find `{Countable G} (d : cdict G) (key : string) (g : G) : option N :=
  d !! (key, g).

Definition cdict_write `{Countable G} (d : cdict G) (key : string) (g : G) (v : N) : cdict G :=
  <[(key, g) := v]> d.

Definition cdict_erase `{Countable G} (d : cdict G) (key : string) (g : G) : cdict G :=
  delete (key, g) d.

(** Groups of [keys_vars] (an enumeration of context.h, whose numbering is
    not part of the sources). *)
Inductive context_dict :=
  | CONTEXT_DICT_VARIABLE
  | CONTEXT_DICT_ITERATION
  | CONTEXT_DICT_SECTION
  | CONTEXT_DICT_PARAMETER.

Global Instance context_dict_eq_dec : EqDecision context_dict.
Proof. solve_decision. Defined.

Definition context_dict_code (g : context_dict) : nat :=
  match g with
  | CONTEXT_DICT_VARIABLE => 0
  | CONTEXT_DICT_ITERATION => 1
  | CONTEXT_DICT_SECTION => 2
  | CONTEXT_DICT_PARAMETER => 3
  end%nat.

Definition context_dict_of_code (n : nat) : context_dict :=
  match n with
  | 0 => CONTEXT_DICT_VARIABLE
  | 1 => CONTEXT_DICT_ITERATION
  | 2 => CONTEXT_DICT_SECTION
  | _ => CONTEXT_DICT_PARAMETER
  end%nat.

Global Instance context_dict_countable : Countable context_dict.
Proof.
  apply (inj_countable' context_dict_code context_dict_of_code).
  by intros [].
Defined.

(** ** Token kinds (enum token of token.h, as the sources use it) *)

Inductive token :=
  | TOKEN_INVALID | TOKEN_STRING | TOKEN_NUMBER
  | TOKEN_COMMENT | TOKEN_EOF | TOKEN_ESCAPE | TOKEN_FILLER | TOKEN_JOIN
  | TOKEN_VAR_INJECTION
  | TOKEN_IF_LESS | TOKEN_IF_LESS_EQ | TOKEN_IF_MORE | TOKEN_IF_MORE_EQ
  | TOKEN_IF_EQ | TOKEN_IF_EQ_NOT
  | TOKEN_TIMESTAMP | TOKEN_CONST_PI | TOKEN_CONST_EULER
  | TOKEN_CONST_TRUE | TOKEN_CONST_FALSE
  | TOKEN_OP_SQRT | TOKEN_OP_CBRT | TOKEN_OP_ABS | TOKEN_OP_CEILING
  | TOKEN_OP_FLOOR | TOKEN_OP_ROUND | TOKEN_OP_COS | TOKEN_OP_SIN
  | TOKEN_OP_TAN | TOKEN_OP_ACOS | TOKEN_OP_ASIN | TOKEN_OP_ATAN
  | TOKEN_OP_COSH | TOKEN_OP_SINH | TOKEN_OP_LN | TOKEN_OP_LOG
  | TOKEN_OP_ADD | TOKEN_OP_SUBSTRACT | TOKEN_OP_MULTIPLY | TOKEN_OP_DIVIDE
  | TOKEN_OP_MOD | TOKEN_OP_POW | TOKEN_OP_BIGGEST | TOKEN_OP_SMALLEST
  | TOKEN_OP_RANDOM | TOKEN_OP_LIMIT | TOKEN_OP_INTERPOLATE
  | TOKEN_CL_RGB | TOKEN_CL_INTERPOLATE | TOKEN_CL_RGBA
  | TOKEN_VAR_DECLARATION | TOKEN_VAR_APPEND | TOKEN_VAR_PREPEND
  | TOKEN_VAR_MERGE | TOKEN_ENUM_DECLARATION
  | TOKEN_SECTION_BEGIN | TOKEN_SECTION_ADD | TOKEN_SECTION_DEL
  | TOKEN_INCLUDE | TOKEN_FOR_BEGIN | TOKEN_FOR_END
  | TOKEN_SEED | TOKEN_PRINT | TOKEN_RESTRICT.

Global Instance token_eq_dec : EqDecision token.
Proof. solve_decision. Defined.

Definition token_eqb (a b : token) : bool := bool_decide (a = b).

(** ** The parsing context (struct context)

    [depth_peak] is a ghost field: the largest value ever stored in
    [depth].  Only [depth_enter] writes it and nothing reads it.
    [stderr_log] is the diagnostic stream written by PRINT.  The books and
    dictionaries are owned by the config object; the C context holds
    pointers to them. *)

Record context := Build_context {
  buffer : string;
  file_dir : string;
  file_inode : N;
  depth : nat;
  depth_peak : nat;
  eol_reached : bool;
  eof_reached : bool;
  skip_sequences : bool;
  restricted : bool;
  var_group : N;
  var_i : N;
  it_group : N;
  it_i : N;
  sequences : cbook;
  keys_sequences : gmap (string * N) N;
  vars : cbook;
  keys_vars : gmap (string * context_dict) N;
  iteration : cbook;
  rand : N;
  stderr_log : list string;
}.

Definition with_buffer (v : string) (c : context) : context :=
  Build_context v (file_dir c) (file_inode c) (depth c) (depth_peak c) (eol_reached c)
    (eof_reached c) (skip_sequences c) (restricted c) (var_group c) (var_i c) (it_group
    c) (it_i c) (sequences c) (keys_sequences c) (vars c) (keys_vars c) (iteration c)
    (rand c) (stderr_log c).

Definition with_depth (v : nat) (c : context) : context :=
  Build_context (buffer c) (file_dir c) (file_inode c) v (depth_peak c) (eol_reached c)
    (eof_reached c) (skip_sequences c) (restricted c) (var_group c) (var_i c) (it_group
    c) (it_i c) (sequences c) (keys_sequences c) (vars c) (keys_vars c) (iteration c)
    (rand c) (stderr_log c).

Definition with_depth_peak (v : nat) (c : context) : context :=
  Build_context (buffer c) (file_dir c) (file_inode c) (depth c) v (eol_reached c)
    (eof_reached c) (skip_sequences c) (restricted c) (var_group c) (var_i c) (it_group
    c) (it_i c) (sequences c) (keys_sequences c) (vars c) (keys_vars c) (iteration c)
    (rand c) (stderr_log c).

Definition with_eol_reached (v : bool) (c : context) : context :=
  Build_context (buffer c) (file_dir c) (file_inode c) (depth c) (depth_peak c) v
    (eof_reached c) (skip_sequences c) (restricted c) (var_group c) (var_i c) (it_group
    c) (it_i c) (sequences c) (keys_sequences c) (vars c) (keys_vars c) (iteration c)
    (rand c) (stderr_log c).

Definition with_eof_reached (v : bool) (c : context) : context :=
  Build_context (buffer c) (file_dir c) (file_inode c) (depth c) (depth_peak c)
    (eol_reached c) v (skip_sequences c) (restricted c) (var_group c) (var_i c)
    (it_group c) (it_i c) (sequences c) (keys_sequences c) (vars c) (keys_vars c)
    (iteration c) (rand c) (stderr_log c).

Definition with_skip_sequences (v : bool) (c : context) : context :=
  Build_context (buffer c) (file_dir c) (file_inode c) (depth c) (depth_peak c)
    (eol_reached c) (eof_reached c) v (restricted c) (var_group c) (var_i c) (it_group
    c) (it_i c) (sequences c) (keys_sequences c) (vars c) (keys_vars c) (iteration c)
    (rand c) (stderr_log c).

Definition with_restricted (v : bool) (c : context) : context :=
  Build_context (buffer c) (file_dir c) (file_inode c) (depth c) (depth_peak c)
    (eol_reached c) (eof_reached c) (skip_sequences c) v (var_group c) (var_i c)
    (it_group c) (it_i c) (sequences c) (keys_sequences c) (vars c) (keys_vars c)
    (iteration c) (rand c) (stderr_log c).

Definition with_var_group (v : N) (c : context) : context :=
  Build_context (buffer c) (file_dir c) (file_inode c) (depth c) (depth_peak c)
    (eol_reached c) (eof_reached c) (skip_sequences c) (restricted c) v (var_i c)
    (it_group c) (it_i c) (sequences c) (keys_sequences c) (vars c) (keys_vars c)
    (iteration c) (rand c) (stderr_log c).

Definition with_var_i (v : N) (c : context) : context :=
  Build_context (buffer c) (file_dir c) (file_inode c) (depth c) (depth_peak c)
    (eol_reached c) (eof_reached c) (skip_sequences c) (restricted c) (var_group c) v
    (it_group c) (it_i c) (sequences c) (keys_sequences c) (vars c) (keys_vars c)
    (iteration c) (rand c) (stderr_log c).

Definition with_it_group (v : N) (c : context) : context :=
  Build_context (buffer c) (file_dir c) (file_inode c) (depth c) (depth_peak c)
    (eol_reached c) (eof_reached c) (skip_sequences c) (restricted c) (var_group c)
    (var_i c) v (it_i c) (sequences c) (keys_sequences c) (vars c) (keys_vars c)
    (iteration c) (rand c) (stderr_log c).

Definition with_it_i (v : N) (c : context) : context :=
  Build_context (buffer c) (file_dir c) (file_inode c) (depth c) (depth_peak c)
    (eol_reached c) (eof_reached c) (skip_sequences c) (restricted c) (var_group c)
    (var_i c) (it_group c) v (sequences c) (keys_sequences c) (vars c) (keys_vars c)
    (iteration c) (rand c) (stderr_log c).

Definition with_sequences (v : cbook) (c : context) : context :=
  Build_context (buffer c) (file_dir c) (file_inode c) (depth c) (depth_peak c)
    (eol_reached c) (eof_reached c) (skip_sequences c) (restricted c) (var_group c)
    (var_i c) (it_group c) (it_i c) v (keys_sequences c) (vars c) (keys_vars c)
    (iteration c) (rand c) (stderr_log c).

Definition with_keys_sequences (v : gmap (string * N) N) (c : context) : context :=
  Build_context (buffer c) (file_dir c) (file_inode c) (depth c) (depth_peak c)
    (eol_reached c) (eof_reached c) (skip_sequences c) (restricted c) (var_group c)
    (var_i c) (it_group c) (it_i c) (sequences c) v (vars c) (keys_vars c) (iteration c)
    (rand c) (stderr_log c).

Definition with_vars (v : cbook) (c : context) : context :=
  Build_context (buffer c) (file_dir c) (file_inode c) (depth c) (depth_peak c)
    (eol_reached c) (eof_reached c) (skip_sequences c) (restricted c) (var_group c)
    (var_i c) (it_group c) (it_i c) (sequences c) (keys_sequences c) v (keys_vars c)
    (iteration c) (rand c) (stderr_log c).

Definition with_keys_vars (v : gmap (string * context_dict) N) (c : context) : context :=
  Build_context (buffer c) (file_dir c) (file_inode c) (depth c) (depth_peak c)
    (eol_reached c) (eof_reached c) (skip_sequences c) (restricted c) (var_group c)
    (var_i c) (it_group c) (it_i c) (sequences c) (keys_sequences c) (vars c) v
    (iteration c) (rand c) (stderr_log c).

Definition with_iteration (v : cbook) (c : context) : context :=
  Build_context (buffer c) (file_dir c) (file_inode c) (depth c) (depth_peak c)
    (eol_reached c) (eof_reached c) (skip_sequences c) (restricted c) (var_group c)
    (var_i c) (it_group c) (it_i c) (sequences c) (keys_sequences c) (vars c) (keys_vars
    c) v (rand c) (stderr_log c).

Definition with_rand (v : N) (c : context) : context :=
  Build_context (buffer c) (file_dir c) (file_inode c) (depth c) (depth_peak c)
    (eol_reached c) (eof_reached c) (skip_sequences c) (restricted c) (var_group c)
    (var_i c) (it_group c) (it_i c) (sequences c) (keys_sequences c) (vars c) (keys_vars
    c) (iteration c) v (stderr_log c).

Definition with_stderr_log (v : list string) (c : context) : context :=
  Build_context (buffer c) (file_dir c) (file_inode c) (depth c) (depth_peak c)
    (eol_reached c) (eof_reached c) (skip_sequences c) (restricted c) (var_group c)
    (var_i c) (it_group c) (it_i c) (sequences c) (keys_sequences c) (vars c) (keys_vars
    c) (iteration c) (rand c) v.

(** ** What the sources call and do not define

    The token table (token.c), the C library, the colour, random and
    string helpers of the object library, util.c and the source loader
    (source.c) are not part of the sources.  They are the fields of
    [Platform]; every definition and theorem below holds for any value of
    them unless it states a hypothesis about one.

    Functions with integer parameters that the sources call with a
    [double] include C's implicit conversion. *)

Class Platform := {
  (* token.c: token_match(ctx->tokens, str) *)
  token_match : string → token;
  (* libc *)
  strtod : string → float;
  snprintf_f : float → float → string;   (* "%.*f", (int)precision, value *)
  libc_time : float;                     (* time(NULL) *)
  (* libm *)
  libm_cbrt : float → float;
  libm_ceil : float → float;
  libm_floor : float → float;
  libm_round : float → float;
  libm_cos : float → float;
  libm_sin : float → float;
  libm_tan : float → float;
  libm_acos : float → float;
  libm_asin : float → float;
  libm_atan : float → float;
  libm_cosh : float → float;
  libm_sinh : float → float;
  libm_log : float → float;
  libm_log10 : float → float;
  libm_fmod : float → float → float;
  libm_pow : float → float → float;
  (* object library: colours and random numbers *)
  color : Type;
  ccolor_from_str : string → color * bool;      (* value, *err *)
  ccolor_to_argb_uint : color → N;
  do_color_convert_argb_uint : float → color;
  do_color_convert_rgba : float → float → float → float → color;
  do_color_interpolate : color → color → float → color;
  do_color_get_argb_uint : color → N;
  do_rand_get : N → float → float → float * N;  (* value, new state *)
  crand_seed : float → N;
  (* util.c *)
  util_interpolate : float → float → float → float;
  util_limit : float → float → float → float;
  (* source.c: source_parse_child(ctx, filename), as the context it leaves *)
  source_parse_child : context → string → context;
  (* what the k-th [double] local that a function declares without
     initialising it holds when the function is entered in a context: the
     value is indeterminate *)
  stack_double : context → nat → float;
}.

(** Conversion of an unsigned integer below 2^64 to [double]: the high
    and low halves convert exactly, the sum rounds once. *)
Definition double_of_uint (n : N) : float :=
  (of_uint63 (Uint63.of_Z (Z.of_N (n / 2 ^ 32))) * of_uint63 (Uint63.of_Z (2 ^ 32))
   + of_uint63 (Uint63.of_Z (Z.of_N (n mod 2 ^ 32))))%float.

(** What a call returns: the token kind, the token buffer, the cell behind
    [math_result], and the context. *)
Record token_result := Result {
  r_type : token;
  r_token : string;
  r_math : option float;
  r_ctx : context;
}.

(** ** context.c: the raw token reader *)

(** [*ctx->buffer != '\0' ? *(ctx->buffer++) : '\0'].  The buffer is the
    text from the read position on; its end stands for the terminator. *)
Definition read_char (ctx : context) : ascii * context :=
  match buffer ctx with
  | String c rest =>
      if Ascii.eqb c NUL then (NUL, ctx) else (c, with_buffer rest ctx)
  | EmptyString => (NUL, ctx)
  end.

Definition update_state (ctx : context) (c : ascii) : context :=
  if Ascii.eqb c NUL then with_eol_reached true (with_eof_reached true ctx)
  else if Ascii.eqb c LF then with_eol_reached true ctx
  else ctx.

(** The separators of the lexer's first switch. *)
Definition is_blank (c : ascii) : bool :=
  Ascii.eqb c " " || Ascii.eqb c "(" || Ascii.eqb c ")"
  || Ascii.eqb c TAB || Ascii.eqb c VT.

(** The loops of [read_word] and [context_goto_eol] read one character per
    turn and stop at the terminator at the latest; they recurse on a
    counter that starts above the length of the buffer
    ([skip_lead_fuel], [read_word_loop_fuel], [goto_eol_loop_fuel] show
    that the counter never runs out). *)

(** "skip leading whitespaces": returns the first other character read. *)
Fixpoint skip_lead (n : nat) (ctx : context) : ascii * context :=
  match n with
  | O => (NUL, ctx)
  | S n' =>
      let '(c, ctx1) := read_char ctx in
      if is_blank c then skip_lead n' ctx1 else (c, ctx1)
  end.

Definition char_add (tok : string) (c : ascii) : string :=
  if (String.length tok <? TOKEN_MAX_LEN - 1)%nat
  then tok +:+ String c EmptyString
  else tok.

(** "read word": [c] is the current character, [tok] the characters
    stored so far ([i] is its length).  Returns the character that ended
    the word. *)
Fixpoint read_word_loop (n : nat) (ctx : context) (c : ascii)
    (quotes_1 quotes_2 : bool) (tok : string) : ascii * string * context :=
  match n with
  | O => (c, tok, ctx)
  | S n' =>
      let next q1 q2 t :=
        let '(c', ctx') := read_char ctx in read_word_loop n' ctx' c' q1 q2 t in
      if Ascii.eqb c NUL then (c, tok, ctx)
      else if is_blank c || Ascii.eqb c LF then
        if quotes_1 || quotes_2 then next quotes_1 quotes_2 (char_add tok c)
        else (c, tok, ctx)
      else if Ascii.eqb c SQUOTE then
        if negb quotes_2 then next (negb quotes_1) quotes_2 tok
        else next quotes_1 quotes_2 (char_add tok c)
      else if Ascii.eqb c DQUOTE then
        if negb quotes_1 then next quotes_1 (negb quotes_2) tok
        else next quotes_1 quotes_2 (char_add tok c)
      else next quotes_1 quotes_2 (char_add tok c)
  end.

(** Returns [i != 0], the token buffer and the context.  When
    [eol_reached] is set the buffer is left as it was. *)
Definition read_word (ctx : context) (tok : string) : bool * string * context :=
  if eol_reached ctx then (false, tok, ctx)
  else
    let n := S (String.length (buffer ctx)) in
    let '(c, ctx1) := skip_lead n ctx in
    let '(c, t, ctx2) := read_word_loop n ctx1 c false false EmptyString in
    let ctx3 := update_state ctx2 c in
    (negb (str_is_empty t), t, ctx3).

Definition context_get_token_raw (ctx : context) (tok : string)
    : token * string * context :=
  if var_i ctx <? cbook_group_length (vars ctx) (var_group ctx) then
    (TOKEN_STRING,
     snprintf_s (cbook_word_in_group (vars ctx) (var_group ctx) (var_i ctx)),
     with_var_i (var_i ctx + 1) ctx)
  else if it_i ctx <? cbook_group_length (iteration ctx) (it_group ctx) then
    (TOKEN_STRING,
     snprintf_s (cbook_word_in_group (iteration ctx) (it_group ctx) (it_i ctx)),
     with_it_i (it_i ctx + 1) ctx)
  else
    let '(ok, t, ctx') := read_word ctx tok in
    if ok then (TOKEN_STRING, t, ctx') else (TOKEN_INVALID, t, ctx').

Fixpoint goto_eol_loop (n : nat) (ctx : context) : context :=
  match n with
  | O => ctx
  | S n' =>
      if eol_reached ctx then ctx
      else
        let '(c, ctx1) := read_char ctx in
        goto_eol_loop n' (update_state ctx1 c)
  end.

Definition context_goto_eol (ctx : context) : context :=
  let ctx1 := goto_eol_loop (S (String.length (buffer ctx))) ctx in
  with_it_i SIZE_MAX (with_var_i SIZE_MAX ctx1).

(** ** substitution.c: the recursive expander

    [context_get_token] (context.c) and [dr_subtitution_apply] call each
    other.  The helpers below are written over the function [get_token]
    they call back; [get_token_fuel] then closes the recursion.
    substitution.c names the functions of context.c with a [dr_] prefix and
    the dictionary and book of variables [ref_variables] and [variables]
    ([keys_vars] and [vars] in context.c). *)

Definition is_invalid (t : token) : bool :=
  match t with TOKEN_INVALID => true | _ => false end.

(** Content of a local that the C code declares without initialising it,
    in the functions that write it before they read it ([declare_enum],
    which may read such a local unwritten, takes [stack_double]). *)
Definition uninit_double : float := 0%float.
Definition uninit_token : string := EmptyString.

(** [ctx->depth++], [ctx->depth--]. *)
Definition depth_enter (ctx : context) : context :=
  with_depth_peak (Nat.max (depth_peak ctx) (S (depth ctx)))
    (with_depth (S (depth ctx)) ctx).

Definition depth_leave (ctx : context) : context :=
  with_depth (Nat.pred (depth ctx)) ctx.

(** [do_book_reset_iterator(ctx->variables, i)]: the iterator over the
    book of variables is the replay position [(var_group, var_i)] that
    [context_get_token_raw] reads. *)
Definition do_book_reset_iterator (ctx : context) (i : N) : context :=
  with_var_i 0 (with_var_group i ctx).

Definition is_if_token (t : token) : bool :=
  match t with
  | TOKEN_IF_LESS | TOKEN_IF_LESS_EQ | TOKEN_IF_MORE | TOKEN_IF_MORE_EQ
  | TOKEN_IF_EQ | TOKEN_IF_EQ_NOT => true
  | _ => false
  end.

(** The comparison switch of [_if]; [None] is its default case. *)
Definition if_compare (type : token) (a b : float) : option bool :=
  match type with
  | TOKEN_IF_LESS => Some (a <? b)%float
  | TOKEN_IF_LESS_EQ => Some (a <=? b)%float
  | TOKEN_IF_MORE => Some (b <? a)%float
  | TOKEN_IF_MORE_EQ => Some (b <=? a)%float
  | TOKEN_IF_EQ => Some (a =? b)%float
  | TOKEN_IF_EQ_NOT => Some (negb (a =? b)%float)
  | _ => None
  end.

Section Substitution.
Context `{Platform}.
Variable get_token : context → string → option float → token_result.

(** context.c, [context_get_token_numeral]: every caller passes the
    address of a [double], whose content is [d]. *)
Definition get_token_numeral (ctx : context) (tok : string) (d : float)
    : token_result :=
  let r := get_token ctx tok (Some d) in
  let d1 := default d (r_math r) in
  match r_type r with
  | TOKEN_NUMBER => Result TOKEN_NUMBER (r_token r) (Some d1) (r_ctx r)
  | TOKEN_STRING =>
      if Ascii.eqb (first_char (r_token r)) HASH then
        let '(cl, err) := ccolor_from_str (r_token r) in
        Result (if err then TOKEN_INVALID else TOKEN_NUMBER) (r_token r)
          (Some (double_of_uint (ccolor_to_argb_uint cl))) (r_ctx r)
      else
        Result TOKEN_NUMBER (r_token r) (Some (strtod (r_token r))) (r_ctx r)
  | _ => Result TOKEN_INVALID (r_token r) (Some d1) (r_ctx r)
  end.

Definition _comment (ctx : context) (tok : string) (mr : option float)
    : token_result :=
  Result TOKEN_INVALID tok mr ctx.

Definition _eof (ctx : context) (tok : string) (mr : option float)
    : token_result :=
  Result TOKEN_INVALID tok mr (with_eol_reached true (with_eof_reached true ctx)).

Definition _escape (ctx : context) (tok : string) (mr : option float)
    : token_result :=
  let '(ty, t, ctx1) := context_get_token_raw (with_eol_reached false ctx) tok in
  Result ty t mr ctx1.

Definition _filler (ctx : context) (tok : string) (mr : option float)
    : token_result :=
  get_token ctx tok mr.

Definition _if (ctx : context) (tok : string) (mr : option float) (type : token)
    : token_result :=
  let n1 := get_token_numeral ctx tok uninit_double in
  if is_invalid (r_type n1) then Result TOKEN_INVALID (r_token n1) mr (r_ctx n1)
  else
    let n2 := get_token_numeral (r_ctx n1) (r_token n1) uninit_double in
    if is_invalid (r_type n2) then Result TOKEN_INVALID (r_token n2) mr (r_ctx n2)
    else
      let a := default uninit_double (r_math n1) in
      let b := default uninit_double (r_math n2) in
      match if_compare type a b with
      | None => Result TOKEN_INVALID (r_token n2) mr (r_ctx n2)
      | Some result =>
          let r1 := get_token (r_ctx n2) (r_token n2) mr in
          if result then
            let r2 := get_token (r_ctx r1) uninit_token None in
            Result (r_type r1) (r_token r1) (r_math r1) (r_ctx r2)
          else get_token (r_ctx r1) (r_token r1) (r_math r1)
      end.

Definition _join (ctx : context) (tok : string) (mr : option float)
    : token_result :=
  let r1 := get_token ctx tok None in
  if is_invalid (r_type r1) then Result TOKEN_INVALID (r_token r1) mr (r_ctx r1)
  else
    let r2 := get_token (r_ctx r1) uninit_token None in
    if is_invalid (r_type r2) then Result TOKEN_INVALID (r_token r1) mr (r_ctx r2)
    else Result TOKEN_STRING (strncat_tok (r_token r1) (r_token r2)) mr (r_ctx r2).

(** The argument loops of [_math] and [_math_cl]: [n] numerals are read
    into [d]; [None] when one is invalid. *)
Fixpoint numeral_args (n : nat) (ctx : context) (tok : string)
    : option (list float) * string * context :=
  match n with
  | O => (Some [], tok, ctx)
  | S n' =>
      let r := get_token_numeral ctx tok 0%float in
      if is_invalid (r_type r) then (None, r_token r, r_ctx r)
      else
        let '(ds, t, ctx') := numeral_args n' (r_ctx r) (r_token r) in
        (cons (default 0%float (r_math r)) <$> ds, t, ctx')
  end.

(** [d[i]] of an array initialised with zeros. *)
Definition arg (d : list float) (i : nat) : float := default 0%float (d !! i).

(** The operation switch of [_math]: the result and the context (RANDOM
    advances the generator); [None] is the default case. *)
Definition math_eval (ctx : context) (type : token) (d : list float)
    : option (float * context) :=
  let d0 := arg d 0 in
  let d1 := arg d 1 in
  let d2 := arg d 2 in
  match type with
  | TOKEN_TIMESTAMP => Some (libc_time, ctx)
  | TOKEN_CONST_PI => Some (3.1415926535897932%float, ctx)
  | TOKEN_CONST_EULER => Some (0.5772156649015328%float, ctx)
  | TOKEN_CONST_TRUE => Some (1%float, ctx)
  | TOKEN_CONST_FALSE => Some (0%float, ctx)
  | TOKEN_OP_SQRT => Some (PrimFloat.sqrt d0, ctx)
  | TOKEN_OP_CBRT => Some (libm_cbrt d0, ctx)
  | TOKEN_OP_ABS => Some (PrimFloat.abs d0, ctx)
  | TOKEN_OP_CEILING => Some (libm_ceil d0, ctx)
  | TOKEN_OP_FLOOR => Some (libm_floor d0, ctx)
  | TOKEN_OP_ROUND => Some (libm_round d0, ctx)
  | TOKEN_OP_COS => Some (libm_cos d0, ctx)
  | TOKEN_OP_SIN => Some (libm_sin d0, ctx)
  | TOKEN_OP_TAN => Some (libm_tan d0, ctx)
  | TOKEN_OP_ACOS => Some (libm_acos d0, ctx)
  | TOKEN_OP_ASIN => Some (libm_asin d0, ctx)
  | TOKEN_OP_ATAN => Some (libm_atan d0, ctx)
  | TOKEN_OP_COSH => Some (libm_cosh d0, ctx)
  | TOKEN_OP_SINH => Some (libm_sinh d0, ctx)
  | TOKEN_OP_LN => Some (libm_log d0, ctx)
  | TOKEN_OP_LOG => Some (libm_log10 d0, ctx)
  | TOKEN_OP_ADD => Some ((d0 + d1)%float, ctx)
  | TOKEN_OP_SUBSTRACT => Some ((d0 - d1)%float, ctx)
  | TOKEN_OP_MULTIPLY => Some ((d0 * d1)%float, ctx)
  | TOKEN_OP_DIVIDE => Some ((d0 / d1)%float, ctx)
  | TOKEN_OP_MOD => Some (libm_fmod d0 d1, ctx)
  | TOKEN_OP_POW => Some (libm_pow d0 d1, ctx)
  | TOKEN_OP_BIGGEST => Some (if (d1 <? d0)%float then d0 else d1, ctx)
  | TOKEN_OP_SMALLEST => Some (if (d0 <? d1)%float then d0 else d1, ctx)
  | TOKEN_OP_RANDOM =>
      let '(v, st) := do_rand_get (rand ctx) d0 d1 in Some (v, with_rand st ctx)
  | TOKEN_OP_INTERPOLATE => Some (util_interpolate d0 d1 d2, ctx)
  | TOKEN_OP_LIMIT => Some (util_limit d0 d1 d2, ctx)
  | _ => None
  end.

Definition _math (ctx : context) (tok : string) (mr : option float)
    (type : token) (n : nat) : token_result :=
  match numeral_args n ctx tok with
  | (None, t, ctx1) => Result TOKEN_INVALID t mr ctx1
  | (Some d, t, ctx1) =>
      match math_eval ctx1 type d with
      | None => Result TOKEN_INVALID t mr ctx1
      | Some (result, ctx2) =>
          match mr with
          | Some _ => Result TOKEN_NUMBER t (Some result) ctx2
          | None => Result TOKEN_NUMBER (snprintf_s (snprintf_f 8 result)) None ctx2
          end
      end
  end.

(** The operation switch of [_math_cl]; [cl[i]] is
    [do_color_convert_argb_uint(d[i])]. *)
Definition math_cl_eval (type : token) (d : list float) : option color :=
  let cl i := do_color_convert_argb_uint (arg d i) in
  match type with
  | TOKEN_CL_RGB => Some (do_color_convert_rgba (arg d 0) (arg d 1) (arg d 2) 255)
  | TOKEN_CL_INTERPOLATE => Some (do_color_interpolate (cl 0%nat) (cl 1%nat) (arg d 2))
  | TOKEN_CL_RGBA =>
      Some (do_color_convert_rgba (arg d 0) (arg d 1) (arg d 2) (arg d 3))
  | _ => None
  end.

Definition _math_cl (ctx : context) (tok : string) (mr : option float)
    (type : token) (n : nat) : token_result :=
  match numeral_args n ctx tok with
  | (None, t, ctx1) => Result TOKEN_INVALID t mr ctx1
  | (Some d, t, ctx1) =>
      match math_cl_eval type d with
      | None => Result TOKEN_INVALID t mr ctx1
      | Some result =>
          match mr with
          | Some _ =>
              Result TOKEN_NUMBER t
                (Some (double_of_uint (do_color_get_argb_uint result))) ctx1
          | None =>
              Result TOKEN_NUMBER
                (snprintf_s (pretty (do_color_get_argb_uint result))) None ctx1
          end
      end
  end.

Definition _variable (ctx : context) (tok : string) (mr : option float)
    : token_result :=
  let r1 := get_token ctx tok None in
  if is_invalid (r_type r1) then Result TOKEN_INVALID (r_token r1) mr (r_ctx r1)
  else
    match cdict_find (keys_vars (r_ctx r1)) (r_token r1) CONTEXT_DICT_VARIABLE with
    | None => Result TOKEN_INVALID (r_token r1) mr (r_ctx r1)
    | Some i => get_token (do_book_reset_iterator (r_ctx r1) i) (r_token r1) mr
    end.

(** The dispatch switch of [dr_subtitution_apply], entered with the depth
    already incremented. *)
Definition substitution_switch (ctx : context) (tok : string)
    (mr : option float) : token_result :=
  let type := token_match tok in
  match type with
  | TOKEN_COMMENT => _comment ctx tok mr
  | TOKEN_EOF => _eof ctx tok mr
  | TOKEN_ESCAPE => _escape ctx tok mr
  | TOKEN_FILLER => _filler ctx tok mr
  | TOKEN_JOIN => _join ctx tok mr
  | TOKEN_VAR_INJECTION => _variable ctx tok mr
  | TOKEN_IF_LESS | TOKEN_IF_LESS_EQ | TOKEN_IF_MORE | TOKEN_IF_MORE_EQ
  | TOKEN_IF_EQ | TOKEN_IF_EQ_NOT => _if ctx tok mr type
  | TOKEN_TIMESTAMP | TOKEN_CONST_PI | TOKEN_CONST_EULER | TOKEN_CONST_TRUE
  | TOKEN_CONST_FALSE => _math ctx tok mr type 0
  | TOKEN_OP_SQRT | TOKEN_OP_CBRT | TOKEN_OP_ABS | TOKEN_OP_CEILING
  | TOKEN_OP_FLOOR | TOKEN_OP_ROUND | TOKEN_OP_COS | TOKEN_OP_SIN
  | TOKEN_OP_TAN | TOKEN_OP_ACOS | TOKEN_OP_ASIN | TOKEN_OP_ATAN
  | TOKEN_OP_COSH | TOKEN_OP_SINH | TOKEN_OP_LN | TOKEN_OP_LOG =>
      _math ctx tok mr type 1
  | TOKEN_OP_ADD | TOKEN_OP_SUBSTRACT | TOKEN_OP_MULTIPLY | TOKEN_OP_DIVIDE
  | TOKEN_OP_MOD | TOKEN_OP_POW | TOKEN_OP_BIGGEST | TOKEN_OP_SMALLEST
  | TOKEN_OP_RANDOM => _math ctx tok mr type 2
  | TOKEN_OP_LIMIT | TOKEN_OP_INTERPOLATE => _math ctx tok mr type 3
  | TOKEN_CL_RGB | TOKEN_CL_INTERPOLATE => _math_cl ctx tok mr type 3
  | TOKEN_CL_RGBA => _math_cl ctx tok mr type 4
  | _ => Result type tok mr ctx
  end.

Definition dr_subtitution_apply (ctx : context) (tok : string)
    (mr : option float) : token_result :=
  if (CONTEXT_MAX_DEPTH <=? depth ctx)%nat then Result TOKEN_INVALID tok mr ctx
  else
    let r := substitution_switch (depth_enter ctx) tok mr in
    Result (r_type r) (r_token r) (r_math r) (depth_leave (r_ctx r)).

End Substitution.

(** [context_get_token]: [n] bounds the nesting of calls that is left.
    The depth guard stops the recursion first whenever
    [CONTEXT_MAX_DEPTH - depth ctx < n] ([get_token_fuel_enough]). *)
Fixpoint get_token_fuel `{Platform} (n : nat) (ctx : context) (tok : string)
    (mr : option float) : token_result :=
  match n with
  | O => Result TOKEN_INVALID tok mr ctx
  | S n' =>
      let '(ty, t, ctx1) := context_get_token_raw ctx tok in
      if is_invalid ty then Result TOKEN_INVALID t mr ctx1
      else dr_subtitution_apply (get_token_fuel n') ctx1 t mr
  end.

Definition context_get_token `{Platform} (ctx : context) (tok : string)
    (mr : option float) : token_result :=
  get_token_fuel (S (CONTEXT_MAX_DEPTH - depth ctx)) ctx tok mr.

Definition context_get_token_numeral `{Platform} :=
  get_token_numeral context_get_token.

(** The name under which context.c calls [dr_subtitution_apply]. *)
Definition substitution_apply `{Platform} :=
  dr_subtitution_apply context_get_token.

(** ** sequence.c: the handlers

    A handler whose loop may run for ever (the replay of a variable can
    re-arm itself) takes a counter [fuel] and returns [None] when the
    counter runs out; [Some ctx] is the context the C function leaves. *)

Section Handlers.
Context `{Platform}.

(** [while (context_get_token(ctx, token, NULL) != TOKEN_INVALID) body],
    counting the turns. *)
Fixpoint while_token (fuel : nat) (body : string → context → context)
    (ctx : context) (tok : string) (n : N) : option (N * context) :=
  match fuel with
  | O => None
  | S fuel' =>
      let r := context_get_token ctx tok None in
      if is_invalid (r_type r) then Some (n, r_ctx r)
      else while_token fuel' body (body (r_token r) (r_ctx r)) (r_token r) (n + 1)
  end.

Definition write_sequences (value : string) (ctx : context) : context :=
  with_sequences (cbook_write (sequences ctx) value) ctx.

Definition write_vars (value : string) (ctx : context) : context :=
  with_vars (cbook_write (vars ctx) value) ctx.

(** The loop of [combine_var]; the bound is read again at every turn. *)
Fixpoint combine_var_loop (fuel : nat) (ctx : context) (type : token)
    (token_2 : string) (i j k : N) : option context :=
  match fuel with
  | O => None
  | S fuel' =>
      if k <? cbook_group_length (vars ctx) i then
        let val := cbook_word_in_group (vars ctx) i k in
        let val :=
          match type with
          | TOKEN_VAR_APPEND => val +:+ token_2
          | TOKEN_VAR_PREPEND => token_2 +:+ val
          | TOKEN_VAR_MERGE => val +:+ cbook_word_in_group (vars ctx) j k
          | _ => val
          end in
        combine_var_loop fuel' (write_vars val ctx) type token_2 i j (k + 1)
      else Some ctx
  end.

Definition combine_var (fuel : nat) (ctx : context) (type : token)
    : option context :=
  if restricted ctx then Some ctx
  else
    let r0 := context_get_token ctx uninit_token None in
    if is_invalid (r_type r0) then Some (r_ctx r0)
    else
      let r1 := context_get_token (r_ctx r0) uninit_token None in
      if is_invalid (r_type r1) then Some (r_ctx r1)
      else
        let r2 := context_get_token (r_ctx r1) uninit_token None in
        if is_invalid (r_type r2) then Some (r_ctx r2)
        else
          let ctx := r_ctx r2 in
          match cdict_find (keys_vars ctx) (r_token r1) CONTEXT_DICT_VARIABLE with
          | None => Some ctx
          | Some i =>
              let j :=
                if token_eqb type TOKEN_VAR_MERGE
                then cdict_find (keys_vars ctx) (r_token r2) CONTEXT_DICT_VARIABLE
                else Some 0 in
              match j with
              | None => Some ctx
              | Some j =>
                  ctx ← combine_var_loop fuel
                    (with_vars (cbook_prepare_new_group (vars ctx)) ctx)
                    type (r_token r2) i j 0;
                  Some (with_keys_vars
                    (cdict_write (keys_vars ctx) (r_token r0) CONTEXT_DICT_VARIABLE
                       (size_pred (cbook_groups_number (vars ctx)))) ctx)
              end
          end.

(** The loop of [declare_enum]: [i <= steps] compares in [double]. *)
Fixpoint declare_enum_loop (fuel : nat) (ctx : context)
    (min max steps precision : float) (i : N) : option context :=
  match fuel with
  | O => None
  | S fuel' =>
      if (double_of_uint i <=? steps)%float then
        let ratio := util_interpolate min max (double_of_uint i / steps)%float in
        declare_enum_loop fuel'
          (write_vars (snprintf_s (snprintf_f precision ratio)) ctx)
          min max steps precision (i + 1)
      else Some ctx
  end.

Definition declare_enum (fuel : nat) (ctx : context) : option context :=
  if restricted ctx then Some ctx
  else
    let valid r : nat := if is_invalid (r_type r) then 0%nat else 1%nat in
    (* min, max, steps, precision: indeterminate until a read writes them *)
    let junk := stack_double ctx in
    let cell k r := default (junk k) (r_math r) in
    let r0 := context_get_token ctx uninit_token None in
    let r1 := context_get_token_numeral (r_ctx r0) uninit_token (junk 0%nat) in
    let r2 := context_get_token_numeral (r_ctx r1) (r_token r1) (junk 1%nat) in
    let r3 := context_get_token_numeral (r_ctx r2) (r_token r2) (junk 2%nat) in
    let r4 := context_get_token_numeral (r_ctx r3) (r_token r3) (junk 3%nat) in
    let n := (valid r0 + valid r1 + valid r2 + valid r3 + valid r4)%nat in
    let min := cell 0%nat r1 in
    let max := cell 1%nat r2 in
    let steps := cell 2%nat r3 in
    let precision := cell 3%nat r4 in
    let ctx := r_ctx r4 in
    let run (min max steps precision : float) : option context :=
      if (steps <? 1)%float || (double_of_uint SIZE_MAX <=? steps)%float
         || (precision <? 0)%float
      then Some ctx
      else
        let precision := if (16 <? precision)%float then 16%float else precision in
        ctx ← declare_enum_loop fuel
          (with_vars (cbook_prepare_new_group (vars ctx)) ctx)
          min max steps precision 0;
        Some (with_keys_vars
          (cdict_write (keys_vars ctx) (r_token r0) CONTEXT_DICT_VARIABLE
             (size_pred (cbook_groups_number (vars ctx)))) ctx) in
    match n with
    | 0%nat | 1%nat => Some ctx
    | 2%nat => run 0%float min (min - 0)%float 0%float
    | 3%nat => run min max (max - min)%float 0%float
    | 4%nat => run min max steps 0%float
    | _ => run min max steps precision
    end.

Definition declare_resource (fuel : nat) (ctx : context) (namespace : string)
    : option context :=
  let r := context_get_token ctx uninit_token None in
  if is_invalid (r_type r) then Some (r_ctx r)
  else
    let name := r_token r in
    let ctx := r_ctx r in
    '(n, ctx) ← while_token fuel write_sequences
      (with_sequences (cbook_prepare_new_group (sequences ctx)) ctx)
      uninit_token 0;
    if n =? 0 then
      Some (with_sequences (cbook_undo_new_group (sequences ctx)) ctx)
    else
      let '(i, ctx) :=
        match cdict_find (keys_sequences ctx) namespace 0 with
        | Some i => (i, ctx)
        | None =>
            let i := cbook_groups_number (sequences ctx) in
            (i, with_keys_sequences (cdict_write (keys_sequences ctx) namespace 0 i) ctx)
        end in
      Some (with_keys_sequences
        (cdict_write (keys_sequences ctx) name i
           (size_pred (cbook_groups_number (sequences ctx)))) ctx).

Definition declare_variable (fuel : nat) (ctx : context) : option context :=
  if restricted ctx then Some ctx
  else
    let r := context_get_token ctx uninit_token None in
    if is_invalid (r_type r) then Some (r_ctx r)
    else
      let name := r_token r in
      let ctx := r_ctx r in
      '(n, ctx) ← while_token fuel write_vars
        (with_vars (cbook_prepare_new_group (vars ctx)) ctx) uninit_token 0;
      if n =? 0 then Some (with_vars (cbook_undo_new_group (vars ctx)) ctx)
      else
        Some (with_keys_vars
          (cdict_write (keys_vars ctx) name CONTEXT_DICT_VARIABLE
             (size_pred (cbook_groups_number (vars ctx)))) ctx).

(** [ctx->buffer] is not NULL in a context that is being read
    ([read_char] dereferences it), so the inner test of the C code holds. *)
Definition include_file (tok : string) (ctx : context) : context :=
  if negb (Ascii.eqb (first_char tok) SLASH)
  then source_parse_child ctx (file_dir ctx +:+ "/" +:+ tok)
  else source_parse_child ctx tok.

Definition include (fuel : nat) (ctx : context) : option context :=
  if restricted ctx || (file_inode ctx =? 0) then Some ctx
  else snd <$> while_token fuel include_file ctx uninit_token 0.

(** [preproc_iter_nest]: the index reached, [*fail], the context.  The
    loop runs at most once per group of the iteration book. *)
Fixpoint preproc_iter_nest_loop (count : nat) (ctx : context) (tok : string)
    (i n : N) : N * bool * context :=
  match count with
  | O => (i, true, ctx)
  | S count' =>
      if i <? cbook_groups_number (iteration ctx) then
        let '(_, tok, ctx) :=
          context_get_token_raw (with_it_i 0 (with_it_group i ctx)) tok in
        match token_match tok with
        | TOKEN_FOR_BEGIN =>
            preproc_iter_nest_loop count' ctx tok (i + 1) (n + 1)
        | TOKEN_FOR_END =>
            if n =? 0 then (i, false, ctx)
            else preproc_iter_nest_loop count' ctx tok (i + 1) (n - 1)
        | _ => preproc_iter_nest_loop count' ctx tok (i + 1) n
        end
      else (i, true, ctx)
  end.

Definition preproc_iter_nest (ctx : context) (start_group : N)
    : N * bool * context :=
  preproc_iter_nest_loop (S (length (groups (iteration ctx)))) ctx
    uninit_token start_group 0.

Definition write_iteration (value : string) (ctx : context) : context :=
  with_iteration (cbook_write (iteration ctx) value) ctx.

(** [while (context_get_token_raw(ctx, token) != TOKEN_INVALID)
    cbook_write(ctx->iteration, token)]. *)
Fixpoint preproc_iter_line (fuel : nat) (ctx : context) (tok : string)
    : option (string * context) :=
  match fuel with
  | O => None
  | S fuel' =>
      let '(ty, tok, ctx) := context_get_token_raw ctx tok in
      if is_invalid ty then Some (tok, ctx)
      else preproc_iter_line fuel' (write_iteration tok ctx) tok
  end.

(** The loop of [preproc_iter_new]: [*fail] and the context. *)
Fixpoint preproc_iter_new_loop (fuel : nat) (ctx : context) (tok : string)
    (n : N) : option (bool * context) :=
  match fuel with
  | O => None
  | S fuel' =>
      if eof_reached ctx then Some (true, ctx)
      else
        let '(_, tok, ctx) :=
          context_get_token_raw (with_eol_reached false ctx) tok in
        let save n :=
          '(tok, ctx) ← preproc_iter_line fuel
            (write_iteration tok
               (with_iteration (cbook_prepare_new_group (iteration ctx)) ctx)) tok;
          preproc_iter_new_loop fuel' ctx tok n in
        match token_match tok with
        | TOKEN_FOR_BEGIN => save (n + 1)
        | TOKEN_FOR_END =>
            if n =? 0 then Some (false, context_goto_eol ctx)
            else save (n - 1)
        | TOKEN_INVALID => preproc_iter_new_loop fuel' (context_goto_eol ctx) tok n
        | _ => save n
        end
  end.

Definition preproc_iter_new (fuel : nat) (ctx : context)
    : option (bool * context) :=
  preproc_iter_new_loop fuel (context_goto_eol ctx) uninit_token 0.

(** The two ways in which [iterate] finds the body of the loop: the
    first group of the body, the group that ends it, [fail], the context. *)
Definition iterate_preproc (fuel : nat) (ctx : context)
    : option (N * N * bool * context) :=
  if negb (cbook_length (iteration ctx) =? 0) then
    let group_start := size_succ (it_group ctx) in
    let '(group_end, fail, ctx) := preproc_iter_nest ctx group_start in
    Some (group_start, group_end, fail, ctx)
  else
    '(fail, ctx) ← preproc_iter_new fuel ctx;
    Some (0, cbook_groups_number (iteration ctx), fail, ctx).

Section Iterate.
(** [sequence_parse], which [iterate] calls back. *)
Variable parse : context → option context.

(** [for (ctx->it_group = group_start; ctx->it_group < group_end;
    ctx->it_group++)]: the body may move [it_group] (a nested FOR leaves
    it on its FOR_END). *)
Fixpoint iterate_groups (fuel : nat) (ctx : context) (group_end : N)
    : option context :=
  match fuel with
  | O => None
  | S fuel' =>
      if it_group ctx <? group_end then
        ctx ← parse (with_it_i 0 ctx);
        iterate_groups fuel' (with_it_group (size_succ (it_group ctx)) ctx) group_end
      else Some ctx
  end.

(** [for (size_t k = 0; k < cbook_group_length(ctx->vars, i); k++)]. *)
Fixpoint iterate_values (fuel count : nat) (ctx : context) (name : string)
    (i group_start group_end k : N) : option context :=
  match count with
  | O => None
  | S count' =>
      if k <? cbook_group_length (vars ctx) i then
        let ctx :=
          with_keys_vars
            (cdict_write (keys_vars ctx) name CONTEXT_DICT_ITERATION
               (cbook_word_index (vars ctx) i k)) ctx in
        ctx ← iterate_groups fuel (with_it_group group_start ctx) group_end;
        iterate_values fuel count' ctx name i group_start group_end (k + 1)
      else Some ctx
  end.

Definition iterate (fuel : nat) (ctx : context) : option context :=
  if restricted ctx then Some ctx
  else
    let r1 := context_get_token ctx uninit_token None in
    if is_invalid (r_type r1) then Some (r_ctx r1)
    else
      match cdict_find (keys_vars (r_ctx r1)) (r_token r1) CONTEXT_DICT_VARIABLE with
      | None => Some (r_ctx r1)
      | Some i =>
          let r2 := context_get_token (r_ctx r1) uninit_token None in
          let name :=
            if is_invalid (r_type r2) then snprintf_s (r_token r1) else r_token r2 in
          let ctx := r_ctx r2 in
          match cdict_find (keys_vars ctx) name CONTEXT_DICT_ITERATION with
          | Some _ => Some ctx
          | None =>
              let nested := negb (cbook_length (iteration ctx) =? 0) in
              '(group_start, group_end, fail, ctx) ← iterate_preproc fuel ctx;
              ctx ←
                (if fail : bool then Some ctx
                 else
                   ctx ← iterate_values fuel fuel ctx name i group_start group_end 0;
                   Some (with_keys_vars
                     (cdict_erase (keys_vars ctx) name CONTEXT_DICT_ITERATION) ctx));
              Some (if nested then ctx
                    else with_iteration (cbook_clear (iteration ctx)) ctx)
          end
      end.

End Iterate.

Definition print_token (tok : string) (ctx : context) : context :=
  with_stderr_log (stderr_log ctx ++ [tok +:+ String "," (String TAB EmptyString)]) ctx.

Definition print (fuel : nat) (ctx : context) : option context :=
  if restricted ctx then Some ctx
  else
    '(_, ctx) ← while_token fuel print_token ctx uninit_token 0;
    Some (with_stderr_log (stderr_log ctx ++ [String LF EmptyString]) ctx).

Definition restrict_mode (ctx : context) : context := with_restricted true ctx.

Definition section_add_tag (tok : string) (ctx : context) : context :=
  with_keys_vars (cdict_write (keys_vars ctx) tok CONTEXT_DICT_SECTION 0) ctx.

Definition section_add (fuel : nat) (ctx : context) : option context :=
  if restricted ctx then Some ctx
  else snd <$> while_token fuel section_add_tag ctx uninit_token 0.

Fixpoint section_begin_loop (fuel : nat) (ctx : context) (tok : string)
    : option context :=
  match fuel with
  | O => None
  | S fuel' =>
      let r := context_get_token ctx tok None in
      if is_invalid (r_type r) then Some (with_skip_sequences false (r_ctx r))
      else
        match cdict_find (keys_vars (r_ctx r)) (r_token r) CONTEXT_DICT_SECTION with
        | None => Some (with_skip_sequences true (r_ctx r))
        | Some _ => section_begin_loop fuel' (r_ctx r) (r_token r)
        end
  end.

Definition section_begin (fuel : nat) (ctx : context) : option context :=
  if restricted ctx then Some ctx
  else section_begin_loop fuel ctx uninit_token.

Definition section_del_tag (tok : string) (ctx : context) : context :=
  with_keys_vars (cdict_erase (keys_vars ctx) tok CONTEXT_DICT_SECTION) ctx.

Definition section_del (fuel : nat) (ctx : context) : option context :=
  if restricted ctx then Some ctx
  else snd <$> while_token fuel section_del_tag ctx uninit_token 0.

Definition seed (ctx : context) : context :=
  if restricted ctx then ctx
  else
    let r := context_get_token_numeral ctx uninit_token uninit_double in
    if is_invalid (r_type r) then r_ctx r
    else with_rand (crand_seed (default uninit_double (r_math r))) (r_ctx r).

(** ** sequence.c: the dispatcher *)

Fixpoint sequence_parse (fuel : nat) (ctx : context) : option context :=
  match fuel with
  | O => None
  | S fuel' =>
      if (CONTEXT_MAX_DEPTH <=? depth ctx)%nat then Some ctx
      else
        let r := context_get_token (depth_enter ctx) uninit_token None in
        let ctx := r_ctx r in
        let type :=
          if negb (token_eqb (r_type r) TOKEN_SECTION_BEGIN) && skip_sequences ctx
          then TOKEN_INVALID else r_type r in
        ctx ←
          match type with
          | TOKEN_VAR_APPEND | TOKEN_VAR_PREPEND | TOKEN_VAR_MERGE =>
              combine_var fuel' ctx type
          | TOKEN_VAR_DECLARATION => declare_variable fuel' ctx
          | TOKEN_ENUM_DECLARATION => declare_enum fuel' ctx
          | TOKEN_SECTION_BEGIN => section_begin fuel' ctx
          | TOKEN_SECTION_ADD => section_add fuel' ctx
          | TOKEN_SECTION_DEL => section_del fuel' ctx
          | TOKEN_INCLUDE => include fuel' ctx
          | TOKEN_FOR_BEGIN => iterate (sequence_parse fuel') fuel' ctx
          | TOKEN_SEED => Some (seed ctx)
          | TOKEN_PRINT => print fuel' ctx
          | TOKEN_RESTRICT => Some (restrict_mode ctx)
          | TOKEN_INVALID => Some ctx
          | _ => declare_resource fuel' ctx (r_token r)
          end;
        Some (depth_leave (context_goto_eol ctx))
  end.

End Handlers.

(** ** The loader and the query functions

    ccfg.c and source.c are not part of the sources: the definitions of
    this section follow the specification. *)

(** Modelled from the spec: the root context that [ccfg_load_internal]
    creates for a buffer (source.c is missing): "active character buffer,
    current read position; inode 0 if in-memory buffer; recursion depth;
    flags; replay positions reset to a sentinel; the two books and two
    dictionaries owned by the config object". *)
Definition context_init (buf : string) : context :=
  Build_context buf EmptyString 0 0 0 false false false false
    SIZE_MAX SIZE_MAX SIZE_MAX SIZE_MAX
    cbook_empty ∅ cbook_empty ∅ cbook_empty 0 [].

(** Modelled from the spec: the loop of the source loader (source.c is
    missing), which "invokes the sequence dispatcher until EOF"; a new
    logical line starts with [eol_reached] cleared, as in
    [preproc_iter_new]. *)
Fixpoint source_parse_loop `{Platform} (fuel : nat) (ctx : context)
    : option context :=
  match fuel with
  | O => None
  | S fuel' =>
      if eof_reached ctx then Some ctx
      else
        ctx ← sequence_parse fuel (with_eol_reached false ctx);
        source_parse_loop fuel' ctx
  end.

(** Modelled from the spec: [ccfg_load_internal] (ccfg.c is missing)
    parses a buffer from the root context. *)
Definition ccfg_load_internal `{Platform} (fuel : nat) (buf : string)
    : option context :=
  source_parse_loop fuel (context_init buf).

(** Modelled from the spec: [ccfg_fetch] (ccfg.c is missing) "looks up the
    namespace id (via keys_sequences under id 0), then the property under
    that id, records the group index". *)
Definition ccfg_fetch (keys : gmap (string * N) N) (namespace property : string)
    : option N :=
  i ← cdict_find keys namespace 0;
  cdict_find keys property i.

(** Modelled from the spec: the values that [ccfg_iterate] and
    [ccfg_resource] (ccfg.c is missing) deliver after a fetch, in order:
    the words of the fetched group, nothing when the fetch failed. *)
Definition ccfg_resources (ctx : context) (namespace property : string)
    : list string :=
  match ccfg_fetch (keys_sequences ctx) namespace property with
  | Some g => cbook_group (sequences ctx) g
  | None => []
  end.

(** The values of a variable, as [keys_vars] and [vars] hold them. *)
Definition variable_values (ctx : context) (name : string) : option (list string) :=
  g ← cdict_find (keys_vars ctx) name CONTEXT_DICT_VARIABLE;
  lookupN (groups (vars ctx)) g.

(** ** A platform to run the model on

    The keywords are those of the scenarios of the specification; numbers
    are read and printed as unsigned decimals; no file can be opened. *)

(** A buffer from its lines: each line ends with a newline. *)
Definition text (ls : list string) : string :=
  foldr (λ l acc, l +:+ String LF acc) EmptyString ls.

Definition sample_token_match (s : string) : token :=
  if String.eqb s "" then TOKEN_INVALID
  else if String.eqb s "//" then TOKEN_COMMENT
  else if String.eqb s "EOF" then TOKEN_EOF
  else if String.eqb s "\" then TOKEN_ESCAPE
  else if String.eqb s "=" then TOKEN_FILLER
  else if String.eqb s "JOIN" then TOKEN_JOIN
  else if String.eqb s "$" then TOKEN_VAR_INJECTION
  else if String.eqb s "?<" then TOKEN_IF_LESS
  else if String.eqb s "?<=" then TOKEN_IF_LESS_EQ
  else if String.eqb s "?>" then TOKEN_IF_MORE
  else if String.eqb s "?>=" then TOKEN_IF_MORE_EQ
  else if String.eqb s "?==" then TOKEN_IF_EQ
  else if String.eqb s "?!=" then TOKEN_IF_EQ_NOT
  else if String.eqb s "TRUE" then TOKEN_CONST_TRUE
  else if String.eqb s "FALSE" then TOKEN_CONST_FALSE
  else if String.eqb s "SQRT" then TOKEN_OP_SQRT
  else if String.eqb s "+" then TOKEN_OP_ADD
  else if String.eqb s "-" then TOKEN_OP_SUBSTRACT
  else if String.eqb s "*" then TOKEN_OP_MULTIPLY
  else if String.eqb s "RGB" then TOKEN_CL_RGB
  else if String.eqb s "LET" then TOKEN_VAR_DECLARATION
  else if String.eqb s "LET_APPEND" then TOKEN_VAR_APPEND
  else if String.eqb s "LET_PREPEND" then TOKEN_VAR_PREPEND
  else if String.eqb s "LET_MERGE" then TOKEN_VAR_MERGE
  else if String.eqb s "ENUM" then TOKEN_ENUM_DECLARATION
  else if String.eqb s "SECTION" then TOKEN_SECTION_BEGIN
  else if String.eqb s "SECTION_ADD" then TOKEN_SECTION_ADD
  else if String.eqb s "SECTION_DEL" then TOKEN_SECTION_DEL
  else if String.eqb s "INCLUDE" then TOKEN_INCLUDE
  else if String.eqb s "FOR" then TOKEN_FOR_BEGIN
  else if String.eqb s "FOR_END" then TOKEN_FOR_END
  else if String.eqb s "SEED" then TOKEN_SEED
  else if String.eqb s "PRINT" then TOKEN_PRINT
  else if String.eqb s "RESTRICT" then TOKEN_RESTRICT
  else TOKEN_STRING.

(** The leading decimal digits of a string, as a number. *)
Fixpoint digits_value (s : string) (acc : N) : N :=
  match s with
  | String c s' =>
      match Ascii.is_nat c with
      | Some d => digits_value s' (10 * acc + N.of_nat d)
      | None => acc
      end
  | EmptyString => acc
  end.

Definition sample_strtod (s : string) : float := double_of_uint (digits_value s 0).

(** Colours are packed ARGB integers; a colour string is [#] followed by
    decimal digits only. *)
Fixpoint all_digits (s : string) : bool :=
  match s with
  | String c s' =>
      match Ascii.is_nat c with Some _ => all_digits s' | None => false end
  | EmptyString => true
  end.

Definition sample_color_from_str (s : string) : N * bool :=
  match s with
  | String _ (String c s') =>
      if all_digits (String c s') then (digits_value (String c s') 0, false)
      else (0, true)
  | _ => (0, true)
  end.

(** The integer part of a [double] in the range of [size_t], by bisection
    on the 64 bits. *)
Fixpoint uint_of_double_bits (bits : nat) (acc : N) (d : float) : N :=
  match bits with
  | O => acc
  | S bits' =>
      let cand := acc + 2 ^ N.of_nat bits' in
      if (double_of_uint cand <=? d)%float
      then uint_of_double_bits bits' cand d
      else uint_of_double_bits bits' acc d
  end.

Definition uint_of_double (d : float) : N := uint_of_double_bits 64 0 d.

Definition sample_snprintf_f (precision value : float) : string :=
  pretty (uint_of_double value).

Global Instance sample_platform : Platform := {|
  token_match := sample_token_match;
  strtod := sample_strtod;
  snprintf_f := sample_snprintf_f;
  libc_time := 0%float;
  libm_cbrt := λ x, x; libm_ceil := λ x, x; libm_floor := λ x, x;
  libm_round := λ x, x; libm_cos := λ x, x; libm_sin := λ x, x;
  libm_tan := λ x, x; libm_acos := λ x, x; libm_asin := λ x, x;
  libm_atan := λ x, x; libm_cosh := λ x, x; libm_sinh := λ x, x;
  libm_log := λ x, x; libm_log10 := λ x, x;
  libm_fmod := λ x _, x; libm_pow := λ x _, x;
  color := N;
  ccolor_from_str := sample_color_from_str;
  ccolor_to_argb_uint := λ c, c;
  do_color_convert_argb_uint := uint_of_double;
  do_color_convert_rgba := λ r g b a,
    ((uint_of_double a * 256 + uint_of_double r) * 256 + uint_of_double g) * 256
    + uint_of_double b;
  do_color_interpolate := λ a _ _, a;
  do_color_get_argb_uint := λ c, c;
  do_rand_get := λ st a _, (a, st + 1);
  crand_seed := uint_of_double;
  util_interpolate := λ a b t, (a + (b - a) * t)%float;
  util_limit := λ x lo hi,
    if (x <? lo)%float then lo else if (hi <? x)%float then hi else x;
  source_parse_child := λ ctx _, ctx;
  stack_double := λ _ _, 0%float;
|}.

(** * Definitions for the statements

    What the theorems are stated with: the fields a call leaves alone,
    the lexer read by recursion on the text, the stores that the
    declarations build, and sample contexts. *)

(** What reading a token leaves unchanged. *)
Definition frame (c : context) :=
  (file_dir c, file_inode c, depth c, skip_sequences c, restricted c, it_group c,
   sequences c, keys_sequences c, vars c, keys_vars c, iteration c, stderr_log c,
   Nat.max (depth_peak c) CONTEXT_MAX_DEPTH).
Global Arguments frame : simpl never.

Record transparent (phi : context → context) : Prop := {
  tr_buffer : ∀ c, buffer (phi c) = buffer c;
  tr_eol_reached : ∀ c, eol_reached (phi c) = eol_reached c;
  tr_var_i : ∀ c, var_i (phi c) = var_i c;
  tr_var_group : ∀ c, var_group (phi c) = var_group c;
  tr_it_i : ∀ c, it_i (phi c) = it_i c;
  tr_it_group : ∀ c, it_group (phi c) = it_group c;
  tr_vars : ∀ c, vars (phi c) = vars c;
  tr_iteration : ∀ c, iteration (phi c) = iteration c;
  tr_keys_vars : ∀ c, keys_vars (phi c) = keys_vars c;
  tr_depth : ∀ c, depth (phi c) = depth c;
  tr_depth_peak : ∀ c, depth_peak (phi c) = depth_peak c;
  tr_rand : ∀ c, rand (phi c) = rand c;
  tr_with_buffer : ∀ v c, phi (with_buffer v c) = with_buffer v (phi c);
  tr_with_eol_reached : ∀ v c, phi (with_eol_reached v c) = with_eol_reached v (phi c);
  tr_with_eof_reached : ∀ v c, phi (with_eof_reached v c) = with_eof_reached v (phi c);
  tr_with_var_i : ∀ v c, phi (with_var_i v c) = with_var_i v (phi c);
  tr_with_var_group : ∀ v c, phi (with_var_group v c) = with_var_group v (phi c);
  tr_with_it_i : ∀ v c, phi (with_it_i v c) = with_it_i v (phi c);
  tr_with_depth : ∀ v c, phi (with_depth v c) = with_depth v (phi c);
  tr_with_depth_peak : ∀ v c, phi (with_depth_peak v c) = with_depth_peak v (phi c);
  tr_with_rand : ∀ v c, phi (with_rand v c) = with_rand v (phi c);
}.

Definition map_result (phi : context → context) (r : token_result) : token_result :=
  Result (r_type r) (r_token r) (r_math r) (phi (r_ctx r)).

Fixpoint str_all (p : ascii → bool) (s : string) : bool :=
  match s with
  | EmptyString => true
  | String c s' => p c && str_all p s'
  end.

(** The leading blanks of a text: the first other character and what
    follows it (the text from the terminator on, at the terminator). *)
Fixpoint skip_str (b : string) : ascii * string :=
  match b with
  | EmptyString => (NUL, EmptyString)
  | String c rest =>
      if Ascii.eqb c NUL then (NUL, b)
      else if is_blank c then skip_str rest
      else (c, rest)
  end.

(** One word of a text: [c] is the current character, [b] the text after
    it. *)
Fixpoint word_str (b : string) (c : ascii) (q1 q2 : bool) (tok : string)
    : ascii * string * string :=
  let next q1 q2 t :=
    match b with
    | EmptyString => (NUL, t, EmptyString)
    | String c' b' =>
        if Ascii.eqb c' NUL then (NUL, t, b) else word_str b' c' q1 q2 t
    end in
  if Ascii.eqb c NUL then (c, tok, b)
  else if is_blank c || Ascii.eqb c LF then
    if q1 || q2 then next q1 q2 (char_add tok c) else (c, tok, b)
  else if Ascii.eqb c SQUOTE then
    if negb q2 then next (negb q1) q2 tok else next q1 q2 (char_add tok c)
  else if Ascii.eqb c DQUOTE then
    if negb q1 then next q1 (negb q2) tok else next q1 q2 (char_add tok c)
  else next q1 q2 (char_add tok c).

(** The rest of a line: the text after its newline, and whether the
    terminator was met instead. *)
Fixpoint eol_str (b : string) : string * bool :=
  match b with
  | EmptyString => (EmptyString, true)
  | String c rest =>
      if Ascii.eqb c NUL then (b, true)
      else if Ascii.eqb c LF then (rest, false)
      else eol_str rest
  end.

(** A character that the word loop stores without leaving its quote
    state. *)
Definition literal (q1 q2 : bool) (c : ascii) : bool :=
  negb (Ascii.eqb c NUL)
  && (if is_blank c || Ascii.eqb c LF then q1 || q2
      else if Ascii.eqb c SQUOTE then q2
      else if Ascii.eqb c DQUOTE then q1
      else true).

Fixpoint str_add (tok s : string) : string :=
  match s with
  | EmptyString => tok
  | String c s' => str_add (char_add tok c) s'
  end.

Definition not_nul (c : ascii) : bool := negb (Ascii.eqb c NUL).

(** Following the spec's words: "a STRING parseable as a C-style decimal".
    [strtod] converts a text that, after white space and an optional sign,
    starts with a digit, with a point and a digit, or with "inf" or "nan"
    in either case. *)
Definition is_c_space (c : ascii) : bool :=
  Ascii.eqb c " " || Ascii.eqb c TAB || Ascii.eqb c LF || Ascii.eqb c VT
  || Ascii.eqb c "012" || Ascii.eqb c "013".

Definition is_c_digit (c : ascii) : bool :=
  match Ascii.is_nat c with Some _ => true | None => false end.

Definition lower (c : ascii) : ascii :=
  let n := nat_of_ascii c in
  if (65 <=? n)%nat && (n <=? 90)%nat then ascii_of_nat (n + 32) else c.

Fixpoint skip_c_space (s : string) : string :=
  match s with
  | String c s' => if is_c_space c then skip_c_space s' else s
  | EmptyString => s
  end.

Definition c_decimal_parseable (s : string) : bool :=
  let s := skip_c_space s in
  let s :=
    match s with
    | String c s' => if Ascii.eqb c "+" || Ascii.eqb c "-" then s' else s
    | EmptyString => s
    end in
  match s with
  | String c s' =>
      is_c_digit c
      || (Ascii.eqb c "." && is_c_digit (first_char s'))
      || (match s' with
          | String c2 (String c3 _) =>
              let w := String (lower c) (String (lower c2) (String (lower c3) EmptyString)) in
              String.eqb w "inf" || String.eqb w "nan"
          | _ => false
          end)
  | EmptyString => false
  end.

(** Following the spec's words: the tokens that the numeral coercion is
    said to accept. *)
Definition spec_numeral_accepts `{Platform} (ty : token) (tok : string) : Prop :=
  ty = TOKEN_NUMBER
  ∨ (ty = TOKEN_STRING ∧ c_decimal_parseable tok = true)
  ∨ (first_char tok = HASH ∧ (ccolor_from_str tok).2 = false).

(** The tokens of the rest of a logical line: what
    [while (context_get_token(...) != TOKEN_INVALID)] reads when its body
    leaves the reader alone, and the context after the invalid token. *)
Fixpoint tokens_until_invalid `{Platform} (fuel : nat) (ctx : context)
    (tok : string) : option (list string * context) :=
  match fuel with
  | O => None
  | S fuel' =>
      let r := context_get_token ctx tok None in
      if is_invalid (r_type r) then Some ([], r_ctx r)
      else
        '(vs, c) ← tokens_until_invalid fuel' (r_ctx r) (r_token r);
        Some (r_token r :: vs, c)
  end.

(** The sequences book and its dictionary as a load builds them:
    namespace identifiers are not 0, and the group index of a property is
    a group of the book. *)
Definition sequences_wf (b : cbook) (k : gmap (string * N) N) : Prop :=
  (∀ ns i, k !! (ns, 0) = Some i → i ≠ 0)
  ∧ (∀ p i g, i ≠ 0 → k !! (p, i) = Some g → g < cbook_groups_number b)
  ∧ (∀ p i q j g, i ≠ 0 → j ≠ 0 →
       k !! (p, i) = Some g → k !! (q, j) = Some g → (p, i) = (q, j)).

(** What [declare_resource] does to the book and the dictionary once the
    values [vs] are known. *)
Definition resource_store (namespace name : string) (vs : list string)
    (b : cbook) (k : gmap (string * N) N) : cbook * gmap (string * N) N :=
  let b' := fold_left cbook_write vs (cbook_prepare_new_group b) in
  match vs with
  | [] => (cbook_undo_new_group b', k)
  | _ =>
      let '(i, k') :=
        match cdict_find k namespace 0 with
        | Some i => (i, k)
        | None =>
            (cbook_groups_number b', cdict_write k namespace 0 (cbook_groups_number b'))
        end in
      (b', cdict_write k' name i (size_pred (cbook_groups_number b')))
  end.

(** The identifier under which [resource_store] files the properties of a
    namespace. *)
Definition namespace_id (namespace : string) (b : cbook)
    (k : gmap (string * N) N) : N :=
  default (cbook_groups_number b + 1) (cdict_find k namespace 0).

(** The tokens that a [while_token] loop hands to its body. *)
Fixpoint while_token_values `{Platform} (fuel : nat)
    (body : string → context → context) (ctx : context) (tok : string)
    : option (list string * context) :=
  match fuel with
  | O => None
  | S fuel' =>
      let r := context_get_token ctx tok None in
      if is_invalid (r_type r) then Some ([], r_ctx r)
      else
        '(vs, c) ← while_token_values fuel' body (body (r_token r) (r_ctx r)) (r_token r);
        Some (r_token r :: vs, c)
  end.

(** The variable book and the VARIABLE entries of its dictionary as a
    load builds them. *)
Definition vars_wf (b : cbook) (k : gmap (string * context_dict) N) : Prop :=
  (∀ p g, k !! (p, CONTEXT_DICT_VARIABLE) = Some g → g < cbook_groups_number b)
  ∧ (∀ p q g, k !! (p, CONTEXT_DICT_VARIABLE) = Some g →
       k !! (q, CONTEXT_DICT_VARIABLE) = Some g → p = q).

(** A context in which the resource (ns, p) and the variable p have
    been declared with the value a, about to read the line [p c d]. *)
Definition redeclaration_context : context :=
  with_keys_vars {[ ("p", CONTEXT_DICT_VARIABLE) := 0 ]}
    (with_vars (Cbook [["a"]] false)
       (with_keys_sequences (<[("p", 1) := 0]> {[ ("ns", 0) := 1 ]})
          (with_sequences (Cbook [["a"]] false) (context_init "p c d")))).

(** The highest depth reached so far, counted from [CONTEXT_MAX_DEPTH]. *)
Definition cap (c : context) : nat := Nat.max (depth_peak c) CONTEXT_MAX_DEPTH.

(** What every call leaves as it found it: the depth, the cap, and the
    groups that the variable book had. *)
Definition steady (c c' : context) : Prop :=
  depth c' = depth c ∧ cap c' = cap c
  ∧ groups (vars c) `prefix_of` groups (vars c').

(** A variable book that has grown from the groups [old]: a write
    leaves [old] alone. *)
Definition grown (old : list (list string)) (b : cbook) : Prop :=
  old `prefix_of` groups b
  ∧ (new_group b = true ∨ (length old < length (groups b))%nat).

(** The invariant of a handler that writes the variable book. *)
Definition writing (c0 c : context) : Prop :=
  depth c = depth c0 ∧ cap c = cap c0 ∧ grown (groups (vars c0)) (vars c).

(** What restricted mode protects: the flags, the variable book and its
    dictionary (variables, iteration bindings, section tags), the
    iteration book and the printed text. *)
Definition variables_frame (c : context) :=
  (restricted c, skip_sequences c, vars c, keys_vars c, iteration c, stderr_log c).

(** Whether a tag is registered under SECTION. *)
Definition section_registered (k : gmap (string * context_dict) N) (tag : string)
    : bool :=
  match cdict_find k tag CONTEXT_DICT_SECTION with Some _ => true | None => false end.

(** An unbalanced quote on a concrete buffer: the blank and the newline
    after the quote belong to the token, and the reader stops at the end
    of the buffer. *)
Definition open_quote_text : string := "  ab'c d" +:+ String LF "e".

(** What the capture of a loop body leaves alone. *)
Definition book_frame (c : context) :=
  (vars c, keys_vars c, sequences c, keys_sequences c, restricted c,
   skip_sequences c).

(** The outer loop of [iterate] with its bound read off as a list of
    indices, the inner loop left as the code has it ([iterate_groups]):
    an intermediate form between the code and the replay that the
    statements use. *)
Fixpoint replay_values (parse : context → option context) (fuel : nat)
    (name : string) (group_start group_end : N) (idxs : list N) (ctx : context)
    : option context :=
  match idxs with
  | [] => Some ctx
  | idx :: rest =>
      ctx ← iterate_groups parse fuel
        (with_it_group group_start
           (with_keys_vars
              (cdict_write (keys_vars ctx) name CONTEXT_DICT_ITERATION idx) ctx))
        group_end;
      replay_values parse fuel name group_start group_end rest ctx
  end.

(** A context in which the variable v holds the values a and b. *)
Definition iterate_context (buf : string) : context :=
  with_keys_vars {[ ("v", CONTEXT_DICT_VARIABLE) := 0 ]}
    (with_vars (Cbook [["a"; "b"]] false) (context_init buf)).

(** What follows a FOR leader: the operand v, a body of one resource
    line, and the FOR_END that closes it (left out of the second text). *)
Definition loop_text : string := text [" v"; "r p x"; "FOR_END"].
Definition open_loop_text : string := text [" v"; "r p x"].

(** A body that holds a loop over the same variable, under the alias w. *)
Definition nested_loop_text : string :=
  text [" v"; "FOR v w"; "r p x"; "FOR_END"; "FOR_END"].

(** A text that fits the token buffer, whose last cell holds the
    terminator. *)
Definition fits (t : string) : Prop := (String.length t ≤ TOKEN_MAX_LEN - 1)%nat.

(** The kinds that the switch of [dr_subtitution_apply] handles. *)
Definition is_substitution_token (t : token) : bool :=
  match t with
  | TOKEN_COMMENT | TOKEN_EOF | TOKEN_ESCAPE | TOKEN_FILLER | TOKEN_JOIN
  | TOKEN_VAR_INJECTION
  | TOKEN_IF_LESS | TOKEN_IF_LESS_EQ | TOKEN_IF_MORE | TOKEN_IF_MORE_EQ
  | TOKEN_IF_EQ | TOKEN_IF_EQ_NOT
  | TOKEN_TIMESTAMP | TOKEN_CONST_PI | TOKEN_CONST_EULER | TOKEN_CONST_TRUE
  | TOKEN_CONST_FALSE
  | TOKEN_OP_SQRT | TOKEN_OP_CBRT | TOKEN_OP_ABS | TOKEN_OP_CEILING
  | TOKEN_OP_FLOOR | TOKEN_OP_ROUND | TOKEN_OP_COS | TOKEN_OP_SIN
  | TOKEN_OP_TAN | TOKEN_OP_ACOS | TOKEN_OP_ASIN | TOKEN_OP_ATAN
  | TOKEN_OP_COSH | TOKEN_OP_SINH | TOKEN_OP_LN | TOKEN_OP_LOG
  | TOKEN_OP_ADD | TOKEN_OP_SUBSTRACT | TOKEN_OP_MULTIPLY | TOKEN_OP_DIVIDE
  | TOKEN_OP_MOD | TOKEN_OP_POW | TOKEN_OP_BIGGEST | TOKEN_OP_SMALLEST
  | TOKEN_OP_RANDOM | TOKEN_OP_LIMIT | TOKEN_OP_INTERPOLATE
  | TOKEN_CL_RGB | TOKEN_CL_INTERPOLATE | TOKEN_CL_RGBA => true
  | _ => false
  end.

(** What every token read delivers: a kind that the switch does not
    handle, and a text that fits the buffer when the text given did. *)
Definition delivered (tok : string) (r : token_result) : Prop :=
  is_substitution_token (r_type r) = false ∧ (fits tok → fits (r_token r)).

(** A word of 1100 letters. *)
Definition long_word : string := String.string_of_list_ascii (replicate 1100 "a"%char).

(** A character that ends a word outside quotes: a blank or a newline. *)
Definition is_separator (c : ascii) : bool := is_blank c || Ascii.eqb c LF.

(** A character of a line: neither the newline nor the terminator. *)
Definition in_line (c : ascii) : bool :=
  negb (Ascii.eqb c NUL) && negb (Ascii.eqb c LF).

(** No replay is pending: the raw reader takes its next token from the
    buffer. *)
Definition reads_buffer (c : context) : Prop :=
  (var_i c <? cbook_group_length (vars c) (var_group c)) = false
  ∧ (it_i c <? cbook_group_length (iteration c) (it_group c)) = false.

(** The resource store of a context. *)
Definition resources (c : context) : cbook * gmap (string * N) N :=
  (sequences c, keys_sequences c).

(** A property [Q] of the resource store holds in a context. *)
Definition resources_satisfy (Q : cbook → gmap (string * N) N → Prop) (c : context)
    : Prop :=
  Q (sequences c) (keys_sequences c).

(** Every word of the book fits the token buffer. *)
Definition words_fit (b : cbook) (k : gmap (string * N) N) : Prop :=
  Forall (Forall fits) (groups b).

(** A context in which the tags dark and wide are registered. *)
Definition sections_context (buf : string) : context :=
  with_keys_vars
    (<[("dark", CONTEXT_DICT_SECTION) := 0]> {[ ("wide", CONTEXT_DICT_SECTION) := 0 ]})
    (context_init buf).

(** What PRINT writes for the tokens [vs]: each token followed by a
    comma and a tabulation, then a newline. *)
Definition print_line (vs : list string) : list string :=
  map (λ t, t +:+ String "," (String TAB EmptyString)) vs
  ++ [String LF EmptyString].

(** The value that [combine_var] writes for the word [k] of the group
    [i] of the book [b]. *)
Definition combined (type : token) (token_2 : string) (b : cbook) (i j k : N)
    : string :=
  let val := cbook_word_in_group b i k in
  match type with
  | TOKEN_VAR_APPEND => val +:+ token_2
  | TOKEN_VAR_PREPEND => token_2 +:+ val
  | TOKEN_VAR_MERGE => val +:+ cbook_word_in_group b j k
  | _ => val
  end.

(** Everything of a context but the reader: the two books with their
    dictionaries, the iteration book, the mode flags, the printed text
    and the depth. *)
Definition stores (c : context) :=
  (sequences c, keys_sequences c, vars c, keys_vars c, iteration c,
   skip_sequences c, restricted c, stderr_log c, depth c).

(** A word that the raw reader delivers as it stands: not empty, free of
    blanks, newlines, quotes and terminators, and no longer than the
    token buffer. *)
Definition plain_word (w : string) : Prop :=
  w ≠ EmptyString ∧ str_all (literal false false) w = true ∧ fits w.

(** A line of text: its words, a space between two of them, a newline
    at the end. *)
Fixpoint render_line (l : list string) : string :=
  match l with
  | [] => String LF EmptyString
  | w :: l' =>
      w +:+ match l' with
            | [] => String LF EmptyString
            | _ :: _ => String " " (render_line l')
            end
  end.

Definition render (ls : list (list string)) : string :=
  foldr (λ l acc, render_line l +:+ acc) EmptyString ls.

(** The kind of the first word of a line, as the raw reader delivers
    it. *)
Definition leader_kind `{Platform} (l : list string) : token :=
  token_match (snprintf_s (hd EmptyString l)).

(** The nesting after a line led by a token of kind [k]: FOR opens a
    loop, FOR_END closes one; there is none when FOR_END closes the
    loop that is being looked for. *)
Definition nest_step (k : token) (n : N) : option N :=
  match k with
  | TOKEN_FOR_BEGIN => Some (n + 1)
  | TOKEN_FOR_END => if n =? 0 then None else Some (n - 1)
  | _ => Some n
  end.

(** The nesting after the lines [ls], none of which closes the loop. *)
Fixpoint nest_after `{Platform} (n : N) (ls : list (list string)) : option N :=
  match ls with
  | [] => Some n
  | l :: ls' => n' ← nest_step (leader_kind l) n; nest_after n' ls'
  end.

(** A line of the body of a loop: plain words, at least one, the first
    of which has a kind. *)
Definition body_line `{Platform} (l : list string) : Prop :=
  l ≠ [] ∧ Forall plain_word l ∧ leader_kind l ≠ TOKEN_INVALID.

(** The book after each line was written into a new group of it. *)
Definition capture_book (b : cbook) (ls : list (list string)) : cbook :=
  match ls with
  | [] => b
  | _ :: _ => Cbook (groups b ++ ls) false
  end.

(** No group has more words than a [size_t] counts. *)
Definition sized (gs : list (list string)) : Prop :=
  Forall (λ l, N.of_nat (length l) ≤ SIZE_MAX) gs.

(** The replay of the variable book is over. *)
Definition var_done (c : context) : Prop :=
  (var_i c <? cbook_group_length (vars c) (var_group c)) = false.

(** Where the reader stands after a word of a line: at the end of the
    line, or before the words that are left. *)
Definition at_words (ws : list string) (tail : string) (c : context) : Prop :=
  match ws with
  | [] => eol_reached c = true ∧ buffer c = tail
  | _ :: _ => eol_reached c = false ∧ buffer c = render_line ws +:+ tail
  end.

(** The context after the lines [ls] were captured. *)
Definition captured (ls : list (list string)) (tail : string) (c : context)
    : context :=
  match ls with
  | [] => c
  | _ :: _ =>
      with_eol_reached true
        (with_buffer tail (with_iteration (capture_book (iteration c) ls) c))
  end.

(** The context after the groups [ls], which follow the groups [pre],
    were looked at. *)
Definition scanned (pre ls : list (list string)) (c : context) : context :=
  match ls with
  | [] => c
  | _ :: _ => with_it_i 1 (with_it_group (N.of_nat (length pre + length ls) - 1) c)
  end.

(** The [n] groups from [g] on, handed to the dispatcher one after the
    other as iteration tokens. *)
Fixpoint replay_groups (parse : context → option context) (g : N) (n : nat)
    (c : context) : option context :=
  match n with
  | O => Some c
  | S n' =>
      c' ← parse (with_it_i 0 (with_it_group g c));
      replay_groups parse (g + 1) n' c'
  end.

(** The alias bound under ITERATION to the index of a value. *)
Definition bind_alias (name : string) (idx : N) (c : context) : context :=
  with_keys_vars (cdict_write (keys_vars c) name CONTEXT_DICT_ITERATION idx) c.

(** The body [gs, gs + n) replayed once for each index of [idxs], in
    order, the alias bound to the index; after a pass the cursor of the
    iteration stands on the group that ends the body. *)
Fixpoint replay (parse : context → option context) (name : string) (gs : N)
    (n : nat) (idxs : list N) (c : context) : option context :=
  match idxs with
  | [] => Some c
  | idx :: rest =>
      c' ← replay_groups parse gs n (bind_alias name idx c);
      replay parse name gs n rest (with_it_group (gs + N.of_nat n) c')
  end.

(** Each line of a pass returns with the cursor of the iteration on the
    group of the line. *)
Fixpoint keeps_cursor (parse : context → option context) (g : N) (n : nat)
    (c : context) : Prop :=
  match n with
  | O => True
  | S n' =>
      match parse (with_it_i 0 (with_it_group g c)) with
      | Some c' => it_group c' = g ∧ keeps_cursor parse (g + 1) n' c'
      | None => True
      end
  end.

(** Each line of each pass of a replay does. *)
Fixpoint replay_keeps_cursor (parse : context → option context) (name : string)
    (gs : N) (n : nat) (idxs : list N) (c : context) : Prop :=
  match idxs with
  | [] => True
  | idx :: rest =>
      keeps_cursor parse gs n (bind_alias name idx c)
      ∧ match replay_groups parse gs n (bind_alias name idx c) with
        | Some c' =>
            replay_keeps_cursor parse name gs n rest
              (with_it_group (gs + N.of_nat n) c')
        | None => True
        end
  end.

(** The indices of the values of the group [i] of the variable book. *)
Definition value_indices (c : context) (i : N) : list N :=
  map (λ k, cbook_word_index (vars c) i (N.of_nat k))
    (seq 0 (length (cbook_group (vars c) i))).

(** The cursor of the iteration and the book it points into. *)
Definition cursor (c : context) : N * cbook := (it_group c, iteration c).





(** The sample platform with a [strtod] that reads the text nan as a
    NaN, as the C library does. *)
Definition nan_strtod (s : string) : float :=
  if String.eqb s "nan" then nan else sample_strtod s.

Definition nan_platform : Platform := {|
  token_match := sample_token_match;
  strtod := nan_strtod;
  snprintf_f := sample_snprintf_f;
  libc_time := 0%float;
  libm_cbrt := λ x, x; libm_ceil := λ x, x; libm_floor := λ x, x;
  libm_round := λ x, x; libm_cos := λ x, x; libm_sin := λ x, x;
  libm_tan := λ x, x; libm_acos := λ x, x; libm_asin := λ x, x;
  libm_atan := λ x, x; libm_cosh := λ x, x; libm_sinh := λ x, x;
  libm_log := λ x, x; libm_log10 := λ x, x;
  libm_fmod := λ x _, x; libm_pow := λ x _, x;
  color := N;
  ccolor_from_str := sample_color_from_str;
  ccolor_to_argb_uint := λ c, c;
  do_color_convert_argb_uint := uint_of_double;
  do_color_convert_rgba := λ r g b a,
    ((uint_of_double a * 256 + uint_of_double r) * 256 + uint_of_double g) * 256
    + uint_of_double b;
  do_color_interpolate := λ a _ _, a;
  do_color_get_argb_uint := λ c, c;
  do_rand_get := λ st a _, (a, st + 1);
  crand_seed := uint_of_double;
  util_interpolate := λ a b t, (a + (b - a) * t)%float;
  util_limit := λ x lo hi,
    if (x <? lo)%float then lo else if (hi <? x)%float then hi else x;
  source_parse_child := λ ctx _, ctx;
  stack_double := λ _ _, 0%float;
|}.

(** The variable a is declared, an ENUM of b with a step count that is
    not a number follows (the square root of 0 - 1), then a is declared
    again, and a resource injects b. *)
Definition alias_text : string :=
  text ["LET a x"; "ENUM b 0 1 SQRT - 0 1"; "LET a y"; "ns old $ b"].

(** The same text, where a declaration of b without values stands for
    the ENUM. *)
Definition no_alias_text : string :=
  text ["LET a x"; "LET b"; "LET a y"; "ns old $ b"].

(** The ENUM alone, in front of a resource that injects it. *)
Definition lone_enum_text : string :=
  text ["ENUM b 0 1 SQRT - 0 1"; "ns old $ b"].

(** The first text, with the step count written nan. *)
Definition nan_alias_text : string :=
  text ["LET a x"; "ENUM b 0 1 nan"; "LET a y"; "ns old $ b"].

(** * Properties *)

(** ** What a token read leaves unchanged *)

Lemma frame_with_buffer v c : frame (with_buffer v c) = frame c.
Proof. reflexivity. Qed.
Lemma frame_with_eol_reached v c : frame (with_eol_reached v c) = frame c.
Proof. reflexivity. Qed.
Lemma frame_with_eof_reached v c : frame (with_eof_reached v c) = frame c.
Proof. reflexivity. Qed.
Lemma frame_with_var_i v c : frame (with_var_i v c) = frame c.
Proof. reflexivity. Qed.
Lemma frame_with_var_group v c : frame (with_var_group v c) = frame c.
Proof. reflexivity. Qed.
Lemma frame_with_it_i v c : frame (with_it_i v c) = frame c.
Proof. reflexivity. Qed.
Lemma frame_with_rand v c : frame (with_rand v c) = frame c.
Proof. reflexivity. Qed.

Ltac frame_simpl :=
  rewrite ?frame_with_buffer, ?frame_with_eol_reached, ?frame_with_eof_reached,
    ?frame_with_var_i, ?frame_with_var_group, ?frame_with_it_i, ?frame_with_rand.

Lemma read_char_frame c : frame (read_char c).2 = frame c.
Proof. unfold read_char. destruct (buffer c) as [|ch rest]; [done|]. by destruct (Ascii.eqb ch NUL). Qed.

Lemma update_state_frame c ch : frame (update_state c ch) = frame c.
Proof. unfold update_state. by repeat case_match. Qed.

Lemma skip_lead_frame n c : frame (skip_lead n c).2 = frame c.
Proof.
  revert c. induction n as [|n IH]; intros c; simpl; [done|].
  pose proof (read_char_frame c) as Hc. destruct (read_char c) as [ch c1]; simpl in *.
  destruct (is_blank ch); simpl; [by rewrite IH|done].
Qed.

Lemma read_word_loop_frame n c ch q1 q2 t :
  frame (read_word_loop n c ch q1 q2 t).2 = frame c.
Proof.
  revert c ch q1 q2 t. induction n as [|n IH]; intros c ch q1 q2 t; simpl; [done|].
  pose proof (read_char_frame c) as Hc. destruct (read_char c) as [ch1 c1]; simpl in *.
  repeat case_match; simpl; rewrite ?IH; done.
Qed.

Lemma read_word_frame c t : frame (read_word c t).2 = frame c.
Proof.
  unfold read_word. case_match; [done|].
  pose proof (skip_lead_frame (S (String.length (buffer c))) c) as H1.
  destruct (skip_lead _ c) as [ch c1].
  pose proof (read_word_loop_frame (S (String.length (buffer c))) c1 ch false false "") as H2.
  destruct (read_word_loop _ c1 _ _ _ _) as [[ch2 t2] c2]. simpl in *.
  by rewrite update_state_frame, H2, H1.
Qed.

Lemma context_get_token_raw_frame c t : frame (context_get_token_raw c t).2 = frame c.
Proof.
  unfold context_get_token_raw. repeat case_match; simpl; try done.
  all: match goal with H : read_word ?c ?t = _ |- _ =>
    pose proof (read_word_frame c t) as Hf; rewrite H in Hf; exact Hf end.
Qed.

Lemma goto_eol_loop_frame n c : frame (goto_eol_loop n c) = frame c.
Proof.
  revert c. induction n as [|n IH]; intros c; simpl; [done|].
  case_match; [done|].
  pose proof (read_char_frame c) as Hc. destruct (read_char c) as [ch c1]; simpl in *.
  by rewrite IH, update_state_frame.
Qed.

Lemma context_goto_eol_frame c : frame (context_goto_eol c) = frame c.
Proof. unfold context_goto_eol. by rewrite frame_with_it_i, frame_with_var_i, goto_eol_loop_frame. Qed.

Section SubstitutionFrame.
Context `{Platform}.
Variable g : context → string → option float → token_result.
Hypothesis Hg : ∀ c t m, frame (r_ctx (g c t m)) = frame c.

Lemma get_token_numeral_frame c t d :
  frame (r_ctx (get_token_numeral g c t d)) = frame c.
Proof. unfold get_token_numeral. repeat case_match; simpl; by rewrite Hg. Qed.

Lemma numeral_args_frame n c t : frame (numeral_args g n c t).2 = frame c.
Proof.
  revert c t. induction n as [|n IH]; intros c t; simpl; [done|].
  case_match; simpl; [by rewrite get_token_numeral_frame|].
  specialize (IH (r_ctx (get_token_numeral g c t 0)) (r_token (get_token_numeral g c t 0))).
  destruct (numeral_args g n _ _) as [[ds t'] c']. simpl in *.
  by rewrite IH, get_token_numeral_frame.
Qed.

Lemma math_eval_frame c ty d v c' :
  math_eval c ty d = Some (v, c') → frame c' = frame c.
Proof.
  unfold math_eval. destruct ty; intros Heq; simplify_eq; try done.
  destruct (do_rand_get _ _ _); by simplify_eq.
Qed.

Lemma _math_frame c t m ty n : frame (r_ctx (_math g c t m ty n)) = frame c.
Proof.
  unfold _math. pose proof (numeral_args_frame n c t) as Ha.
  destruct (numeral_args g n c t) as [[[ds|] t'] c']; simpl in *; [|done].
  destruct (math_eval c' ty ds) as [[v c'']|] eqn:He; simpl; [|done].
  apply math_eval_frame in He. destruct m; simpl; congruence.
Qed.

Lemma _math_cl_frame c t m ty n : frame (r_ctx (_math_cl g c t m ty n)) = frame c.
Proof.
  unfold _math_cl. pose proof (numeral_args_frame n c t) as Ha.
  destruct (numeral_args g n c t) as [[[ds|] t'] c']; simpl in *; [|done].
  repeat case_match; done.
Qed.

Lemma _if_frame c t m ty : frame (r_ctx (_if g c t m ty)) = frame c.
Proof.
  unfold _if. repeat case_match; simpl; rewrite ?Hg, ?get_token_numeral_frame; done.
Qed.

Lemma _join_frame c t m : frame (r_ctx (_join g c t m)) = frame c.
Proof. unfold _join. repeat case_match; simpl; rewrite ?Hg; done. Qed.

Lemma _variable_frame c t m : frame (r_ctx (_variable g c t m)) = frame c.
Proof.
  unfold _variable, do_book_reset_iterator.
  repeat case_match; simpl; rewrite ?Hg; frame_simpl; rewrite ?Hg; done.
Qed.

Lemma _escape_frame c t m : frame (r_ctx (_escape c t m)) = frame c.
Proof.
  unfold _escape.
  pose proof (context_get_token_raw_frame (with_eol_reached false c) t) as Hr.
  destruct (context_get_token_raw _ t) as [[ty t'] c']. done.
Qed.

Lemma substitution_switch_frame c t m :
  frame (r_ctx (substitution_switch g c t m)) = frame c.
Proof.
  unfold substitution_switch.
  destruct (token_match t);
    auto using _math_frame, _math_cl_frame, _if_frame, _join_frame,
      _variable_frame, _escape_frame.
Qed.

Lemma frame_depth_leave c c' :
  frame c' = frame (depth_enter c) → (depth c < CONTEXT_MAX_DEPTH)%nat →
  frame (depth_leave c') = frame c.
Proof.
  unfold frame, depth_leave, depth_enter. simpl. intros Heq Hlt.
  injection Heq as -> -> Hd -> -> -> -> -> -> -> -> -> Hp.
  rewrite Hd, Hp. simpl. f_equal. lia.
Qed.

Lemma dr_subtitution_apply_frame c t m :
  frame (r_ctx (dr_subtitution_apply g c t m)) = frame c.
Proof.
  unfold dr_subtitution_apply. case_match; [done|]. simpl.
  apply frame_depth_leave; [apply substitution_switch_frame|].
  by apply Nat.leb_gt.
Qed.

End SubstitutionFrame.

Lemma get_token_fuel_frame `{Platform} n c t m :
  frame (r_ctx (get_token_fuel n c t m)) = frame c.
Proof.
  revert c t m. induction n as [|n IH]; intros c t m; simpl; [done|].
  pose proof (context_get_token_raw_frame c t) as Hr.
  destruct (context_get_token_raw c t) as [[ty t'] c']. simpl in *.
  case_match; simpl; [done|].
  by rewrite dr_subtitution_apply_frame.
Qed.

Lemma context_get_token_frame `{Platform} c t m :
  frame (r_ctx (context_get_token c t m)) = frame c.
Proof. apply get_token_fuel_frame. Qed.

(** ** Reading tokens commutes with updates of what the reader ignores *)

Lemma transparent_id : transparent (λ c, c).
Proof. by split. Qed.

Lemma transparent_with_sequences b : transparent (with_sequences b).
Proof. by split. Qed.

Section Transparent.
Variable phi : context → context.
Hypothesis Hphi : transparent phi.

Ltac tr_simpl :=
  rewrite ?(tr_buffer _ Hphi), ?(tr_eol_reached _ Hphi), ?(tr_var_i _ Hphi),
    ?(tr_var_group _ Hphi), ?(tr_it_i _ Hphi), ?(tr_it_group _ Hphi), ?(tr_vars _ Hphi),
    ?(tr_iteration _ Hphi), ?(tr_keys_vars _ Hphi), ?(tr_depth _ Hphi),
    ?(tr_depth_peak _ Hphi), ?(tr_rand _ Hphi).
Ltac tr_push :=
  repeat progress
    rewrite ?(tr_with_buffer _ Hphi), ?(tr_with_eol_reached _ Hphi),
      ?(tr_with_eof_reached _ Hphi), ?(tr_with_var_i _ Hphi), ?(tr_with_var_group _ Hphi),
      ?(tr_with_it_i _ Hphi), ?(tr_with_depth _ Hphi), ?(tr_with_depth_peak _ Hphi),
      ?(tr_with_rand _ Hphi).

Lemma read_char_tr c : read_char (phi c) = prod_map id phi (read_char c).
Proof.
  unfold read_char. tr_simpl. destruct (buffer c) as [|ch rest]; [done|].
  destruct (Ascii.eqb ch NUL); simpl; [done|]. by tr_push.
Qed.

Lemma update_state_tr c ch : update_state (phi c) ch = phi (update_state c ch).
Proof. unfold update_state. repeat case_match; by tr_push. Qed.

Lemma skip_lead_tr n c : skip_lead n (phi c) = prod_map id phi (skip_lead n c).
Proof.
  revert c. induction n as [|n IH]; intros c; simpl; [done|].
  rewrite read_char_tr. destruct (read_char c) as [ch c1]; simpl.
  destruct (is_blank ch); [apply IH|done].
Qed.

Lemma read_word_loop_tr n c ch q1 q2 t :
  read_word_loop n (phi c) ch q1 q2 t = prod_map id phi (read_word_loop n c ch q1 q2 t).
Proof.
  revert c ch q1 q2 t. induction n as [|n IH]; intros c ch q1 q2 t; simpl; [done|].
  rewrite read_char_tr. destruct (read_char c) as [ch1 c1]; simpl.
  repeat case_match; rewrite ?IH; done.
Qed.

Lemma read_word_tr c t : read_word (phi c) t = prod_map id phi (read_word c t).
Proof.
  unfold read_word. tr_simpl. case_match; [done|].
  generalize (S (String.length (buffer c))) as n. intros n.
  rewrite skip_lead_tr. destruct (skip_lead _ c) as [ch c1]; unfold prod_map, fst, snd.
  rewrite read_word_loop_tr. destruct (read_word_loop _ c1 _ _ _ _) as [[ch2 t2] c2].
  simpl. by rewrite update_state_tr.
Qed.

Lemma context_get_token_raw_tr c t :
  context_get_token_raw (phi c) t = prod_map id phi (context_get_token_raw c t).
Proof.
  unfold context_get_token_raw. tr_simpl.
  case_match; simpl; [by tr_push|]. case_match; simpl; [by tr_push|].
  rewrite read_word_tr. destruct (read_word c t) as [[ok t'] c']; simpl.
  by destruct ok.
Qed.

Lemma goto_eol_loop_tr n c : goto_eol_loop n (phi c) = phi (goto_eol_loop n c).
Proof.
  revert c. induction n as [|n IH]; intros c; simpl; [done|].
  tr_simpl. case_match; [done|]. rewrite read_char_tr.
  destruct (read_char c) as [ch c1]; simpl. by rewrite update_state_tr, IH.
Qed.

Lemma context_goto_eol_tr c : context_goto_eol (phi c) = phi (context_goto_eol c).
Proof.
  unfold context_goto_eol. tr_simpl. rewrite goto_eol_loop_tr. by tr_push.
Qed.

Lemma depth_enter_tr c : depth_enter (phi c) = phi (depth_enter c).
Proof. unfold depth_enter. tr_simpl. by tr_push. Qed.

Lemma depth_leave_tr c : depth_leave (phi c) = phi (depth_leave c).
Proof. unfold depth_leave. tr_simpl. by tr_push. Qed.

Context `{Platform}.
Variables g1 g2 : context → string → option float → token_result.
Variable d : nat.
Hypothesis Hg1 : ∀ c t m, frame (r_ctx (g1 c t m)) = frame c.
Hypothesis Hrel : ∀ c t m, depth c = d → g2 (phi c) t m = map_result phi (g1 c t m).

Lemma frame_depth c c' : frame c' = frame c → depth c' = depth c.
Proof. unfold frame. intros Heq. by simplify_eq. Qed.

Lemma g1_depth c t m : depth (r_ctx (g1 c t m)) = depth c.
Proof. apply frame_depth, Hg1. Qed.

Lemma get_token_numeral_depth c t x :
  depth (r_ctx (get_token_numeral g1 c t x)) = depth c.
Proof. apply frame_depth, get_token_numeral_frame, Hg1. Qed.

Lemma get_token_numeral_tr c t x :
  depth c = d →
  get_token_numeral g2 (phi c) t x = map_result phi (get_token_numeral g1 c t x).
Proof.
  intros Hd. unfold get_token_numeral. rewrite (Hrel _ _ _ Hd). simpl.
  repeat case_match; done.
Qed.

Lemma numeral_args_tr n c t :
  depth c = d →
  numeral_args g2 n (phi c) t = prod_map id phi (numeral_args g1 n c t).
Proof.
  revert c t. induction n as [|n IH]; intros c t Hd; simpl; [done|].
  rewrite (get_token_numeral_tr _ _ _ Hd). simpl.
  case_match; simpl; [done|].
  rewrite IH by (by rewrite get_token_numeral_depth).
  by destruct (numeral_args g1 n _ _) as [[ds t'] c'].
Qed.

Lemma math_eval_tr c ty ds :
  math_eval (phi c) ty ds = prod_map id phi <$> math_eval c ty ds.
Proof.
  unfold math_eval. tr_simpl. destruct ty; try done.
  destruct (do_rand_get _ _ _); simpl. by tr_push.
Qed.

Lemma _math_tr c t m ty n :
  depth c = d → _math g2 (phi c) t m ty n = map_result phi (_math g1 c t m ty n).
Proof.
  intros Hd. unfold _math. rewrite (numeral_args_tr _ _ _ Hd).
  destruct (numeral_args g1 n c t) as [[[ds|] t'] c']; simpl; [|done].
  rewrite math_eval_tr. destruct (math_eval c' ty ds) as [[v c'']|]; simpl; [|done].
  by destruct m.
Qed.

Lemma _math_cl_tr c t m ty n :
  depth c = d → _math_cl g2 (phi c) t m ty n = map_result phi (_math_cl g1 c t m ty n).
Proof.
  intros Hd. unfold _math_cl. rewrite (numeral_args_tr _ _ _ Hd).
  destruct (numeral_args g1 n c t) as [[[ds|] t'] c']; simpl; [|done].
  repeat case_match; done.
Qed.

Lemma _if_tr c t m ty :
  depth c = d → _if g2 (phi c) t m ty = map_result phi (_if g1 c t m ty).
Proof.
  intros Hd. unfold _if. rewrite (get_token_numeral_tr _ _ _ Hd). simpl.
  case_match; [done|].
  rewrite get_token_numeral_tr by (by rewrite get_token_numeral_depth). simpl.
  case_match; [done|]. case_match; [|done].
  rewrite Hrel by (by rewrite !get_token_numeral_depth). simpl.
  rewrite Hrel by (by rewrite g1_depth, !get_token_numeral_depth). simpl.
  rewrite Hrel by (by rewrite g1_depth, !get_token_numeral_depth). simpl.
  by case_match.
Qed.

Lemma _join_tr c t m :
  depth c = d → _join g2 (phi c) t m = map_result phi (_join g1 c t m).
Proof.
  intros Hd. unfold _join. rewrite (Hrel _ _ _ Hd). simpl. case_match; [done|].
  rewrite Hrel by (by rewrite g1_depth). simpl. by case_match.
Qed.

Lemma _variable_tr c t m :
  depth c = d → _variable g2 (phi c) t m = map_result phi (_variable g1 c t m).
Proof.
  intros Hd. unfold _variable, do_book_reset_iterator.
  rewrite (Hrel _ _ _ Hd). simpl. case_match; [done|]. tr_simpl.
  case_match; [|done]. rewrite <-(tr_with_var_group _ Hphi), <-(tr_with_var_i _ Hphi).
  apply Hrel. simpl. by rewrite g1_depth.
Qed.

Lemma _escape_tr c t m : _escape (phi c) t m = map_result phi (_escape c t m).
Proof.
  unfold _escape. rewrite <-(tr_with_eol_reached _ Hphi), context_get_token_raw_tr.
  by destruct (context_get_token_raw _ t) as [[ty t'] c'].
Qed.

Lemma substitution_switch_tr c t m :
  depth c = d →
  substitution_switch g2 (phi c) t m = map_result phi (substitution_switch g1 c t m).
Proof.
  intros Hd. unfold substitution_switch.
  destruct (token_match t);
    auto using _math_tr, _math_cl_tr, _if_tr, _join_tr, _variable_tr, _escape_tr.
  unfold _eof, map_result. simpl. by tr_push.
Qed.

End Transparent.

Lemma dr_subtitution_apply_tr `{Platform} phi g1 g2 c t m :
  transparent phi →
  (∀ c t m, frame (r_ctx (g1 c t m)) = frame c) →
  ((depth c < CONTEXT_MAX_DEPTH)%nat → ∀ c' t m,
     depth c' = S (depth c) → g2 (phi c') t m = map_result phi (g1 c' t m)) →
  dr_subtitution_apply g2 (phi c) t m = map_result phi (dr_subtitution_apply g1 c t m).
Proof.
  intros Hphi Hg1 Hrel. unfold dr_subtitution_apply.
  rewrite (tr_depth _ Hphi). case_match eqn:Hle; [done|].
  apply Nat.leb_gt in Hle. specialize (Hrel Hle).
  rewrite (depth_enter_tr _ Hphi).
  rewrite (substitution_switch_tr phi Hphi g1 g2 (S (depth c)) Hg1 Hrel) by done.
  unfold map_result. simpl. by rewrite (depth_leave_tr _ Hphi).
Qed.

Lemma get_token_fuel_tr `{Platform} phi n n' c t m :
  transparent phi →
  (CONTEXT_MAX_DEPTH - depth c < n)%nat → (CONTEXT_MAX_DEPTH - depth c < n')%nat →
  get_token_fuel n' (phi c) t m = map_result phi (get_token_fuel n c t m).
Proof.
  intros Hphi. revert n' c t m.
  induction n as [|n IH]; intros n' c t m Hn Hn'; [lia|].
  destruct n' as [|n']; [lia|]. simpl.
  rewrite (context_get_token_raw_tr _ Hphi).
  pose proof (context_get_token_raw_frame c t) as Hfr.
  destruct (context_get_token_raw c t) as [[ty t'] c1]. simpl in *.
  apply frame_depth in Hfr.
  case_match; [done|].
  apply dr_subtitution_apply_tr; [done|apply get_token_fuel_frame|].
  intros Hlt c' t0 m0 Hd. apply IH; lia.
Qed.

Lemma map_result_id r : map_result (λ c, c) r = r.
Proof. by destruct r. Qed.

(** The counter of [get_token_fuel] never runs out before the depth guard
    stops the recursion. *)
Lemma get_token_fuel_enough `{Platform} n c t m :
  (CONTEXT_MAX_DEPTH - depth c < n)%nat →
  get_token_fuel n c t m = context_get_token c t m.
Proof.
  intros Hn. unfold context_get_token.
  rewrite <-(map_result_id (get_token_fuel (S _) c t m)).
  apply (get_token_fuel_tr (λ c, c)); [apply transparent_id|lia..].
Qed.

(** [context_get_token] as context.c writes it. *)
Lemma context_get_token_unfold `{Platform} c t m :
  context_get_token c t m =
    let '(ty, t', c1) := context_get_token_raw c t in
    if is_invalid ty then Result TOKEN_INVALID t' m c1
    else substitution_apply c1 t' m.
Proof.
  unfold context_get_token at 1. simpl.
  pose proof (context_get_token_raw_frame c t) as Hfr.
  destruct (context_get_token_raw c t) as [[ty t'] c1]. simpl in *.
  apply frame_depth in Hfr.
  case_match; [done|]. unfold substitution_apply.
  rewrite <-(map_result_id (dr_subtitution_apply context_get_token c1 t' m)).
  unfold dr_subtitution_apply. rewrite Hfr.
  destruct (CONTEXT_MAX_DEPTH <=? depth c)%nat eqn:Hle; [done|].
  apply Nat.leb_gt in Hle.
  pose proof (dr_subtitution_apply_tr (λ c, c) context_get_token
    (get_token_fuel (CONTEXT_MAX_DEPTH - depth c)) c1 t' m transparent_id) as Htr.
  unfold dr_subtitution_apply in Htr. rewrite Hfr in Htr.
  destruct (CONTEXT_MAX_DEPTH <=? depth c)%nat eqn:Hle'; [apply Nat.leb_le in Hle'; lia|].
  rewrite Htr; [by rewrite !map_result_id|apply context_get_token_frame|].
  intros _ c' t0 m0 Hd. rewrite map_result_id. apply get_token_fuel_enough. lia.
Qed.

(** Reading a token neither reads nor writes the sequences book. *)
Lemma context_get_token_with_sequences `{Platform} b c t m :
  context_get_token (with_sequences b c) t m
  = map_result (with_sequences b) (context_get_token c t m).
Proof.
  unfold context_get_token. change (depth (with_sequences b c)) with (depth c).
  apply get_token_fuel_tr; [apply transparent_with_sequences|lia..].
Qed.

Global Arguments context_get_token : simpl never.
Global Arguments context_get_token_numeral : simpl never.
Global Arguments substitution_apply : simpl never.

Global Opaque TOKEN_MAX_LEN CONTEXT_MAX_DEPTH.

(** ** The lexer loops, by recursion on the text *)

Lemma with_buffer_same c : with_buffer (buffer c) c = c.
Proof. by destruct c. Qed.

Lemma with_buffer_twice b b' c : with_buffer b (with_buffer b' c) = with_buffer b c.
Proof. done. Qed.

Lemma skip_lead_fuel n c :
  (String.length (buffer c) < n)%nat →
  skip_lead n c = ((skip_str (buffer c)).1, with_buffer (skip_str (buffer c)).2 c).
Proof.
  revert c. induction n as [|n IH]; intros c Hn; [lia|]. simpl.
  unfold read_char. destruct (buffer c) as [|ch rest] eqn:Hb; simpl in *.
  { by rewrite <-Hb, with_buffer_same. }
  destruct (Ascii.eqb ch NUL) eqn:Hnul; simpl.
  { by rewrite <-Hb, with_buffer_same. }
  destruct (is_blank ch); [|done].
  rewrite IH by (simpl; lia). done.
Qed.

Lemma read_word_loop_fuel n c ch q1 q2 tok :
  (String.length (buffer c) < n)%nat →
  read_word_loop n c ch q1 q2 tok =
    (let '(ch', t, b) := word_str (buffer c) ch q1 q2 tok in (ch', t, with_buffer b c)).
Proof.
  revert c ch q1 q2 tok. induction n as [|n IH]; intros c ch q1 q2 tok Hn; [lia|].
  assert (Hnext : ∀ q1 q2 t,
    (let '(c', ctx') := read_char c in read_word_loop n ctx' c' q1 q2 t) =
    (let '(ch', t', b) :=
       match buffer c with
       | EmptyString => (NUL, t, EmptyString)
       | String c' b' =>
           if Ascii.eqb c' NUL then (NUL, t, buffer c) else word_str b' c' q1 q2 t
       end in (ch', t', with_buffer b c))).
  { intros q1' q2' t. unfold read_char.
    destruct (buffer c) as [|c' b'] eqn:Hb; simpl in *.
    - destruct n; simpl; by rewrite <-Hb, with_buffer_same.
    - destruct (Ascii.eqb c' NUL) eqn:Hnul.
      + destruct n; simpl; by rewrite <-Hb, with_buffer_same.
      + rewrite IH by (simpl; lia). simpl.
        by destruct (word_str b' c' q1' q2' t) as [[??]?]. }
  simpl. rewrite !Hnext.
  destruct (buffer c) as [|c' b'] eqn:Hb; simpl;
    repeat case_match; simplify_eq; try done; by rewrite <-?Hb, ?with_buffer_same.
Qed.

Lemma goto_eol_loop_fuel n c :
  (String.length (buffer c) < n)%nat → eol_reached c = false →
  goto_eol_loop n c =
    (let '(b, eof) := eol_str (buffer c) in
     with_eol_reached true
       ((if eof then with_eof_reached true else id) (with_buffer b c))).
Proof.
  revert c. induction n as [|n IH]; intros c Hn He; [lia|]. simpl. rewrite He.
  unfold read_char. destruct (buffer c) as [|ch rest] eqn:Hb; simpl in *.
  { unfold update_state. simpl. destruct n; simpl; by rewrite <-Hb, with_buffer_same. }
  destruct (Ascii.eqb ch NUL) eqn:Hnul.
  { apply Ascii.eqb_eq in Hnul as ->. unfold update_state. simpl.
    destruct n; simpl; by rewrite <-Hb, with_buffer_same. }
  unfold update_state. rewrite Hnul.
  destruct (Ascii.eqb ch LF) eqn:Hlf.
  { destruct n; done. }
  rewrite IH by (simpl; try done; lia). simpl. by destruct (eol_str rest) as [? []].
Qed.

Lemma str_app_cons x (a b : string) : String x a +:+ b = String x (a +:+ b).
Proof. reflexivity. Qed.

Lemma str_app_nil_l (b : string) : "" +:+ b = b.
Proof. reflexivity. Qed.

Lemma str_app_assoc (a b c : string) : (a +:+ b) +:+ c = a +:+ (b +:+ c).
Proof.
  induction a as [|x a IH]; [done|]. by rewrite !str_app_cons, IH.
Qed.

Lemma str_app_nil_r (a : string) : a +:+ "" = a.
Proof. induction a as [|x a IH]; [done|]. by rewrite str_app_cons, IH. Qed.

Lemma str_length_app (a b : string) :
  String.length (a +:+ b) = (String.length a + String.length b)%nat.
Proof.
  induction a as [|x a IH]; [done|]. rewrite str_app_cons. simpl. by rewrite IH.
Qed.

Lemma str_take_app_ge n a b :
  (n ≤ String.length a)%nat → str_take n (a +:+ b) = str_take n a.
Proof.
  revert a. induction n as [|n IH]; intros [|c a] Hle; simpl in *; try done; try lia.
  rewrite ?str_app_cons. simpl. f_equal. apply IH. lia.
Qed.

Lemma str_take_all n a : (String.length a ≤ n)%nat → str_take n a = a.
Proof.
  revert a. induction n as [|n IH]; intros [|c a] Hle; simpl in *; try done; try lia.
  f_equal. apply IH. lia.
Qed.

(** Storing characters one by one keeps the first [TOKEN_MAX_LEN - 1]. *)
Lemma str_add_take tok s :
  (String.length tok ≤ TOKEN_MAX_LEN - 1)%nat →
  str_add tok s = str_take (TOKEN_MAX_LEN - 1) (tok +:+ s).
Proof.
  revert tok. induction s as [|c s IH]; intros tok Hle; simpl.
  { rewrite str_app_nil_r. symmetry. by apply str_take_all. }
  unfold char_add. destruct (String.length tok <? TOKEN_MAX_LEN - 1)%nat eqn:Hlt.
  - apply Nat.ltb_lt in Hlt. rewrite IH.
    + by rewrite str_app_assoc.
    + rewrite str_length_app. simpl. lia.
  - apply Nat.ltb_ge in Hlt. rewrite IH by done.
    rewrite !str_take_app_ge by lia. done.
Qed.

Lemma word_str_step b c q1 q2 tok :
  literal q1 q2 c = true →
  word_str b c q1 q2 tok =
    match b with
    | EmptyString => (NUL, char_add tok c, EmptyString)
    | String c' b' =>
        if Ascii.eqb c' NUL then (NUL, char_add tok c, b)
        else word_str b' c' q1 q2 (char_add tok c)
    end.
Proof.
  unfold literal. intros Hlit. apply andb_prop in Hlit as [Hnul Hlit].
  apply negb_true_iff in Hnul.
  destruct b as [|c' b']; simpl; rewrite Hnul;
    destruct (is_blank c || Ascii.eqb c LF); rewrite ?Hlit; try done;
    destruct (Ascii.eqb c SQUOTE); rewrite ?Hlit; simpl; try done;
    destruct (Ascii.eqb c DQUOTE); rewrite ?Hlit; simpl; done.
Qed.

(** A run of literal characters is stored whole; the word goes on with
    what follows the run. *)
Lemma word_str_literal s b c q1 q2 tok :
  str_all (literal q1 q2) (String c s) = true →
  word_str (s +:+ b) c q1 q2 tok =
    match b with
    | EmptyString => (NUL, str_add tok (String c s), EmptyString)
    | String c' b' =>
        if Ascii.eqb c' NUL then (NUL, str_add tok (String c s), b)
        else word_str b' c' q1 q2 (str_add tok (String c s))
    end.
Proof.
  revert c tok. induction s as [|c1 s IH]; intros c tok Hall.
  - simpl in Hall. rewrite andb_true_r in Hall.
    rewrite str_app_nil_l. by apply word_str_step.
  - change (str_all (literal q1 q2) (String c (String c1 s)))
      with (literal q1 q2 c && str_all (literal q1 q2) (String c1 s)) in Hall.
    apply andb_prop in Hall as [Hc Hall].
    assert (Hc1 : Ascii.eqb c1 NUL = false).
    { simpl in Hall. unfold literal in Hall at 1.
      apply andb_prop in Hall as [Hx _]. apply andb_prop in Hx as [Hx _].
      by apply negb_true_iff in Hx. }
    rewrite str_app_cons, (word_str_step _ _ _ _ _ Hc), Hc1.
    by rewrite (IH c1 (char_add tok c) Hall).
Qed.

Lemma str_all_app p a b : str_all p (a +:+ b) = str_all p a && str_all p b.
Proof.
  induction a as [|x a IH]; [done|]. rewrite str_app_cons. simpl.
  by rewrite IH, andb_assoc.
Qed.

Lemma str_add_app tok a b : str_add tok (a +:+ b) = str_add (str_add tok a) b.
Proof.
  revert tok. induction a as [|x a IH]; intros tok; [done|].
  rewrite str_app_cons. simpl. apply IH.
Qed.

(** The lexer consumes a prefix of the text that holds no terminator. *)
Lemma skip_str_suffix b :
  ∃ consumed, b = consumed +:+ (skip_str b).2 ∧ str_all not_nul consumed = true.
Proof.
  induction b as [|c b IH]; simpl.
  { by exists "". }
  destruct (Ascii.eqb c NUL) eqn:Hnul; simpl.
  { by exists "". }
  destruct (is_blank c).
  - destruct IH as (cons & Heq & Hall). exists (String c cons).
    rewrite str_app_cons, <-Heq. split; [done|]. simpl. unfold not_nul at 1.
    by rewrite Hnul.
  - exists (String c ""). split; [done|]. simpl. unfold not_nul. by rewrite Hnul.
Qed.

Lemma word_str_suffix b c q1 q2 tok :
  ∃ consumed, b = consumed +:+ (word_str b c q1 q2 tok).2
    ∧ str_all not_nul consumed = true.
Proof.
  revert c q1 q2 tok. induction b as [|c' b IH]; intros c q1 q2 tok.
  { exists "". simpl. by repeat case_match. }
  assert (Hnext : ∀ q1 q2 t, ∃ consumed,
    String c' b = consumed +:+
      (if Ascii.eqb c' NUL then (NUL, t, String c' b) else word_str b c' q1 q2 t).2
    ∧ str_all not_nul consumed = true).
  { intros q1' q2' t. destruct (Ascii.eqb c' NUL) eqn:Hnul; simpl.
    { by exists "". }
    destruct (IH c' q1' q2' t) as (cons & Heq & Hall).
    exists (String c' cons). rewrite str_app_cons, <-Heq. split; [done|].
    simpl. unfold not_nul at 1. by rewrite Hnul. }
  simpl. destruct (Ascii.eqb c NUL); [by exists ""|].
  destruct (is_blank c || Ascii.eqb c LF).
  { destruct (q1 || q2); [apply Hnext|by exists ""]. }
  destruct (Ascii.eqb c SQUOTE). { destruct (negb q2); apply Hnext. }
  destruct (Ascii.eqb c DQUOTE). { destruct (negb q1); apply Hnext. }
  apply Hnext.
Qed.

Lemma update_state_buffer c ch : buffer (update_state c ch) = buffer c.
Proof. unfold update_state. by repeat case_match. Qed.

Lemma read_word_suffix ctx tok :
  ∃ consumed, buffer ctx = consumed +:+ buffer (read_word ctx tok).2
    ∧ str_all not_nul consumed = true.
Proof.
  unfold read_word. destruct (eol_reached ctx); [by exists ""|].
  remember (S (String.length (buffer ctx))) as n eqn:Hn.
  rewrite skip_lead_fuel by lia.
  destruct (skip_str_suffix (buffer ctx)) as (cons1 & Heq1 & Hall1).
  destruct (skip_str (buffer ctx)) as [c b1]. simpl in *.
  rewrite read_word_loop_fuel by (simpl; rewrite Hn, Heq1, str_length_app; lia).
  simpl. destruct (word_str_suffix b1 c false false "") as (cons2 & Heq2 & Hall2).
  destruct (word_str b1 c false false "") as [[c' t] b2]. simpl in *.
  exists (cons1 +:+ cons2). rewrite update_state_buffer. simpl.
  rewrite str_app_assoc, <-Heq2, <-Heq1.
  split; [done|by rewrite str_all_app, Hall1, Hall2].
Qed.

Lemma skip_str_blanks lead c b :
  str_all is_blank lead = true → is_blank c = false → Ascii.eqb c NUL = false →
  skip_str (lead +:+ String c b) = (c, b).
Proof.
  intros Hall Hc Hnul. induction lead as [|x lead IH].
  { rewrite str_app_nil_l. simpl. by rewrite Hnul, Hc. }
  simpl in Hall. apply andb_prop in Hall as [Hx Hall].
  rewrite str_app_cons. simpl. rewrite Hx.
  destruct (Ascii.eqb x NUL) eqn:Hxn; [|by apply IH].
  apply Ascii.eqb_eq in Hxn. by subst x.
Qed.

(** A quote that is never closed: the word runs to the terminator. *)
Lemma word_str_open_quote q rest tok :
  q = SQUOTE ∨ q = DQUOTE →
  str_all (literal (Ascii.eqb q SQUOTE) (Ascii.eqb q DQUOTE)) rest = true →
  word_str rest q false false tok = (NUL, str_add tok rest, EmptyString).
Proof.
  intros Hq Hall.
  assert (Hstep : word_str rest q false false tok =
    match rest with
    | EmptyString => (NUL, tok, EmptyString)
    | String c' b' =>
        if Ascii.eqb c' NUL then (NUL, tok, rest)
        else word_str b' c' (Ascii.eqb q SQUOTE) (Ascii.eqb q DQUOTE) tok
    end).
  { destruct Hq as [-> | ->]; by destruct rest. }
  rewrite Hstep. destruct rest as [|c rest]; [done|].
  assert (Hc : Ascii.eqb c NUL = false).
  { simpl in Hall. apply andb_prop in Hall as [Hx _]. unfold literal in Hx.
    apply andb_prop in Hx as [Hx _]. by apply negb_true_iff in Hx. }
  rewrite Hc. rewrite <-(str_app_nil_r rest) at 1.
  by rewrite (word_str_literal rest "" c _ _ tok Hall).
Qed.

Lemma literal_plain c :
  literal false false c = true →
  is_blank c = false ∧ Ascii.eqb c NUL = false.
Proof.
  unfold literal. intros Hlit. apply andb_prop in Hlit as [Hnul Hlit].
  apply negb_true_iff in Hnul. split; [|done].
  destruct (is_blank c); [done|done].
Qed.

Lemma quote_plain q :
  q = SQUOTE ∨ q = DQUOTE → is_blank q = false ∧ Ascii.eqb q NUL = false.
Proof. by intros [-> | ->]. Qed.

Lemma update_state_nul c :
  eof_reached (update_state c NUL) = true ∧ eol_reached (update_state c NUL) = true
  ∧ buffer (update_state c NUL) = buffer c.
Proof. done. Qed.

Lemma read_word_open_quote ctx tok lead pre q rest :
  eol_reached ctx = false →
  buffer ctx = lead +:+ pre +:+ String q rest →
  str_all is_blank lead = true →
  str_all (literal false false) pre = true →
  q = SQUOTE ∨ q = DQUOTE →
  str_all (literal (Ascii.eqb q SQUOTE) (Ascii.eqb q DQUOTE)) rest = true →
  let '(ok, t, ctx') := read_word ctx tok in
  t = snprintf_s (pre +:+ rest) ∧ ok = negb (str_is_empty t)
  ∧ eof_reached ctx' = true ∧ eol_reached ctx' = true ∧ buffer ctx' = EmptyString.
Proof.
  intros Heol Hbuf Hlead Hpre Hq Hrest. unfold read_word. rewrite Heol.
  remember (S (String.length (buffer ctx))) as n eqn:Hfuel.
  rewrite skip_lead_fuel by lia.
  assert (Hword : ∃ c b1, skip_str (buffer ctx) = (c, b1)
    ∧ word_str b1 c false false "" = (NUL, str_add "" (pre +:+ rest), "")).
  { destruct pre as [|p pre].
    - rewrite str_app_nil_l in Hbuf. exists q, rest.
      destruct (quote_plain q Hq) as [Hb Hn].
      rewrite Hbuf, (skip_str_blanks _ _ _ Hlead Hb Hn). split; [done|].
      by apply word_str_open_quote.
    - exists p, (pre +:+ String q rest).
      assert (Hp := Hpre). simpl in Hp. apply andb_prop in Hp as [Hp _].
      destruct (literal_plain p Hp) as [Hb Hn].
      rewrite Hbuf, str_app_cons, (skip_str_blanks _ _ _ Hlead Hb Hn).
      split; [done|].
      rewrite (word_str_literal pre (String q rest) p _ _ "" Hpre).
      destruct (quote_plain q Hq) as [_ ->].
      rewrite word_str_open_quote by done.
      by rewrite str_app_cons, <-str_add_app. }
  destruct Hword as (c & b1 & Hs & Hw). rewrite Hs. simpl.
  assert (Hlen : (String.length b1 < n)%nat).
  { destruct (skip_str_suffix (buffer ctx)) as (cons & Heq & _).
    rewrite Hs in Heq. simpl in Heq.
    rewrite Hfuel, Heq, str_length_app. lia. }
  rewrite read_word_loop_fuel by exact Hlen. simpl. rewrite Hw.
  rewrite str_add_take by (simpl; lia). rewrite str_app_nil_l. done.
Qed.

(** ** The numeral coercion, the comparisons and the injection *)

Lemma is_invalid_true t : is_invalid t = true ↔ t = TOKEN_INVALID.
Proof. by destruct t. Qed.

Lemma is_invalid_false t : is_invalid t = false ↔ t ≠ TOKEN_INVALID.
Proof. by destruct t. Qed.

(** C2 (amended): the numeral coercion accepts what substitution returned
    as NUMBER, every STRING that does not start with [#] (its value is
    [strtod] of the token, no error is looked for), and a STRING that
    starts with [#] when the colour parser reports no error (its value is
    the packed ARGB integer); it returns INVALID for every other token. *)
Theorem context_get_token_numeral_accepts `{Platform} (ctx : context)
    (tok : string) (d : float) :
  let r := context_get_token ctx tok (Some d) in
  let n := context_get_token_numeral ctx tok d in
  (r_type n = TOKEN_NUMBER ∨ r_type n = TOKEN_INVALID)
  ∧ (r_type n = TOKEN_NUMBER ↔
       r_type r = TOKEN_NUMBER
       ∨ (r_type r = TOKEN_STRING
          ∧ (first_char (r_token r) ≠ HASH ∨ (ccolor_from_str (r_token r)).2 = false)))
  ∧ (r_type r = TOKEN_STRING → first_char (r_token r) ≠ HASH →
       r_math n = Some (strtod (r_token r)))
  ∧ (r_type r = TOKEN_STRING → first_char (r_token r) = HASH →
       r_math n =
         Some (double_of_uint (ccolor_to_argb_uint (ccolor_from_str (r_token r)).1)))
  ∧ r_token n = r_token r ∧ r_ctx n = r_ctx r.
Proof.
  intros r n. subst n. unfold context_get_token_numeral, get_token_numeral.
  fold r. destruct (r_type r) eqn:Hty; simpl;
    try (split; [by right|]; split; [split; [done|intros [?|[? _]]; done]|done]).
  - (* STRING *)
    destruct (Ascii.eqb (first_char (r_token r)) HASH) eqn:Hh.
    + apply Ascii.eqb_eq in Hh.
      destruct (ccolor_from_str (r_token r)) as [cl err] eqn:Hc. simpl.
      destruct err; simpl.
      * split; [by right|]. split; [|done].
        split; [done|]. intros [?|[_ [?|?]]]; done.
      * split; [by left|]. split; [|done]. split; [|done]. intros _. right. auto.
    + apply Ascii.eqb_neq in Hh. simpl. split; [by left|]. split; [|done].
      split; [|done]. intros _. right. auto.
  - (* NUMBER *)
    split; [by left|]. split; [|done]. split; [|done]. intros _. by left.
Qed.

(** C2, as stated, fails: the STRING [abc] is not parseable as a decimal
    and is no colour, and the coercion returns NUMBER for it. *)
Lemma numeral_accepts_unparseable_string :
  r_type (context_get_token_numeral (context_init "abc") uninit_token 0%float)
    = TOKEN_NUMBER
  ∧ ¬ spec_numeral_accepts
        (r_type (context_get_token (context_init "abc") uninit_token (Some 0%float)))
        (r_token (context_get_token (context_init "abc") uninit_token (Some 0%float))).
Proof.
  split; [by vm_compute|].
  assert (Hty : r_type (context_get_token (context_init "abc") uninit_token
    (Some 0%float)) = TOKEN_STRING) by (by vm_compute).
  assert (Htok : r_token (context_get_token (context_init "abc") uninit_token
    (Some 0%float)) = "abc") by (by vm_compute).
  rewrite Hty, Htok. intros [Hn | [[_ Hp] | [Hh _]]]; [done| |done].
  by vm_compute in Hp.
Qed.

Lemma numeral_math_some `{Platform} g c t d :
  ∃ x, r_math (get_token_numeral g c t d) = Some x.
Proof. unfold get_token_numeral. repeat case_match; simpl; eauto. Qed.

Lemma if_compare_holds type a b :
  is_if_token type = true →
  ∃ holds, if_compare type a b = Some holds ∧
    holds = match type with
        | TOKEN_IF_LESS => (a <? b)%float
        | TOKEN_IF_LESS_EQ => (a <=? b)%float
        | TOKEN_IF_MORE => (b <? a)%float
        | TOKEN_IF_MORE_EQ => (b <=? a)%float
        | TOKEN_IF_EQ => (a =? b)%float
        | _ => negb (a =? b)%float
        end.
Proof. destruct type; try discriminate; simpl; eauto. Qed.

(** C3: an IF token whose two numerals are read compares them as its
    kind says, then reads the two following tokens, the first before the
    second, and returns the first when the comparison holds and the second
    otherwise.  The loser is read in both cases; when the first wins, it is
    evaluated (with the tokens it consumes) before the second is read into
    a scratch buffer with no number cell. *)
Theorem if_reads_both_branches `{Platform} (ctx : context) (tok : string)
    (mr : option float) (type : token) :
  let n1 := context_get_token_numeral ctx tok uninit_double in
  let n2 := context_get_token_numeral (r_ctx n1) (r_token n1) uninit_double in
  is_if_token type = true →
  r_type n1 = TOKEN_NUMBER → r_type n2 = TOKEN_NUMBER →
  ∃ a b holds,
    r_math n1 = Some a ∧ r_math n2 = Some b
    ∧ holds =
        match type with
        | TOKEN_IF_LESS => (a <? b)%float
        | TOKEN_IF_LESS_EQ => (a <=? b)%float
        | TOKEN_IF_MORE => (b <? a)%float
        | TOKEN_IF_MORE_EQ => (b <=? a)%float
        | TOKEN_IF_EQ => (a =? b)%float
        | _ => negb (a =? b)%float
        end
    ∧ let first := context_get_token (r_ctx n2) (r_token n2) mr in
      let second :=
        if holds then context_get_token (r_ctx first) uninit_token None
        else context_get_token (r_ctx first) (r_token first) (r_math first) in
      let r := _if context_get_token ctx tok mr type in
      r_ctx r = r_ctx second
      ∧ r_type r = (if holds then r_type first else r_type second)
      ∧ r_token r = (if holds then r_token first else r_token second)
      ∧ r_math r = (if holds then r_math first else r_math second).
Proof.
  intros n1 n2 Hif H1 H2. unfold context_get_token_numeral in *.
  destruct (numeral_math_some context_get_token ctx tok uninit_double) as [a Ha].
  destruct (numeral_math_some context_get_token (r_ctx n1) (r_token n1) uninit_double)
    as [b Hb].
  destruct (if_compare_holds type a b Hif) as (holds & Hcmp & Hholds).
  exists a, b, holds. split; [exact Ha|]. split; [exact Hb|]. split; [exact Hholds|].
  subst n1 n2. unfold _if. rewrite H1. cbn [is_invalid]. rewrite H2, Ha, Hb.
  cbn [is_invalid default from_option id]. rewrite Hcmp.
  destruct holds; cbn [r_ctx r_type r_token r_math]; repeat split.
Qed.

Lemma if_reads_both_branches_witness :
  r_token (_if context_get_token (context_init "1 2 yes no") uninit_token None
             TOKEN_IF_LESS) = "yes"
  ∧ buffer (r_ctx (_if context_get_token (context_init "1 2 yes no") uninit_token None
                     TOKEN_IF_LESS)) = EmptyString.
Proof.
  destruct (if_reads_both_branches (context_init "1 2 yes no") uninit_token None
              TOKEN_IF_LESS)
    as (a & b & holds & Ha & Hb & Hholds & Hctx & _ & Htok & _);
    [reflexivity|vm_compute; reflexivity|vm_compute; reflexivity|].
  vm_compute in Ha, Hb. injection Ha as <-. injection Hb as <-.
  vm_compute in Hholds. subst holds. rewrite Htok, Hctx.
  split; vm_compute; reflexivity.
Defined.

Lemma frame_fields c c' :
  frame c' = frame c →
  file_dir c' = file_dir c ∧ file_inode c' = file_inode c ∧ depth c' = depth c
  ∧ skip_sequences c' = skip_sequences c ∧ restricted c' = restricted c
  ∧ it_group c' = it_group c ∧ sequences c' = sequences c
  ∧ keys_sequences c' = keys_sequences c ∧ vars c' = vars c
  ∧ keys_vars c' = keys_vars c ∧ iteration c' = iteration c
  ∧ stderr_log c' = stderr_log c.
Proof. unfold frame. intros Heq. by simplify_eq. Qed.




(** ** Resource declarations *)

Lemma while_token_write_sequences `{Platform} fuel b ctx tok n :
  while_token fuel write_sequences (with_sequences b ctx) tok n
  = '(vs, c) ← tokens_until_invalid fuel ctx tok;
    Some (n + N.of_nat (length vs), with_sequences (fold_left cbook_write vs b) c).
Proof.
  revert b ctx tok n. induction fuel as [|fuel IH]; intros b ctx tok n; [done|].
  cbn [while_token tokens_until_invalid].
  rewrite context_get_token_with_sequences. cbn [map_result r_type r_token r_ctx].
  destruct (is_invalid (r_type (context_get_token ctx tok None))).
  { cbn. by rewrite N.add_0_r. }
  change (write_sequences ?v (with_sequences b ?c))
    with (with_sequences (cbook_write b v) c).
  rewrite IH.
  destruct (tokens_until_invalid fuel _ _) as [[vs c]|]; [|done].
  cbn. do 2 f_equal. rewrite Nat2N.inj_succ. lia.
Qed.

Lemma append_to_last_snoc gs g w : append_to_last (gs ++ [g]) w = gs ++ [g ++ [w]].
Proof.
  induction gs as [|g' gs IH]; [done|]. simpl. rewrite IH.
  destruct (gs ++ [g]) eqn:Heq; [|done]. by destruct gs.
Qed.

Lemma cbook_write_more gs g vs :
  fold_left cbook_write vs (Cbook (gs ++ [g]) false) = Cbook (gs ++ [g ++ vs]) false.
Proof.
  revert g. induction vs as [|w vs IH]; intros g.
  { by rewrite app_nil_r. }
  cbn [fold_left]. unfold cbook_write at 2. cbn [new_group groups].
  rewrite append_to_last_snoc, IH. by rewrite <-app_assoc.
Qed.

(** Writing the words [vs] after [cbook_prepare_new_group] adds the one
    group [vs]. *)
Lemma cbook_write_group b v vs :
  new_group b = true →
  fold_left cbook_write (v :: vs) b = Cbook (groups b ++ [v :: vs]) false.
Proof.
  intros Hnew. cbn [fold_left]. unfold cbook_write at 2. rewrite Hnew.
  apply cbook_write_more.
Qed.

Lemma tokens_until_invalid_frame `{Platform} fuel ctx tok vs c :
  tokens_until_invalid fuel ctx tok = Some (vs, c) → frame c = frame ctx.
Proof.
  revert ctx tok vs c. induction fuel as [|fuel IH]; intros ctx tok vs c; [done|].
  cbn [tokens_until_invalid].
  destruct (is_invalid (r_type (context_get_token ctx tok None))).
  { intros [= <- <-]. apply context_get_token_frame. }
  destruct (tokens_until_invalid fuel _ _) as [[vs' c']|] eqn:Hrec; [|done].
  intros [= <- <-]. rewrite (IH _ _ _ _ Hrec). apply context_get_token_frame.
Qed.

Lemma declare_resource_store `{Platform} fuel ctx namespace vs c :
  let r := context_get_token ctx uninit_token None in
  r_type r ≠ TOKEN_INVALID →
  tokens_until_invalid fuel (r_ctx r) uninit_token = Some (vs, c) →
  declare_resource fuel ctx namespace
  = Some (with_keys_sequences
            (resource_store namespace (r_token r) vs (sequences ctx) (keys_sequences ctx)).2
            (with_sequences
               (resource_store namespace (r_token r) vs (sequences ctx)
                  (keys_sequences ctx)).1 c)).
Proof.
  intros r Hty Htok. unfold declare_resource. fold r.
  apply is_invalid_false in Hty. rewrite Hty.
  rewrite while_token_write_sequences, Htok. cbn [mbind option_bind].
  destruct (frame_fields _ _ (context_get_token_frame ctx uninit_token None))
    as (_ & _ & _ & _ & _ & _ & Hseq & Hkeys & _). fold r in Hseq, Hkeys.
  destruct (frame_fields _ _ (tokens_until_invalid_frame _ _ _ _ _ Htok))
    as (_ & _ & _ & _ & _ & _ & _ & Hkeys' & _).
  rewrite Hseq. unfold resource_store.
  destruct vs as [|v vs].
  { cbn. by rewrite <-Hkeys, <-Hkeys'. }
  replace (0 + N.of_nat (length (v :: vs)) =? 0) with false
    by (symmetry; apply N.eqb_neq; cbn [length]; lia).
  cbn [sequences keys_sequences with_sequences with_keys_sequences].
  rewrite Hkeys', Hkeys.
  destruct (cdict_find (keys_sequences ctx) namespace 0);
    cbn [keys_sequences sequences with_sequences with_keys_sequences fst snd];
    by rewrite ?Hkeys', ?Hkeys.
Qed.

Lemma size_pred_succ n : size_pred (n + 1) = n.
Proof.
  unfold size_pred. destruct (N.eqb_spec (n + 1) 0) as [?|_]; lia.
Qed.

Lemma lookupN_snoc {A} (l : list A) x : lookupN (l ++ [x]) (N.of_nat (length l)) = Some x.
Proof.
  unfold lookupN. rewrite length_app. cbn [length].
  destruct (N.ltb_spec (N.of_nat (length l)) (N.of_nat (length l + 1))) as [_|?]; [|lia].
  rewrite Nat2N.id. by apply list_lookup_middle.
Qed.

Lemma lookupN_app_l {A} (l k : list A) i :
  i < N.of_nat (length l) → lookupN (l ++ k) i = lookupN l i.
Proof.
  intros Hlt. unfold lookupN. rewrite length_app.
  destruct (N.ltb_spec i (N.of_nat (length l + length k))) as [_|?]; [|lia].
  destruct (N.ltb_spec i (N.of_nat (length l))) as [_|?]; [|lia].
  apply lookup_app_l. lia.
Qed.

Lemma resource_store_cons namespace name v vs b k :
  resource_store namespace name (v :: vs) b k
  = (Cbook (groups b ++ [v :: vs]) false,
     <[(name, namespace_id namespace b k) := cbook_groups_number b]>
       (match cdict_find k namespace 0 with
        | Some _ => k
        | None => <[(namespace, 0) := cbook_groups_number b + 1]> k
        end)).
Proof.
  unfold resource_store, namespace_id. rewrite cbook_write_group by done.
  unfold cbook_groups_number, cdict_write. cbn [groups cbook_prepare_new_group].
  rewrite length_app. cbn [length]. rewrite Nat2N.inj_add. cbn [N.of_nat].
  change (N.pos (Pos.of_succ_nat 0)) with 1. rewrite size_pred_succ.
  by destruct (cdict_find k namespace 0).
Qed.

Lemma namespace_id_ne_0 namespace b k :
  sequences_wf b k → namespace_id namespace b k ≠ 0.
Proof.
  intros (Hid & _). unfold namespace_id, cdict_find.
  destruct (k !! (namespace, 0)) as [i|] eqn:Hi; simpl; [by eapply Hid|lia].
Qed.

(** After the store, the namespace has its identifier and the property
    its new group. *)
Lemma resource_store_fetch namespace name v vs b k :
  sequences_wf b k →
  let '(b', k') := resource_store namespace name (v :: vs) b k in
  cdict_find k' namespace 0 = Some (namespace_id namespace b k)
  ∧ ccfg_fetch k' namespace name = Some (cbook_groups_number b)
  ∧ cbook_group b' (cbook_groups_number b) = v :: vs
  ∧ groups b' = groups b ++ [v :: vs].
Proof.
  intros Hwf. rewrite resource_store_cons.
  pose proof (namespace_id_ne_0 namespace b k Hwf) as Hne.
  assert (Hns : cdict_find
    (<[(name, namespace_id namespace b k) := cbook_groups_number b]>
       (match cdict_find k namespace 0 with
        | Some _ => k
        | None => <[(namespace, 0) := cbook_groups_number b + 1]> k
        end)) namespace 0 = Some (namespace_id namespace b k)).
  { unfold cdict_find at 1. rewrite lookup_insert_ne by congruence.
    unfold namespace_id, cdict_find.
    destruct (k !! (namespace, 0)) as [i|] eqn:Hi; simpl; [done|].
    by rewrite lookup_insert_eq. }
  split; [done|]. split; [|split; [|done]].
  - unfold ccfg_fetch. rewrite Hns. cbn [mbind option_bind].
    unfold cdict_find. by rewrite lookup_insert_eq.
  - unfold cbook_group, cbook_groups_number. cbn [groups].
    by rewrite lookupN_snoc.
Qed.

Lemma resource_store_wf namespace name vs b k :
  sequences_wf b k →
  let '(b', k') := resource_store namespace name vs b k in sequences_wf b' k'.
Proof.
  intros Hwf. destruct vs as [|v vs].
  { unfold resource_store. cbn. destruct Hwf as (Hid & Hg & Hinj).
    split; [done|]. split; [|done]. intros p i g Hi Hp. by apply (Hg p i g). }
  rewrite resource_store_cons.
  pose proof (namespace_id_ne_0 namespace b k Hwf) as Hne.
  destruct Hwf as (Hid & Hg & Hinj).
  set (k1 := match cdict_find k namespace 0 with
             | Some _ => k
             | None => <[(namespace, 0) := cbook_groups_number b + 1]> k
             end).
  assert (Hk1 : ∀ p i, i ≠ 0 → k1 !! (p, i) = k !! (p, i)).
  { intros p i Hi. unfold k1. destruct (cdict_find k namespace 0); [done|].
    rewrite lookup_insert_ne; [done|congruence]. }
  assert (Hnew : ∀ p i g, i ≠ 0 →
    <[(name, namespace_id namespace b k) := cbook_groups_number b]> k1 !! (p, i) = Some g →
    ((p, i) = (name, namespace_id namespace b k) ∧ g = cbook_groups_number b)
    ∨ ((p, i) ≠ (name, namespace_id namespace b k) ∧ k !! (p, i) = Some g
       ∧ g < cbook_groups_number b)).
  { intros p i g Hi. rewrite lookup_insert_Some. intros [[<- <-]|[Hk Hp]]; [by left|].
    right. rewrite Hk1 in Hp by done. split; [done|]. split; [done|]. by eapply Hg. }
  split; [|split].
  - intros ns i. rewrite lookup_insert_ne by congruence. unfold k1.
    destruct (cdict_find k namespace 0); [apply Hid|].
    destruct (decide (ns = namespace)) as [->|Hns].
    + rewrite lookup_insert_eq. intros [= <-]. lia.
    + rewrite lookup_insert_ne by congruence. apply Hid.
  - intros p i g Hi Hp. unfold cbook_groups_number. cbn [groups].
    rewrite length_app. cbn [length].
    destruct (Hnew p i g Hi Hp) as [[_ ->]|(_ & _ & Hlt)];
      unfold cbook_groups_number in *; lia.
  - intros p i q j g Hi Hj Hp Hq.
    destruct (Hnew p i g Hi Hp) as [[-> ->]|(Hpne & Hp' & Hlt)];
      destruct (Hnew q j _ Hj Hq) as [[-> Hg']|(Hqne & Hq' & Hlt')];
      try done; try lia. by eapply Hinj.
Qed.

Lemma ccfg_resources_store ctx namespace name v vs c :
  sequences_wf (sequences ctx) (keys_sequences ctx) →
  let s := resource_store namespace name (v :: vs) (sequences ctx) (keys_sequences ctx) in
  ccfg_resources (with_keys_sequences s.2 (with_sequences s.1 c)) namespace name
  = v :: vs.
Proof.
  intros Hwf s. pose proof (resource_store_fetch namespace name v vs _ _ Hwf) as Hf.
  fold s in Hf. destruct s as [b' k']. destruct Hf as (_ & Hfetch & Hgroup & _).
  unfold ccfg_resources. cbn [keys_sequences sequences with_keys_sequences with_sequences fst snd].
  by rewrite Hfetch.
Qed.

(** C1: [declare_resource] reads the property name, then collects the
    substituted tokens [vs] of the rest of the line.  When there is at
    least one, the sequences book gains the one group [vs], and fetching
    (namespace, property) yields exactly [vs]; when there is none, the
    groups of the book and the dictionary are those of before. *)
Theorem declare_resource_round_trip `{Platform} (fuel : nat) (ctx : context)
    (namespace : string) (vs : list string) (c : context) :
  let r := context_get_token ctx uninit_token None in
  sequences_wf (sequences ctx) (keys_sequences ctx) →
  r_type r ≠ TOKEN_INVALID →
  tokens_until_invalid fuel (r_ctx r) uninit_token = Some (vs, c) →
  ∃ ctx',
    declare_resource fuel ctx namespace = Some ctx'
    ∧ (vs = [] →
       groups (sequences ctx') = groups (sequences ctx)
       ∧ keys_sequences ctx' = keys_sequences ctx)
    ∧ (vs ≠ [] →
       groups (sequences ctx') = groups (sequences ctx) ++ [vs]
       ∧ ccfg_fetch (keys_sequences ctx') namespace (r_token r)
         = Some (cbook_groups_number (sequences ctx))
       ∧ ccfg_resources ctx' namespace (r_token r) = vs).
Proof.
  intros r Hwf Hty Htok. eexists. split.
  { by apply declare_resource_store. }
  fold r. split.
  - intros ->. done.
  - intros Hne. destruct vs as [|v vs]; [done|].
    pose proof (resource_store_fetch namespace (r_token r) v vs _ _ Hwf) as Hf.
    split; [|split].
    + cbn [sequences with_keys_sequences with_sequences].
      destruct (resource_store _ _ _ _ _) as [b' k']. by destruct Hf as (_ & _ & _ & ?).
    + cbn [keys_sequences with_keys_sequences].
      destruct (resource_store _ _ _ _ _) as [b' k']. by destruct Hf as (_ & ? & _).
    + by apply ccfg_resources_store.
Qed.

Lemma declare_resource_round_trip_witness :
  ∃ ctx', declare_resource 8 (context_init "prop alpha beta") "myns" = Some ctx'
    ∧ ccfg_resources ctx' "myns" "prop" = ["alpha"; "beta"].
Proof.
  destruct (declare_resource_round_trip 8 (context_init "prop alpha beta") "myns"
              ["alpha"; "beta"]
              (with_depth_peak 1 (with_eof_reached true (with_eol_reached true
                (context_init "")))))
    as (ctx' & Hrun & _ & Hsome).
  - repeat split; intros *; cbn; by rewrite ?lookup_empty.
  - by vm_compute.
  - by vm_compute.
  - exists ctx'. split; [exact Hrun|]. by destruct Hsome as (_ & _ & ?).
Defined.

(** ** Redeclaration *)

Lemma cbook_group_app_l b b' extra g :
  groups b' = groups b ++ extra → g < cbook_groups_number b →
  cbook_group b' g = cbook_group b g.
Proof.
  intros Hg Hlt. unfold cbook_group. rewrite Hg. by rewrite lookupN_app_l.
Qed.

(** A second declaration of (namespace, name) in a well-formed store. *)
Lemma resource_store_last_wins namespace name v vs b k :
  sequences_wf b k →
  let s := resource_store namespace name (v :: vs) b k in
  (∀ g_old, ccfg_fetch k namespace name = Some g_old →
     g_old < cbook_groups_number b
     ∧ ∀ q j, j ≠ 0 → s.2 !! (q, j) ≠ Some g_old)
  ∧ ((match ccfg_fetch k namespace name with
      | Some g => cbook_group b g | None => [] end) = v :: vs →
     ∀ ns' p',
       (match ccfg_fetch s.2 ns' p' with
        | Some g => cbook_group s.1 g | None => [] end)
       = (match ccfg_fetch k ns' p' with
          | Some g => cbook_group b g | None => [] end)).
Proof.
  intros Hwf s. pose proof (resource_store_fetch namespace name v vs b k Hwf) as Hf.
  pose proof (namespace_id_ne_0 namespace b k Hwf) as Hne.
  fold s in Hf. unfold s in *. clear s. rewrite resource_store_cons in *.
  cbn [fst snd] in *. destruct Hf as (_ & _ & Hgroup & _).
  destruct Hwf as (Hid & Hg & Hinj).
  unfold ccfg_fetch, namespace_id in *. unfold cdict_find in *.
  destruct (k !! (namespace, 0)) as [i|] eqn:Hns; cbn [mbind option_bind default] in *.
  2:{ split; [done|]. done. }
  split.
  - intros g_old Hold. split; [by eapply Hg|]. intros q j Hj.
    rewrite lookup_insert_Some. intros [[_ Heq]|[Hk Hq]].
    + specialize (Hg _ _ _ Hne Hold). lia.
    + apply Hk. symmetry. by eapply Hinj.
  - intros Hsame ns' p'. rewrite lookup_insert_ne by congruence.
    destruct (k !! (ns', 0)) as [i'|] eqn:Hns'; cbn [mbind option_bind]; [|done].
    destruct (decide ((name, i) = (p', i'))) as [[= <- <-]|Hk].
    + rewrite lookup_insert_eq. by rewrite Hgroup.
    + rewrite lookup_insert_ne by done.
      destruct (k !! (p', i')) as [g|] eqn:Hp; [|done].
      eapply cbook_group_app_l; [done|]. eapply Hg; [|done]. by eapply Hid.
Qed.

Lemma resource_redeclared `{Platform} fuel ctx namespace v vs c :
  let r := context_get_token ctx uninit_token None in
  sequences_wf (sequences ctx) (keys_sequences ctx) →
  r_type r ≠ TOKEN_INVALID →
  tokens_until_invalid fuel (r_ctx r) uninit_token = Some (v :: vs, c) →
  ∃ ctx',
    declare_resource fuel ctx namespace = Some ctx'
    ∧ sequences_wf (sequences ctx') (keys_sequences ctx')
    ∧ groups (sequences ctx') = groups (sequences ctx) ++ [v :: vs]
    ∧ ccfg_resources ctx' namespace (r_token r) = v :: vs
    ∧ (∀ g_old, ccfg_fetch (keys_sequences ctx) namespace (r_token r) = Some g_old →
         cbook_group (sequences ctx') g_old = cbook_group (sequences ctx) g_old
         ∧ ∀ q j, j ≠ 0 → keys_sequences ctx' !! (q, j) ≠ Some g_old)
    ∧ (ccfg_resources ctx namespace (r_token r) = v :: vs →
       ∀ ns' p', ccfg_resources ctx' ns' p' = ccfg_resources ctx ns' p').
Proof.
  intros r Hwf Hty Htok. eexists. split.
  { by apply declare_resource_store. }
  fold r.
  pose proof (resource_store_wf namespace (r_token r) (v :: vs) _ _ Hwf) as Hwf'.
  pose proof (resource_store_fetch namespace (r_token r) v vs _ _ Hwf) as Hf.
  pose proof (resource_store_last_wins namespace (r_token r) v vs _ _ Hwf) as Hl.
  pose proof (ccfg_resources_store ctx namespace (r_token r) v vs c Hwf) as Hres.
  unfold ccfg_resources in *.
  cbn [sequences keys_sequences with_keys_sequences with_sequences] in *.
  destruct (resource_store _ _ _ _ _) as [b' k']. cbn [fst snd] in *.
  destruct Hf as (_ & _ & _ & Hgroups). destruct Hl as [Hold Hsame].
  split; [done|]. split; [done|]. split; [done|]. split; [|done].
  intros g_old Hfetch. destruct (Hold g_old Hfetch) as [Hlt Hun]. split; [|done].
  by eapply cbook_group_app_l.
Qed.

Lemma while_token_count `{Platform} fuel body ctx tok n :
  while_token fuel body ctx tok n
  = '(vs, c) ← while_token_values fuel body ctx tok;
    Some (n + N.of_nat (length vs), c).
Proof.
  revert ctx tok n. induction fuel as [|fuel IH]; intros ctx tok n; [done|].
  cbn [while_token while_token_values].
  destruct (is_invalid (r_type (context_get_token ctx tok None))).
  { cbn. by rewrite N.add_0_r. }
  rewrite IH. destruct (while_token_values fuel _ _ _) as [[vs c]|]; [|done].
  cbn. do 2 f_equal. rewrite Nat2N.inj_succ. lia.
Qed.

Lemma while_token_values_write_vars `{Platform} fuel ctx tok vs c :
  while_token_values fuel write_vars ctx tok = Some (vs, c) →
  keys_vars c = keys_vars ctx ∧ vars c = fold_left cbook_write vs (vars ctx).
Proof.
  revert ctx tok vs c. induction fuel as [|fuel IH]; intros ctx tok vs c; [done|].
  cbn [while_token_values].
  destruct (frame_fields _ _ (context_get_token_frame ctx tok None))
    as (_ & _ & _ & _ & _ & _ & _ & _ & Hvars & Hkeys & _).
  destruct (is_invalid (r_type (context_get_token ctx tok None))).
  { by intros [= <- <-]. }
  destruct (while_token_values fuel _ _ _) as [[vs' c']|] eqn:Hrec; [|done].
  intros [= <- <-]. destruct (IH _ _ _ _ Hrec) as [Hk Hv].
  split; [by rewrite Hk|]. rewrite Hv. cbn [fold_left vars write_vars with_vars].
  by rewrite Hvars.
Qed.

Lemma variable_redeclared `{Platform} fuel ctx v vs c :
  let r := context_get_token ctx uninit_token None in
  restricted ctx = false →
  vars_wf (vars ctx) (keys_vars ctx) →
  r_type r ≠ TOKEN_INVALID →
  while_token_values fuel write_vars
    (with_vars (cbook_prepare_new_group (vars (r_ctx r))) (r_ctx r)) uninit_token
  = Some (v :: vs, c) →
  ∃ ctx',
    declare_variable fuel ctx = Some ctx'
    ∧ vars_wf (vars ctx') (keys_vars ctx')
    ∧ groups (vars ctx') = groups (vars ctx) ++ [v :: vs]
    ∧ keys_vars ctx'
      = <[(r_token r, CONTEXT_DICT_VARIABLE) := cbook_groups_number (vars ctx)]>
          (keys_vars ctx)
    ∧ variable_values ctx' (r_token r) = Some (v :: vs)
    ∧ (∀ g_old, cdict_find (keys_vars ctx) (r_token r) CONTEXT_DICT_VARIABLE = Some g_old →
         lookupN (groups (vars ctx')) g_old = lookupN (groups (vars ctx)) g_old
         ∧ ∀ q, cdict_find (keys_vars ctx') q CONTEXT_DICT_VARIABLE ≠ Some g_old)
    ∧ (variable_values ctx (r_token r) = Some (v :: vs) →
       ∀ q, variable_values ctx' q = variable_values ctx q).
Proof.
  intros r Hres (Hlt & Hinj) Hty Hvals. unfold declare_variable. rewrite Hres. fold r.
  apply is_invalid_false in Hty. rewrite Hty.
  rewrite while_token_count, Hvals. cbn [mbind option_bind].
  replace (0 + N.of_nat (length (v :: vs)) =? 0) with false
    by (symmetry; apply N.eqb_neq; cbn [length]; lia).
  destruct (frame_fields _ _ (context_get_token_frame ctx uninit_token None))
    as (_ & _ & _ & _ & _ & _ & _ & _ & Hvars & Hkeys & _). fold r in Hvars, Hkeys.
  destruct (while_token_values_write_vars _ _ _ _ _ Hvals) as [Hk Hv].
  cbn [vars keys_vars with_vars] in Hk, Hv.
  rewrite cbook_write_group in Hv by done. cbn [groups cbook_prepare_new_group] in Hv.
  rewrite Hvars in Hv. rewrite Hkeys in Hk.
  eexists. split; [done|].
  cbn [vars keys_vars with_keys_vars]. rewrite Hv, Hk. unfold cbook_groups_number.
  cbn [groups]. rewrite length_app. cbn [length]. rewrite Nat2N.inj_add.
  change (N.of_nat 1) with 1. rewrite size_pred_succ. unfold cdict_write, cdict_find.
  set (G := N.of_nat (length (groups (vars ctx)))).
  assert (Hnew : variable_values
    (with_keys_vars (<[(r_token r, CONTEXT_DICT_VARIABLE) := G]> (keys_vars ctx)) c)
    (r_token r) = Some (v :: vs)).
  { unfold variable_values, cdict_find. cbn [vars keys_vars with_keys_vars].
    rewrite lookup_insert_eq, Hv. cbn [mbind option_bind groups]. apply lookupN_snoc. }
  split; [|split; [done|split; [done|split; [exact Hnew|split]]]].
  - split.
    + intros p g. unfold cbook_groups_number. cbn [groups].
      rewrite length_app. cbn [length]. rewrite lookup_insert_Some.
      intros [[_ <-]|[_ Hp]]; [lia|].
      specialize (Hlt _ _ Hp). unfold cbook_groups_number in Hlt. lia.
    + intros p q g. rewrite !lookup_insert_Some.
      intros [[[= <-] <-]|[Hpk Hp]] [[[= <-] Hg]|[Hqk Hq]]; try done.
      * specialize (Hlt _ _ Hq). unfold cbook_groups_number in Hlt. lia.
      * specialize (Hlt _ _ Hp). unfold cbook_groups_number in Hlt. lia.
      * by eapply Hinj.
  - intros g_old Hold. pose proof (Hlt _ _ Hold) as Hlt'. split.
    + by apply lookupN_app_l.
    + intros q. rewrite lookup_insert_Some. intros [[_ Heq]|[Hqk Hq]].
      * unfold cbook_groups_number in Hlt'. lia.
      * apply Hqk. f_equal. by eapply Hinj.
  - intros Hsame q. destruct (decide (q = r_token r)) as [->|Hq]; [by rewrite Hnew|].
    unfold variable_values, cdict_find. cbn [vars keys_vars with_keys_vars].
    rewrite lookup_insert_ne by congruence.
    destruct (keys_vars ctx !! (q, CONTEXT_DICT_VARIABLE)) as [g|] eqn:Hg; [|done].
    cbn [mbind option_bind]. rewrite Hv. cbn [groups]. apply lookupN_app_l.
    by eapply Hlt.
Qed.

(** Redeclaration in a well-formed store.  The dictionaries are maps, so
    a key has at most one group.  A declaration of the resource
    (namespace, name), or of the variable name, that produces the values
    [v :: vs] adds them as a new group and maps the key to it, whatever
    the key was mapped to: the group of an earlier declaration keeps its
    place and its words in the book, and no property key (no VARIABLE
    key) leads to it any more.  When the key already had the values
    [v :: vs], every fetch gives after the redeclaration what it gave
    before. *)
Theorem redeclaration_in_well_formed_store `{Platform} (fuel : nat) (ctx : context)
    (namespace : string) (v : string) (vs : list string) (c : context) :
  let r := context_get_token ctx uninit_token None in
  r_type r ≠ TOKEN_INVALID →
  (sequences_wf (sequences ctx) (keys_sequences ctx) →
   tokens_until_invalid fuel (r_ctx r) uninit_token = Some (v :: vs, c) →
   ∃ ctx',
     declare_resource fuel ctx namespace = Some ctx'
     ∧ sequences_wf (sequences ctx') (keys_sequences ctx')
     ∧ groups (sequences ctx') = groups (sequences ctx) ++ [v :: vs]
     ∧ ccfg_resources ctx' namespace (r_token r) = v :: vs
     ∧ (∀ g_old, ccfg_fetch (keys_sequences ctx) namespace (r_token r) = Some g_old →
          cbook_group (sequences ctx') g_old = cbook_group (sequences ctx) g_old
          ∧ ∀ q j, j ≠ 0 → keys_sequences ctx' !! (q, j) ≠ Some g_old)
     ∧ (ccfg_resources ctx namespace (r_token r) = v :: vs →
        ∀ ns' p', ccfg_resources ctx' ns' p' = ccfg_resources ctx ns' p'))
  ∧ (restricted ctx = false →
     vars_wf (vars ctx) (keys_vars ctx) →
     while_token_values fuel write_vars
       (with_vars (cbook_prepare_new_group (vars (r_ctx r))) (r_ctx r)) uninit_token
     = Some (v :: vs, c) →
     ∃ ctx',
       declare_variable fuel ctx = Some ctx'
       ∧ vars_wf (vars ctx') (keys_vars ctx')
       ∧ groups (vars ctx') = groups (vars ctx) ++ [v :: vs]
       ∧ keys_vars ctx'
         = <[(r_token r, CONTEXT_DICT_VARIABLE) := cbook_groups_number (vars ctx)]>
             (keys_vars ctx)
       ∧ variable_values ctx' (r_token r) = Some (v :: vs)
       ∧ (∀ g_old,
            cdict_find (keys_vars ctx) (r_token r) CONTEXT_DICT_VARIABLE = Some g_old →
            lookupN (groups (vars ctx')) g_old = lookupN (groups (vars ctx)) g_old
            ∧ ∀ q, cdict_find (keys_vars ctx') q CONTEXT_DICT_VARIABLE ≠ Some g_old)
       ∧ (variable_values ctx (r_token r) = Some (v :: vs) →
          ∀ q, variable_values ctx' q = variable_values ctx q)).
Proof.
  intros r Hty. split.
  - intros Hwf Htok. by apply (resource_redeclared fuel ctx namespace v vs c).
  - intros Hres Hwf Hvals. by apply (variable_redeclared fuel ctx v vs c).
Qed.

Lemma redeclaration_context_wf :
  sequences_wf (sequences redeclaration_context) (keys_sequences redeclaration_context)
  ∧ vars_wf (vars redeclaration_context) (keys_vars redeclaration_context).
Proof.
  split; [split; [|split]|split]; cbn.
  - intros ns i. rewrite lookup_insert_Some, lookup_singleton_Some.
    intros [[[= _ ?] _]|[_ [_ <-]]]; done.
  - intros p i g Hi. rewrite lookup_insert_Some, lookup_singleton_Some.
    unfold cbook_groups_number. cbn. intros [[_ <-]|[_ [[= _ <-] _]]]; done.
  - intros p i q j g Hi Hj. rewrite !lookup_insert_Some, !lookup_singleton_Some.
    intros [[[= <- <-] <-]|[_ [[= <- <-] <-]]] [[[= <- <-] Hg]|[_ [[= <- <-] Hg]]]; done.
  - intros p g. rewrite lookup_singleton_Some. unfold cbook_groups_number. cbn.
    intros [_ <-]. done.
  - intros p q g. rewrite !lookup_singleton_Some. intros [[= <-] _] [[= <-] _]. done.
Qed.

Lemma redeclaration_in_well_formed_store_witness :
  (∃ ctx', declare_resource 8 redeclaration_context "ns" = Some ctx'
     ∧ ccfg_resources ctx' "ns" "p" = ["c"; "d"]
     ∧ cbook_group (sequences ctx') 0 = ["a"])
  ∧ (∃ ctx', declare_variable 8 redeclaration_context = Some ctx'
     ∧ variable_values ctx' "p" = Some ["c"; "d"]).
Proof.
  assert (Hname : r_token (context_get_token redeclaration_context uninit_token None)
                  = "p") by (by vm_compute).
  destruct (redeclaration_in_well_formed_store 8 redeclaration_context "ns" "c" ["d"]
    (with_depth_peak 1 (with_eof_reached true (with_eol_reached true
       (with_buffer "" redeclaration_context))))) as [Hr _]; [by vm_compute|].
  destruct (redeclaration_in_well_formed_store 8 redeclaration_context "ns" "c" ["d"]
    (with_vars (Cbook [["a"]; ["c"; "d"]] false)
       (with_depth_peak 1 (with_eof_reached true (with_eol_reached true
          (with_buffer "" redeclaration_context)))))) as [_ Hv]; [by vm_compute|].
  destruct redeclaration_context_wf as [Hwf1 Hwf2].
  destruct (Hr Hwf1) as (c1 & Hrun1 & _ & _ & Hget & Hold & _); [by vm_compute|].
  destruct Hv as (c2 & Hrun2 & _ & _ & _ & Hval & _); [by vm_compute|exact Hwf2|by vm_compute|].
  rewrite Hname in *. split.
  - exists c1. split; [exact Hrun1|]. split; [exact Hget|].
    destruct (Hold 0) as [-> _]; by vm_compute.
  - exists c2. split; [exact Hrun2|exact Hval].
Defined.

(** ** The depth and the groups of the variable book, call by call *)

Global Instance steady_preorder : PreOrder steady.
Proof.
  split.
  - intros c. by repeat split.
  - intros a b c (Hd & Hc & Hp) (Hd' & Hc' & Hp'). split; [congruence|].
    split; [congruence|]. by etrans.
Qed.

Lemma frame_steady c c' : frame c' = frame c → steady c c'.
Proof.
  unfold frame, steady, cap. intros Heq. simplify_eq. repeat split; try done.
  by match goal with H : vars _ = vars _ |- _ => rewrite H end.
Qed.

Lemma steady_same c c' :
  depth c' = depth c → depth_peak c' = depth_peak c → vars c' = vars c → steady c c'.
Proof. unfold steady, cap. by intros -> -> ->. Qed.

Lemma append_to_last_app gs rest w :
  rest ≠ [] → append_to_last (gs ++ rest) w = gs ++ append_to_last rest w.
Proof.
  intros Hne. induction gs as [|g gs IH]; [done|]. cbn. rewrite IH.
  destruct (gs ++ rest) eqn:Heq; [|done].
  apply app_eq_nil in Heq as [_ ?]. done.
Qed.

Lemma cbook_write_grown old b w : grown old b → grown old (cbook_write b w).
Proof.
  intros [[rest Hp] Hflag]. unfold grown, cbook_write.
  destruct (new_group b) eqn:Hnew; cbn [groups new_group].
  - split; [|right].
    + rewrite Hp, <-app_assoc. by eexists.
    + rewrite Hp, !length_app. cbn. lia.
  - destruct Hflag as [?|Hlen]; [done|].
    assert (rest ≠ []) as Hne.
    { intros ->. rewrite Hp, app_nil_r in Hlen. lia. }
    rewrite Hp, append_to_last_app by done. split; [by eexists|]. right.
    rewrite !length_app. destruct rest as [|g rest]; [done|].
    cbn. destruct rest; cbn; lia.
Qed.

Lemma cbook_prepare_grown old b :
  old `prefix_of` groups b → grown old (cbook_prepare_new_group b).
Proof. intros Hp. split; [done|by left]. Qed.

Lemma grown_prefix old b : grown old b → old `prefix_of` groups b.
Proof. by intros [? _]. Qed.

Lemma writing_steady c0 c : writing c0 c → steady c0 c.
Proof. intros (? & ? & ?%grown_prefix). by split. Qed.

Lemma writing_frame c0 c c' : frame c' = frame c → writing c0 c → writing c0 c'.
Proof.
  intros Hf (Hd & Hc & Hg). destruct (frame_steady _ _ Hf) as (Hd' & Hc' & _).
  destruct (frame_fields _ _ Hf) as (_ & _ & _ & _ & _ & _ & _ & _ & Hv & _).
  split; [congruence|]. split; [congruence|]. by rewrite Hv.
Qed.

Lemma writing_write c0 c w : writing c0 c → writing c0 (write_vars w c).
Proof.
  intros (Hd & Hc & Hg). split; [done|]. split; [done|].
  by apply cbook_write_grown.
Qed.

Lemma writing_start c0 c : steady c0 c → writing c0 (with_vars (cbook_prepare_new_group (vars c)) c).
Proof.
  intros (Hd & Hc & Hp). split; [done|]. split; [done|]. by apply cbook_prepare_grown.
Qed.

Section Steady.
Context `{Platform}.

Lemma context_get_token_steady c t m : steady c (r_ctx (context_get_token c t m)).
Proof. apply frame_steady, context_get_token_frame. Qed.

Lemma context_get_token_numeral_steady c t d :
  steady c (r_ctx (context_get_token_numeral c t d)).
Proof.
  apply frame_steady, get_token_numeral_frame. intros. apply context_get_token_frame.
Qed.

Lemma context_get_token_raw_steady c t : steady c (context_get_token_raw c t).2.
Proof. apply frame_steady, context_get_token_raw_frame. Qed.

Lemma context_goto_eol_steady c : steady c (context_goto_eol c).
Proof. apply frame_steady, context_goto_eol_frame. Qed.

(** An invariant of the body that the reader keeps is an invariant of
    the loop. *)
Lemma while_token_invariant (J : context → Prop) fuel body ctx tok n m c' :
  (∀ c t mr, J c → J (r_ctx (context_get_token c t mr))) →
  (∀ v c, J c → J (body v c)) →
  J ctx → while_token fuel body ctx tok n = Some (m, c') → J c'.
Proof.
  intros Hget Hbody. revert ctx tok n.
  induction fuel as [|fuel IH]; intros ctx tok n HJ; [done|].
  cbn [while_token]. destruct (is_invalid _).
  - intros [= <- <-]. by apply Hget.
  - apply IH. by apply Hbody, Hget.
Qed.

Lemma while_token_steady fuel body ctx tok n m c' :
  (∀ v c, steady c (body v c)) →
  while_token fuel body ctx tok n = Some (m, c') → steady ctx c'.
Proof.
  intros Hbody. apply (while_token_invariant (steady ctx)); [| |done].
  - intros c t mr Hc. etrans; [done|]. apply context_get_token_steady.
  - intros v c Hc. by etrans.
Qed.

Lemma while_token_writing fuel c0 ctx tok n m c' :
  writing c0 ctx →
  while_token fuel write_vars ctx tok n = Some (m, c') → writing c0 c'.
Proof.
  apply (while_token_invariant (writing c0)).
  - intros c t mr. apply writing_frame, context_get_token_frame.
  - intros v c. apply writing_write.
Qed.

Lemma combine_var_loop_writing fuel c0 ctx type token_2 i j k c' :
  writing c0 ctx →
  combine_var_loop fuel ctx type token_2 i j k = Some c' → writing c0 c'.
Proof.
  revert ctx k. induction fuel as [|fuel IH]; intros ctx k Hw; [done|].
  cbn [combine_var_loop]. destruct (k <? _); [|by intros [= <-]].
  apply IH. by apply writing_write.
Qed.

Lemma declare_enum_loop_writing fuel c0 ctx min max steps precision i c' :
  writing c0 ctx →
  declare_enum_loop fuel ctx min max steps precision i = Some c' → writing c0 c'.
Proof.
  revert ctx i. induction fuel as [|fuel IH]; intros ctx i Hw; [done|].
  cbn [declare_enum_loop]. destruct (_ <=? _)%float; [|by intros [= <-]].
  apply IH. by apply writing_write.
Qed.

Lemma with_keys_vars_steady k c : steady c (with_keys_vars k c).
Proof. by apply steady_same. Qed.

Lemma combine_var_steady fuel ctx type c' :
  combine_var fuel ctx type = Some c' → steady ctx c'.
Proof.
  unfold combine_var. destruct (restricted ctx); [by intros [= <-]|].
  pose proof (context_get_token_steady ctx uninit_token None) as H0.
  set (r0 := context_get_token ctx uninit_token None) in *.
  pose proof (context_get_token_steady (r_ctx r0) uninit_token None) as H1.
  set (r1 := context_get_token (r_ctx r0) uninit_token None) in *.
  pose proof (context_get_token_steady (r_ctx r1) uninit_token None) as H2.
  set (r2 := context_get_token (r_ctx r1) uninit_token None) in *.
  assert (H01 : steady ctx (r_ctx r1)) by (by transitivity (r_ctx r0)).
  assert (H02 : steady ctx (r_ctx r2)) by (by transitivity (r_ctx r1)).
  destruct (is_invalid (r_type r0)); [by intros [= <-]|].
  destruct (is_invalid (r_type r1)); [by intros [= <-]|].
  destruct (is_invalid (r_type r2)); [by intros [= <-]|].
  cbv zeta. destruct (cdict_find _ _ _) as [i|]; [|by intros [= <-]].
  destruct (if token_eqb type TOKEN_VAR_MERGE then _ else _) as [j|];
    [|by intros [= <-]].
  destruct (combine_var_loop _ _ _ _ _ _ _) as [c1|] eqn:Hloop; [|done].
  cbn [mbind option_bind]. intros [= <-].
  apply combine_var_loop_writing with (c0 := ctx) in Hloop.
  - etrans; [by apply writing_steady|]. apply with_keys_vars_steady.
  - by apply writing_start.
Qed.

Lemma declare_variable_steady fuel ctx c' :
  declare_variable fuel ctx = Some c' → steady ctx c'.
Proof.
  unfold declare_variable. destruct (restricted ctx); [by intros [= <-]|].
  pose proof (context_get_token_steady ctx uninit_token None) as H0.
  set (r := context_get_token ctx uninit_token None) in *.
  destruct (is_invalid (r_type r)); [by intros [= <-]|]. cbv zeta.
  destruct (while_token _ _ _ _ _) as [[n c1]|] eqn:Hloop; [|done].
  cbn [mbind option_bind].
  apply while_token_writing with (c0 := ctx) in Hloop; [|by apply writing_start].
  apply writing_steady in Hloop.
  destruct (n =? 0); intros [= <-].
  - etrans; [done|]. by repeat split.
  - etrans; [done|]. apply with_keys_vars_steady.
Qed.

Lemma declare_resource_steady fuel ctx namespace c' :
  declare_resource fuel ctx namespace = Some c' → steady ctx c'.
Proof.
  unfold declare_resource.
  pose proof (context_get_token_steady ctx uninit_token None) as H0.
  set (r := context_get_token ctx uninit_token None) in *.
  destruct (is_invalid (r_type r)); [by intros [= <-]|]. cbv zeta.
  destruct (while_token _ _ _ _ _) as [[n c1]|] eqn:Hloop; [|done].
  cbn [mbind option_bind].
  apply while_token_steady in Hloop; [|intros; by apply steady_same].
  assert (H1 : steady ctx c1).
  { etrans; [done|]. etrans; [|done]. by apply steady_same. }
  destruct (n =? 0); [intros [= <-]; etrans; [done|]; by apply steady_same|].
  destruct (cdict_find _ _ _); intros [= <-]; (etrans; [done|]); by apply steady_same.
Qed.

Lemma declare_enum_steady fuel ctx c' :
  declare_enum fuel ctx = Some c' → steady ctx c'.
Proof.
  unfold declare_enum. destruct (restricted ctx); [by intros [= <-]|]. cbv zeta.
  pose proof (context_get_token_steady ctx uninit_token None) as H0.
  set (r0 := context_get_token ctx uninit_token None) in *.
  pose proof (context_get_token_numeral_steady (r_ctx r0) uninit_token (stack_double ctx 0%nat)) as H1.
  set (r1 := context_get_token_numeral (r_ctx r0) uninit_token (stack_double ctx 0%nat)) in *.
  pose proof (context_get_token_numeral_steady (r_ctx r1) (r_token r1) (stack_double ctx 1%nat)) as H2.
  set (r2 := context_get_token_numeral (r_ctx r1) (r_token r1) (stack_double ctx 1%nat)) in *.
  pose proof (context_get_token_numeral_steady (r_ctx r2) (r_token r2) (stack_double ctx 2%nat)) as H3.
  set (r3 := context_get_token_numeral (r_ctx r2) (r_token r2) (stack_double ctx 2%nat)) in *.
  pose proof (context_get_token_numeral_steady (r_ctx r3) (r_token r3) (stack_double ctx 3%nat)) as H4.
  set (r4 := context_get_token_numeral (r_ctx r3) (r_token r3) (stack_double ctx 3%nat)) in *.
  assert (H04 : steady ctx (r_ctx r4)).
  { transitivity (r_ctx r3); [|done]. transitivity (r_ctx r2); [|done].
    transitivity (r_ctx r1); [|done]. by transitivity (r_ctx r0). }
  clearbody r0 r1 r2 r3 r4. cbv zeta.
  assert (Hrun : ∀ min max steps precision,
    (if (steps <? 1)%float || (double_of_uint SIZE_MAX <=? steps)%float
        || (precision <? 0)%float
     then Some (r_ctx r4)
     else
       ctx1 ← declare_enum_loop fuel
         (with_vars (cbook_prepare_new_group (vars (r_ctx r4))) (r_ctx r4))
         min max steps (if (16 <? precision)%float then 16%float else precision) 0;
       Some (with_keys_vars
         (cdict_write (keys_vars ctx1) (r_token r0) CONTEXT_DICT_VARIABLE
            (size_pred (cbook_groups_number (vars ctx1)))) ctx1)) = Some c' →
    steady ctx c').
  { intros min max steps precision. destruct (_ || _); [by intros [= <-]|].
    destruct (declare_enum_loop _ _ _ _ _ _ _) as [c1|] eqn:Hloop; [|done].
    cbn [mbind option_bind]. intros [= <-].
    apply declare_enum_loop_writing with (c0 := ctx) in Hloop.
    - etrans; [by apply writing_steady|]. apply with_keys_vars_steady.
    - by apply writing_start. }
  destruct (_ + _)%nat as [|[|[|[|[|n]]]]]; try (by intros [= <-]); apply Hrun.
Qed.

Lemma print_steady fuel ctx c' : print fuel ctx = Some c' → steady ctx c'.
Proof.
  unfold print. destruct (restricted ctx); [by intros [= <-]|].
  destruct (while_token _ _ _ _ _) as [[n c1]|] eqn:Hloop; [|done].
  cbn [mbind option_bind]. intros [= <-].
  apply while_token_steady in Hloop; [|intros; by apply steady_same].
  etrans; [done|]. by apply steady_same.
Qed.

Lemma section_add_steady fuel ctx c' : section_add fuel ctx = Some c' → steady ctx c'.
Proof.
  unfold section_add. destruct (restricted ctx); [by intros [= <-]|].
  destruct (while_token _ _ _ _ _) as [[n c1]|] eqn:Hloop; [|done].
  cbn. intros [= <-]. apply while_token_steady in Hloop; [done|].
  intros. by apply steady_same.
Qed.

Lemma section_del_steady fuel ctx c' : section_del fuel ctx = Some c' → steady ctx c'.
Proof.
  unfold section_del. destruct (restricted ctx); [by intros [= <-]|].
  destruct (while_token _ _ _ _ _) as [[n c1]|] eqn:Hloop; [|done].
  cbn. intros [= <-]. apply while_token_steady in Hloop; [done|].
  intros. by apply steady_same.
Qed.

Lemma section_begin_loop_steady fuel ctx tok c' :
  section_begin_loop fuel ctx tok = Some c' → steady ctx c'.
Proof.
  revert ctx tok. induction fuel as [|fuel IH]; intros ctx tok; [done|].
  cbn [section_begin_loop].
  pose proof (context_get_token_steady ctx tok None) as H0.
  destruct (is_invalid _).
  { intros [= <-]. etrans; [done|]. by apply steady_same. }
  destruct (cdict_find _ _ _).
  - intros Hrec. etrans; [done|]. by eapply IH.
  - intros [= <-]. etrans; [done|]. by apply steady_same.
Qed.

Lemma section_begin_steady fuel ctx c' :
  section_begin fuel ctx = Some c' → steady ctx c'.
Proof.
  unfold section_begin. destruct (restricted ctx); [by intros [= <-]|].
  apply section_begin_loop_steady.
Qed.

Lemma seed_steady ctx : steady ctx (seed ctx).
Proof.
  unfold seed. destruct (restricted ctx); [done|].
  pose proof (context_get_token_numeral_steady ctx uninit_token uninit_double) as H0.
  destruct (is_invalid _); [done|]. etrans; [done|]. by apply steady_same.
Qed.

Lemma preproc_iter_nest_loop_steady count ctx tok i n :
  steady ctx (preproc_iter_nest_loop count ctx tok i n).2.
Proof.
  revert ctx tok i n. induction count as [|count IH]; intros ctx tok i n; [done|].
  cbn [preproc_iter_nest_loop]. destruct (i <? _); [|done].
  pose proof (context_get_token_raw_steady (with_it_i 0 (with_it_group i ctx)) tok) as H0.
  destruct (context_get_token_raw _ _) as [[ty t] c1]. cbn [snd] in H0.
  assert (H1 : steady ctx c1) by (etrans; [|done]; by apply steady_same).
  destruct (token_match t); try (etrans; [exact H1|apply IH]).
  destruct (n =? 0); [done|]. etrans; [exact H1|apply IH].
Qed.

Lemma preproc_iter_line_steady fuel ctx tok t c' :
  preproc_iter_line fuel ctx tok = Some (t, c') → steady ctx c'.
Proof.
  revert ctx tok. induction fuel as [|fuel IH]; intros ctx tok; [done|].
  cbn [preproc_iter_line].
  pose proof (context_get_token_raw_steady ctx tok) as H0.
  destruct (context_get_token_raw _ _) as [[ty t1] c1]. cbn [snd] in H0.
  destruct (is_invalid ty); [by intros [= <- <-]|].
  intros Hrec%IH. etrans; [done|]. etrans; [|done]. by apply steady_same.
Qed.

Lemma preproc_iter_new_loop_steady fuel ctx tok n fail c' :
  preproc_iter_new_loop fuel ctx tok n = Some (fail, c') → steady ctx c'.
Proof.
  revert ctx tok n. induction fuel as [|fuel IH]; intros ctx tok n; [done|].
  cbn [preproc_iter_new_loop]. destruct (eof_reached ctx); [by intros [= <- <-]|].
  pose proof (context_get_token_raw_steady (with_eol_reached false ctx) tok) as H0.
  destruct (context_get_token_raw _ _) as [[ty t] c1]. cbn [snd] in H0.
  assert (H1 : steady ctx c1) by (etrans; [|done]; by apply steady_same).
  assert (Hsave : ∀ n,
    ('(tok, ctx) ← preproc_iter_line (S fuel)
        (write_iteration t
           (with_iteration (cbook_prepare_new_group (iteration c1)) c1)) t;
      preproc_iter_new_loop fuel ctx tok n) = Some (fail, c') → steady ctx c').
  { intros n'. destruct (preproc_iter_line _ _ _) as [[t2 c2]|] eqn:Hline; [|done].
    cbn [mbind option_bind]. intros Hrec%IH.
    apply preproc_iter_line_steady in Hline.
    etrans; [exact H1|]. etrans; [|done]. etrans; [|done]. by apply steady_same. }
  destruct (token_match t); try apply Hsave.
  - intros Hrec%IH. etrans; [exact H1|]. etrans; [|done]. apply context_goto_eol_steady.
  - destruct (n =? 0); [|apply Hsave]. intros [= <- <-].
    etrans; [exact H1|]. apply context_goto_eol_steady.
Qed.

Lemma iterate_preproc_steady fuel ctx gs ge fail c' :
  iterate_preproc fuel ctx = Some (gs, ge, fail, c') → steady ctx c'.
Proof.
  unfold iterate_preproc. destruct (negb _).
  - pose proof (preproc_iter_nest_loop_steady (S (length (groups (iteration ctx))))
      ctx uninit_token (size_succ (it_group ctx)) 0) as H0.
    unfold preproc_iter_nest.
    destruct (preproc_iter_nest_loop _ _ _ _ _) as [[e f] c1]. by intros [= <- <- <- <-].
  - unfold preproc_iter_new.
    destruct (preproc_iter_new_loop _ _ _ _) as [[f c1]|] eqn:Hloop; [|done].
    cbn [mbind option_bind]. intros [= <- <- <- <-].
    apply preproc_iter_new_loop_steady in Hloop. etrans; [|done].
    apply context_goto_eol_steady.
Qed.

Section SteadyIterate.
Variable parse : context → option context.
Hypothesis parse_steady : ∀ c c', parse c = Some c' → steady c c'.

Lemma iterate_groups_steady fuel ctx group_end c' :
  iterate_groups parse fuel ctx group_end = Some c' → steady ctx c'.
Proof.
  revert ctx. induction fuel as [|fuel IH]; intros ctx; [done|].
  cbn [iterate_groups]. destruct (_ <? _); [|by intros [= <-]].
  destruct (parse _) as [c1|] eqn:Hp; [|done]. cbn [mbind option_bind].
  intros Hrec%IH. apply parse_steady in Hp.
  etrans; [|done]. etrans; [|by apply steady_same]. etrans; [|done].
  by apply steady_same.
Qed.

Lemma iterate_values_steady fuel count ctx name i gs ge k c' :
  iterate_values parse fuel count ctx name i gs ge k = Some c' → steady ctx c'.
Proof.
  revert ctx k. induction count as [|count IH]; intros ctx k; [done|].
  cbn [iterate_values]. destruct (_ <? _); [|by intros [= <-]].
  destruct (iterate_groups _ _ _ _) as [c1|] eqn:Hg; [|done].
  cbn [mbind option_bind]. intros Hrec%IH. apply iterate_groups_steady in Hg.
  etrans; [|done]. etrans; [|done]. by apply steady_same.
Qed.

Lemma iterate_steady fuel ctx c' :
  iterate parse fuel ctx = Some c' → steady ctx c'.
Proof.
  unfold iterate. destruct (restricted ctx); [by intros [= <-]|].
  pose proof (context_get_token_steady ctx uninit_token None) as H1.
  set (r1 := context_get_token ctx uninit_token None) in *.
  pose proof (context_get_token_steady (r_ctx r1) uninit_token None) as H2.
  set (r2 := context_get_token (r_ctx r1) uninit_token None) in *.
  assert (H12 : steady ctx (r_ctx r2)) by (by transitivity (r_ctx r1)).
  clearbody r1 r2.
  destruct (is_invalid (r_type r1)); [by intros [= <-]|].
  destruct (cdict_find _ _ _) as [i|]; [|by intros [= <-]].
  cbv zeta. destruct (cdict_find _ _ _); [by intros [= <-]|].
  destruct (iterate_preproc _ _) as [[[[gs ge] fail] c1]|] eqn:Hpre; [|done].
  cbn [mbind option_bind]. apply iterate_preproc_steady in Hpre.
  assert (H3 : steady ctx c1) by (by transitivity (r_ctx r2)).
  destruct fail.
  - cbn [mbind option_bind]. intros [= <-].
    destruct (negb _); [done|]. etrans; [done|]. by apply steady_same.
  - destruct (iterate_values _ _ _ _ _ _ _ _ _) as [c2|] eqn:Hval; [|done].
    cbn [mbind option_bind]. intros [= <-]. apply iterate_values_steady in Hval.
    assert (H4 : steady ctx (with_keys_vars
      (cdict_erase (keys_vars c2) (if is_invalid (r_type r2)
         then snprintf_s (r_token r1) else r_token r2) CONTEXT_DICT_ITERATION) c2)).
    { etrans; [exact H3|]. etrans; [done|]. by apply steady_same. }
    destruct (negb _); [done|]. etrans; [done|]. by apply steady_same.
Qed.

End SteadyIterate.

(** The child parse of source.c, which is not part of the sources, is
    taken to leave the depth and the groups of the variable book as the
    other calls do. *)
Hypothesis source_parse_child_steady : ∀ c f, steady c (source_parse_child c f).

Lemma include_steady fuel ctx c' : include fuel ctx = Some c' → steady ctx c'.
Proof.
  unfold include. destruct (_ || _); [by intros [= <-]|].
  destruct (while_token _ _ _ _ _) as [[n c1]|] eqn:Hloop; [|done].
  cbn. intros [= <-]. apply while_token_steady in Hloop; [done|].
  intros v c. unfold include_file. destruct (negb _); apply source_parse_child_steady.
Qed.

Lemma depth_enter_cap c :
  (depth c < CONTEXT_MAX_DEPTH)%nat →
  depth (depth_enter c) = S (depth c) ∧ cap (depth_enter c) = cap c
  ∧ vars (depth_enter c) = vars c.
Proof.
  intros Hlt. unfold depth_enter, cap.
  cbn [depth depth_peak vars with_depth with_depth_peak].
  split; [done|]. split; [lia|done].
Qed.

Lemma sequence_parse_unfold fuel ctx :
  sequence_parse (S fuel) ctx =
    if (CONTEXT_MAX_DEPTH <=? depth ctx)%nat then Some ctx
    else
      let r := context_get_token (depth_enter ctx) uninit_token None in
      let ctx := r_ctx r in
      let type :=
        if negb (token_eqb (r_type r) TOKEN_SECTION_BEGIN) && skip_sequences ctx
        then TOKEN_INVALID else r_type r in
      ctx ←
        match type with
        | TOKEN_VAR_APPEND | TOKEN_VAR_PREPEND | TOKEN_VAR_MERGE =>
            combine_var fuel ctx type
        | TOKEN_VAR_DECLARATION => declare_variable fuel ctx
        | TOKEN_ENUM_DECLARATION => declare_enum fuel ctx
        | TOKEN_SECTION_BEGIN => section_begin fuel ctx
        | TOKEN_SECTION_ADD => section_add fuel ctx
        | TOKEN_SECTION_DEL => section_del fuel ctx
        | TOKEN_INCLUDE => include fuel ctx
        | TOKEN_FOR_BEGIN => iterate (sequence_parse fuel) fuel ctx
        | TOKEN_SEED => Some (seed ctx)
        | TOKEN_PRINT => print fuel ctx
        | TOKEN_RESTRICT => Some (restrict_mode ctx)
        | TOKEN_INVALID => Some ctx
        | _ => declare_resource fuel ctx (r_token r)
        end;
      Some (depth_leave (context_goto_eol ctx)).
Proof. done. Qed.

Lemma sequence_parse_steady fuel ctx c' :
  sequence_parse fuel ctx = Some c' → steady ctx c'.
Proof.
  revert ctx c'. induction fuel as [|fuel IH]; intros ctx c'; [done|].
  rewrite sequence_parse_unfold.
  destruct (Nat.leb_spec CONTEXT_MAX_DEPTH (depth ctx)) as [?|Hlt]; [by intros [= <-]|].
  destruct (depth_enter_cap ctx Hlt) as (Hd & Hc & Hv).
  pose proof (context_get_token_steady (depth_enter ctx) uninit_token None) as H0.
  set (r := context_get_token (depth_enter ctx) uninit_token None) in *.
  clearbody r. cbv zeta.
  set (type := if _ && _ then TOKEN_INVALID else r_type r). clearbody type.
  assert (Hh : ∀ c1, steady (r_ctx r) c1 →
    steady ctx (depth_leave (context_goto_eol c1))).
  { intros c1 H1. pose proof (context_goto_eol_steady c1) as H2.
    assert (H3 : steady (depth_enter ctx) (context_goto_eol c1)).
    { transitivity c1; [|done]. by transitivity (r_ctx r). }
    destruct H3 as (Hd3 & Hc3 & Hp3). split; [|split].
    - unfold depth_leave. cbn [depth with_depth]. by rewrite Hd3, Hd.
    - change (cap (depth_leave (context_goto_eol c1))) with (cap (context_goto_eol c1)).
      by rewrite Hc3.
    - change (vars (depth_leave (context_goto_eol c1))) with (vars (context_goto_eol c1)).
      by rewrite <-Hv. }
  destruct type;
    match goal with
    | |- (?h ≫= _) = _ → _ => destruct h as [c1|] eqn:Hrun; [|done]
    end; cbn [mbind option_bind]; intros [= <-]; apply Hh;
    first
      [ by eapply declare_resource_steady
      | by eapply combine_var_steady
      | by eapply declare_variable_steady
      | by eapply declare_enum_steady
      | by eapply section_begin_steady
      | by eapply section_add_steady
      | by eapply section_del_steady
      | by eapply include_steady
      | by eapply print_steady
      | by eapply (iterate_steady (sequence_parse fuel) IH)
      | injection Hrun as <-; first [done | apply seed_steady | by apply steady_same] ].
Qed.


End Steady.

(** ** The depth limit *)





(** ** Restricted mode *)

Lemma frame_variables_frame c c' :
  frame c' = frame c → variables_frame c' = variables_frame c.
Proof.
  intros Hf. destruct (frame_fields _ _ Hf)
    as (_ & _ & _ & Hs & Hr & _ & _ & _ & Hv & Hk & Hi & Hl).
  unfold variables_frame. by rewrite Hs, Hr, Hv, Hk, Hi, Hl.
Qed.

Lemma variables_frame_fields c c' :
  variables_frame c' = variables_frame c →
  restricted c' = restricted c ∧ skip_sequences c' = skip_sequences c
  ∧ vars c' = vars c ∧ keys_vars c' = keys_vars c
  ∧ iteration c' = iteration c ∧ stderr_log c' = stderr_log c.
Proof. unfold variables_frame. by intros [= -> -> -> -> -> ->]. Qed.

Section Restricted.
Context `{Platform}.

Lemma declare_resource_variables_frame fuel ctx namespace c' :
  declare_resource fuel ctx namespace = Some c' →
  variables_frame c' = variables_frame ctx.
Proof.
  unfold declare_resource.
  pose proof (frame_variables_frame _ _ (context_get_token_frame ctx uninit_token None))
    as H0.
  set (r := context_get_token ctx uninit_token None) in *. clearbody r.
  destruct (is_invalid (r_type r)); [by intros [= <-]|]. cbv zeta.
  destruct (while_token _ _ _ _ _) as [[n c1]|] eqn:Hloop; [|done].
  cbn [mbind option_bind].
  apply (while_token_invariant (λ c, variables_frame c = variables_frame ctx)) in Hloop.
  - destruct (n =? 0); [by intros [= <-]|].
    destruct (cdict_find _ _ _); by intros [= <-].
  - intros c t mr <-. apply frame_variables_frame, context_get_token_frame.
  - by intros v c <-.
  - done.
Qed.

Lemma sequence_parse_restricted fuel ctx c' :
  restricted ctx = true →
  sequence_parse fuel ctx = Some c' → variables_frame c' = variables_frame ctx.
Proof.
  intros Hres. destruct fuel as [|fuel]; [done|]. rewrite sequence_parse_unfold.
  destruct (_ <=? _)%nat; [by intros [= <-]|].
  pose proof (frame_variables_frame _ _
    (context_get_token_frame (depth_enter ctx) uninit_token None)) as H0.
  change (variables_frame (depth_enter ctx)) with (variables_frame ctx) in H0.
  set (r := context_get_token (depth_enter ctx) uninit_token None) in *. clearbody r.
  assert (Hr : restricted (r_ctx r) = true).
  { apply variables_frame_fields in H0 as [-> _]. done. }
  cbv zeta. set (type := if _ && _ then TOKEN_INVALID else r_type r). clearbody type.
  assert (Hh : ∀ c1, variables_frame c1 = variables_frame (r_ctx r) →
    variables_frame (depth_leave (context_goto_eol c1)) = variables_frame ctx).
  { intros c1 H1. rewrite <-H0, <-H1.
    change (variables_frame (depth_leave (context_goto_eol c1)))
      with (variables_frame (context_goto_eol c1)).
    apply (frame_variables_frame c1), context_goto_eol_frame. }
  unfold combine_var, declare_variable, declare_enum, section_begin, section_add,
    section_del, include, iterate, print, seed, restrict_mode.
  rewrite Hr. cbn [orb mbind option_bind].
  destruct type; try (intros [= <-]; by apply Hh).
  all: try (destruct (declare_resource _ _ _) as [c1|] eqn:Hrun; [|done];
    cbn [mbind option_bind]; intros [= <-];
    by apply Hh, (declare_resource_variables_frame fuel _ (r_token r))).
  intros [= <-]. apply Hh. unfold variables_frame.
  cbn [restricted with_restricted skip_sequences vars keys_vars iteration stderr_log].
  by rewrite Hr.
Qed.

Lemma source_parse_loop_restricted fuel ctx c' :
  restricted ctx = true →
  source_parse_loop fuel ctx = Some c' → variables_frame c' = variables_frame ctx.
Proof.
  revert ctx. induction fuel as [|fuel IH]; intros ctx Hres; [done|].
  cbn [source_parse_loop]. destruct (eof_reached ctx); [by intros [= <-]|].
  destruct (sequence_parse _ _) as [c1|] eqn:Hp; [|done]. cbn [mbind option_bind].
  apply sequence_parse_restricted in Hp; [|done].
  change (variables_frame (with_eol_reached false ctx)) with (variables_frame ctx) in Hp.
  intros Hrec. rewrite <-Hp. apply IH; [|done].
  apply variables_frame_fields in Hp as [-> _]. done.
Qed.

End Restricted.

(** C6: in restricted mode the handlers of INCLUDE, of the variable
    declarations and combinations, of the enumerations, of FOR, SEED,
    PRINT, of the SECTION lines and of RESTRICT return the context they
    were given.  A line, a whole parse and a resource declaration leave
    the flags, the variable book, its dictionary, the iteration book and
    the printed text as they were; a resource declaration still stores
    its values. *)
Theorem restricted_mode_no_ops `{Platform} (fuel : nat) (ctx : context) :
  restricted ctx = true →
  (∀ type, combine_var fuel ctx type = Some ctx)
  ∧ declare_variable fuel ctx = Some ctx
  ∧ declare_enum fuel ctx = Some ctx
  ∧ include fuel ctx = Some ctx
  ∧ (∀ parse, iterate parse fuel ctx = Some ctx)
  ∧ seed ctx = ctx
  ∧ print fuel ctx = Some ctx
  ∧ section_begin fuel ctx = Some ctx
  ∧ section_add fuel ctx = Some ctx
  ∧ section_del fuel ctx = Some ctx
  ∧ restrict_mode ctx = ctx
  ∧ (∀ c', sequence_parse fuel ctx = Some c' ∨ source_parse_loop fuel ctx = Some c' →
       restricted c' = true ∧ skip_sequences c' = skip_sequences ctx
       ∧ vars c' = vars ctx ∧ keys_vars c' = keys_vars ctx
       ∧ iteration c' = iteration ctx ∧ stderr_log c' = stderr_log ctx)
  ∧ (∀ namespace c', declare_resource fuel ctx namespace = Some c' →
       restricted c' = true ∧ vars c' = vars ctx ∧ keys_vars c' = keys_vars ctx)
  ∧ (∀ namespace v vs c,
       let r := context_get_token ctx uninit_token None in
       sequences_wf (sequences ctx) (keys_sequences ctx) →
       r_type r ≠ TOKEN_INVALID →
       tokens_until_invalid fuel (r_ctx r) uninit_token = Some (v :: vs, c) →
       ∃ c', declare_resource fuel ctx namespace = Some c'
         ∧ ccfg_resources c' namespace (r_token r) = v :: vs).
Proof.
  intros Hres.
  unfold combine_var, declare_variable, declare_enum, section_begin, section_add,
    section_del, include, iterate, print, seed, restrict_mode.
  rewrite Hres. cbn [orb]. repeat (split; [done|]).
  split; [|split; [|split]].
  - by rewrite <-Hres.
  - intros c' Hrun.
    assert (Hf : variables_frame c' = variables_frame ctx).
    { destruct Hrun as [Hrun|Hrun].
      - by apply (sequence_parse_restricted fuel).
      - by apply (source_parse_loop_restricted fuel). }
    apply variables_frame_fields in Hf as (-> & -> & -> & -> & -> & ->). done.
  - intros namespace c' Hrun. apply declare_resource_variables_frame in Hrun.
    apply variables_frame_fields in Hrun as (-> & _ & -> & -> & _). done.
  - intros namespace v vs c Hwf Hty Htok.
    destruct (resource_redeclared fuel ctx namespace v vs c Hwf Hty Htok)
      as (c' & Hrun & _ & _ & Hget & _).
    by exists c'.
Qed.

Lemma restricted_mode_no_ops_witness :
  declare_variable 8 (with_restricted true (context_init "a b c"))
  = Some (with_restricted true (context_init "a b c"))
  ∧ ∃ c', sequence_parse 20 (with_restricted true (context_init "LET a b c")) = Some c'
      ∧ keys_vars c' = ∅ ∧ vars c' = cbook_empty.
Proof.
  split.
  - by apply (restricted_mode_no_ops 8 (with_restricted true (context_init "a b c"))).
  - destruct (sequence_parse 20 (with_restricted true (context_init "LET a b c")))
      as [c'|] eqn:Hrun; [|by vm_compute in Hrun].
    exists c'. split; [done|].
    destruct (restricted_mode_no_ops 20 (with_restricted true (context_init "LET a b c")))
      as (_ & _ & _ & _ & _ & _ & _ & _ & _ & _ & _ & Hline & _); [done|].
    destruct (Hline c') as (_ & _ & Hv & Hk & _); [by left|]. by rewrite Hv, Hk.
Defined.

(** ** Sections *)

Lemma context_goto_eol_reached c : eol_reached (context_goto_eol c) = true.
Proof.
  unfold context_goto_eol. cbn [eol_reached with_it_i with_var_i].
  destruct (eol_reached c) eqn:He.
  { cbn [goto_eol_loop]. by rewrite He. }
  rewrite goto_eol_loop_fuel by (done || lia).
  by destruct (eol_str (buffer c)) as [b []].
Qed.

Lemma section_begin_loop_tokens `{Platform} fuel c tok tags c_end :
  tokens_until_invalid fuel c tok = Some (tags, c_end) →
  ∃ c', section_begin_loop fuel c tok = Some c'
    ∧ skip_sequences c' = negb (forallb (section_registered (keys_vars c)) tags)
    ∧ restricted c' = restricted c
    ∧ vars c' = vars c ∧ keys_vars c' = keys_vars c
    ∧ sequences c' = sequences c ∧ keys_sequences c' = keys_sequences c.
Proof.
  revert c tok tags. induction fuel as [|fuel IH]; intros c tok tags; [done|].
  cbn [tokens_until_invalid section_begin_loop].
  destruct (frame_fields _ _ (context_get_token_frame c tok None))
    as (_ & _ & _ & _ & Hr & _ & Hs & Hks & Hv & Hk & _).
  set (r := context_get_token c tok None) in *. clearbody r.
  destruct (is_invalid (r_type r)).
  { intros [= <- <-]. eexists. split; [done|]. by repeat split. }
  destruct (tokens_until_invalid fuel _ _) as [[vs c1]|] eqn:Hrec; [|done].
  cbn [mbind option_bind]. intros [= <- <-]. cbn [forallb].
  unfold section_registered at 1. rewrite <-Hk.
  destruct (cdict_find _ _ _).
  - destruct (IH _ _ _ Hrec) as (c' & Hrun & Hskip & Hr' & Hv' & Hk' & Hs' & Hks').
    exists c'. split; [done|]. rewrite Hskip, Hk. cbn [andb].
    split; [done|]. repeat split; congruence.
  - eexists. split; [done|]. by repeat split.
Qed.

(** C5 (amended): while [skip_sequences] is set, a line whose leader is
    not SECTION_BEGIN changes nothing but the position of the reader; a
    SECTION_BEGIN leader is dispatched whatever the flag; and, outside
    restricted mode, [section_begin] sets the flag exactly when one of
    the tags that follow is not registered under SECTION, and clears it
    when all are.  In restricted mode [section_begin] leaves the flag as
    it is. *)
Theorem section_begin_sets_skip `{Platform} (fuel : nat) (ctx : context) :
  let l := context_get_token (depth_enter ctx) uninit_token None in
  (depth ctx < CONTEXT_MAX_DEPTH)%nat →
  (skip_sequences ctx = true → r_type l ≠ TOKEN_SECTION_BEGIN →
     ∃ c', sequence_parse (S fuel) ctx = Some c'
       ∧ c' = depth_leave (context_goto_eol (r_ctx l))
       ∧ eol_reached c' = true ∧ skip_sequences c' = true
       ∧ restricted c' = restricted ctx
       ∧ vars c' = vars ctx ∧ keys_vars c' = keys_vars ctx
       ∧ iteration c' = iteration ctx
       ∧ sequences c' = sequences ctx ∧ keys_sequences c' = keys_sequences ctx)
  ∧ (r_type l = TOKEN_SECTION_BEGIN →
     sequence_parse (S fuel) ctx
     = c ← section_begin fuel (r_ctx l); Some (depth_leave (context_goto_eol c)))
  ∧ (∀ c tags c_end, restricted c = false →
     tokens_until_invalid fuel c uninit_token = Some (tags, c_end) →
     ∃ c', section_begin fuel c = Some c'
       ∧ skip_sequences c' = negb (forallb (section_registered (keys_vars c)) tags)
       ∧ restricted c' = false
       ∧ vars c' = vars c ∧ keys_vars c' = keys_vars c
       ∧ sequences c' = sequences c ∧ keys_sequences c' = keys_sequences c)
  ∧ (∀ c, restricted c = true → section_begin fuel c = Some c).
Proof.
  intros l Hd. rewrite sequence_parse_unfold.
  destruct (Nat.leb_spec CONTEXT_MAX_DEPTH (depth ctx)) as [?|_]; [lia|].
  fold l. cbv zeta.
  destruct (frame_fields _ _ (context_get_token_frame (depth_enter ctx) uninit_token None))
    as (_ & _ & _ & Hskip & Hr & _ & Hs & Hks & Hv & Hk & Hi & _).
  fold l in Hskip, Hr, Hs, Hks, Hv, Hk, Hi.
  change (skip_sequences (depth_enter ctx)) with (skip_sequences ctx) in Hskip.
  split; [|split; [|split]].
  - intros Hset Hty. rewrite Hskip, Hset.
    replace (token_eqb (r_type l) TOKEN_SECTION_BEGIN) with false
      by (symmetry; by apply bool_decide_eq_false).
    cbn [negb andb mbind option_bind]. eexists. split; [done|]. split; [done|].
    destruct (frame_fields _ _ (context_goto_eol_frame (r_ctx l)))
      as (_ & _ & _ & Hskip' & Hr' & _ & Hs' & Hks' & Hv' & Hk' & Hi' & _).
    split; [apply context_goto_eol_reached|].
    cbn [depth_leave skip_sequences restricted vars keys_vars iteration sequences
         keys_sequences with_depth].
    rewrite Hskip', Hr', Hs', Hks', Hv', Hk', Hi', Hskip, Hr, Hs, Hks, Hv, Hk, Hi.
    by repeat split.
  - intros ->. done.
  - intros c tags c_end Hres Htok. unfold section_begin. rewrite Hres.
    destruct (section_begin_loop_tokens _ _ _ _ _ Htok)
      as (c' & Hrun & Hsk & Hr' & Hrest).
    exists c'. split; [done|]. split; [done|]. split; [congruence|done].
  - intros c Hres. unfold section_begin. by rewrite Hres.
Qed.

Lemma section_begin_sets_skip_witness :
  ∃ c', sequence_parse 20 (context_init "SECTION dark light") = Some c'
    ∧ skip_sequences c' = true.
Proof.
  destruct (section_begin_sets_skip 19 (context_init "SECTION dark light"))
    as (_ & Hrun & Hbegin & _); [vm_compute; lia|].
  destruct (Hbegin
    (r_ctx (context_get_token (depth_enter (context_init "SECTION dark light"))
       uninit_token None))
    ["dark"; "light"]
    (with_depth_peak 2 (with_depth 1
       (with_eof_reached true (with_eol_reached true (context_init ""))))))
    as (c1 & Hc1 & Hskip & _); [by vm_compute|by vm_compute|].
  rewrite Hrun by (by vm_compute). rewrite Hc1. cbn [mbind option_bind].
  eexists. split; [done|].
  change (skip_sequences (depth_leave (context_goto_eol c1)))
    with (skip_sequences (context_goto_eol c1)).
  destruct (frame_fields _ _ (context_goto_eol_frame c1)) as (_ & _ & _ & -> & _).
  rewrite Hskip. by vm_compute.
Defined.

(** C5, as stated, fails in restricted mode: the tag [dark] is not
    registered, and SECTION_BEGIN leaves [skip_sequences] cleared. *)
Lemma section_begin_restricted_keeps_skip :
  section_registered (keys_vars (with_restricted true (context_init "SECTION dark")))
    "dark" = false
  ∧ r_type (context_get_token
      (depth_enter (with_restricted true (context_init "SECTION dark")))
      uninit_token None) = TOKEN_SECTION_BEGIN
  ∧ skip_sequences <$>
      sequence_parse 20 (with_restricted true (context_init "SECTION dark"))
    = Some false.
Proof. split; [|split]; by vm_compute. Qed.

(** ** The terminator under an open quote *)

(** C10: the terminator ends the word whatever the quote state.  The
    word loop leaves at once on a NUL, with the token and the context as
    they are; [update_state] then sets [eof_reached] and [eol_reached];
    [read_word] consumes a part of the buffer that holds no NUL; and a
    word whose quote is never closed (blanks and newlines after the quote
    are stored as they come) is the text up to the terminator, read with
    both flags set and nothing left in the buffer. *)
Theorem read_word_stops_at_terminator (ctx : context) (tok : string) :
  (∀ n quotes_1 quotes_2 t,
     read_word_loop (S n) ctx NUL quotes_1 quotes_2 t = (NUL, t, ctx))
  ∧ (eof_reached (update_state ctx NUL) = true
     ∧ eol_reached (update_state ctx NUL) = true
     ∧ buffer (update_state ctx NUL) = buffer ctx)
  ∧ (∃ consumed,
       buffer ctx = consumed +:+ buffer (read_word ctx tok).2
       ∧ str_all not_nul consumed = true)
  ∧ (∀ lead pre q rest,
       eol_reached ctx = false →
       buffer ctx = lead +:+ pre +:+ String q rest →
       str_all is_blank lead = true →
       str_all (literal false false) pre = true →
       q = SQUOTE ∨ q = DQUOTE →
       str_all (literal (Ascii.eqb q SQUOTE) (Ascii.eqb q DQUOTE)) rest = true →
       let '(ok, t, ctx') := read_word ctx tok in
       t = snprintf_s (pre +:+ rest) ∧ ok = negb (str_is_empty t)
       ∧ eof_reached ctx' = true ∧ eol_reached ctx' = true
       ∧ buffer ctx' = EmptyString).
Proof.
  split; [done|]. split; [apply update_state_nul|].
  split; [apply read_word_suffix|]. intros lead pre q rest.
  apply read_word_open_quote.
Qed.

Lemma read_word_stops_at_terminator_witness :
  let '(ok, t, ctx') := read_word (context_init open_quote_text) uninit_token in
  t = snprintf_s ("ab" +:+ "c d" +:+ String LF "e") ∧ ok = negb (str_is_empty t)
  ∧ eof_reached ctx' = true ∧ eol_reached ctx' = true ∧ buffer ctx' = EmptyString.
Proof.
  exact (proj2 (proj2 (proj2
    (read_word_stops_at_terminator (context_init open_quote_text) uninit_token)))
    "  " "ab" SQUOTE ("c d" +:+ String LF "e")
    eq_refl eq_refl eq_refl eq_refl (or_introl eq_refl) eq_refl).
Defined.

(** ** Iteration: the capture of the body *)

Lemma frame_book_frame c c' : frame c' = frame c → book_frame c' = book_frame c.
Proof.
  intros Hf. destruct (frame_fields _ _ Hf)
    as (_ & _ & _ & Hs & Hr & _ & Hq & Hkq & Hv & Hk & _).
  unfold book_frame. by rewrite Hs, Hr, Hv, Hk, Hq, Hkq.
Qed.

Lemma book_frame_fields c c' :
  book_frame c' = book_frame c →
  vars c' = vars c ∧ keys_vars c' = keys_vars c ∧ sequences c' = sequences c
  ∧ keys_sequences c' = keys_sequences c ∧ restricted c' = restricted c
  ∧ skip_sequences c' = skip_sequences c.
Proof. unfold book_frame. by intros [= -> -> -> -> -> ->]. Qed.

Section Capture.
Context `{Platform}.

Lemma context_get_token_raw_book_frame c t :
  book_frame (context_get_token_raw c t).2 = book_frame c.
Proof. apply frame_book_frame, context_get_token_raw_frame. Qed.

Lemma context_goto_eol_book_frame c : book_frame (context_goto_eol c) = book_frame c.
Proof. apply frame_book_frame, context_goto_eol_frame. Qed.

Lemma preproc_iter_nest_loop_book_frame count ctx tok i n :
  book_frame (preproc_iter_nest_loop count ctx tok i n).2 = book_frame ctx.
Proof.
  revert ctx tok i n. induction count as [|count IH]; intros ctx tok i n; [done|].
  cbn [preproc_iter_nest_loop]. destruct (i <? _); [|done].
  pose proof (context_get_token_raw_book_frame (with_it_i 0 (with_it_group i ctx)) tok)
    as H0.
  destruct (context_get_token_raw _ _) as [[ty t] c1]. cbn [snd] in H0.
  change (book_frame (with_it_i 0 (with_it_group i ctx))) with (book_frame ctx) in H0.
  destruct (token_match t); try (by rewrite IH).
  destruct (n =? 0); [done|]. by rewrite IH.
Qed.

Lemma preproc_iter_line_book_frame fuel ctx tok t c' :
  preproc_iter_line fuel ctx tok = Some (t, c') → book_frame c' = book_frame ctx.
Proof.
  revert ctx tok. induction fuel as [|fuel IH]; intros ctx tok; [done|].
  cbn [preproc_iter_line].
  pose proof (context_get_token_raw_book_frame ctx tok) as H0.
  destruct (context_get_token_raw _ _) as [[ty t1] c1]. cbn [snd] in H0.
  destruct (is_invalid ty); [by intros [= <- <-]|].
  intros Hrec. apply IH in Hrec. by rewrite Hrec.
Qed.

Lemma preproc_iter_new_loop_book_frame fuel ctx tok n fail c' :
  preproc_iter_new_loop fuel ctx tok n = Some (fail, c') →
  book_frame c' = book_frame ctx.
Proof.
  revert ctx tok n. induction fuel as [|fuel IH]; intros ctx tok n; [done|].
  cbn [preproc_iter_new_loop]. destruct (eof_reached ctx); [by intros [= <- <-]|].
  pose proof (context_get_token_raw_book_frame (with_eol_reached false ctx) tok) as H0.
  destruct (context_get_token_raw _ _) as [[ty t] c1]. cbn [snd] in H0.
  change (book_frame (with_eol_reached false ctx)) with (book_frame ctx) in H0.
  assert (Hsave : ∀ n,
    ('(tok, ctx) ← preproc_iter_line (S fuel)
        (write_iteration t
           (with_iteration (cbook_prepare_new_group (iteration c1)) c1)) t;
      preproc_iter_new_loop fuel ctx tok n) = Some (fail, c') →
    book_frame c' = book_frame ctx).
  { intros n'. destruct (preproc_iter_line _ _ _) as [[t2 c2]|] eqn:Hline; [|done].
    cbn [mbind option_bind]. intros Hrec. apply IH in Hrec.
    apply preproc_iter_line_book_frame in Hline. by rewrite Hrec, Hline. }
  destruct (token_match t); try apply Hsave.
  - intros Hrec. apply IH in Hrec. by rewrite Hrec, context_goto_eol_book_frame.
  - destruct (n =? 0); [|apply Hsave]. intros [= <- <-].
    by rewrite context_goto_eol_book_frame.
Qed.

Lemma iterate_preproc_book_frame fuel ctx gs ge fail c' :
  iterate_preproc fuel ctx = Some (gs, ge, fail, c') →
  book_frame c' = book_frame ctx.
Proof.
  unfold iterate_preproc. destruct (negb _).
  - pose proof (preproc_iter_nest_loop_book_frame (S (length (groups (iteration ctx))))
      ctx uninit_token (size_succ (it_group ctx)) 0) as H0.
    unfold preproc_iter_nest.
    destruct (preproc_iter_nest_loop _ _ _ _ _) as [[e f] c1]. by intros [= <- <- <- <-].
  - unfold preproc_iter_new.
    destruct (preproc_iter_new_loop _ _ _ _) as [[f c1]|] eqn:Hloop; [|done].
    cbn [mbind option_bind]. intros [= <- <- <- <-].
    apply preproc_iter_new_loop_book_frame in Hloop.
    by rewrite Hloop, context_goto_eol_book_frame.
Qed.

(** Where the body of the loop starts and ends. *)
Lemma iterate_preproc_groups fuel ctx gs ge fail c' :
  iterate_preproc fuel ctx = Some (gs, ge, fail, c') →
  if cbook_length (iteration ctx) =? 0
  then gs = 0 ∧ ge = cbook_groups_number (iteration c')
  else gs = size_succ (it_group ctx).
Proof.
  unfold iterate_preproc. destruct (cbook_length (iteration ctx) =? 0); cbn [negb].
  - destruct (preproc_iter_new _ _) as [[f c1]|]; [|done].
    cbn [mbind option_bind]. by intros [= <- <- <- <-].
  - destruct (preproc_iter_nest _ _) as [[e f] c1]. by intros [= <- <- <- <-].
Qed.

End Capture.

(** ** The replay of a loop body, value by value *)

Lemma steady_group c c' i vs :
  steady c c' → lookupN (groups (vars c)) i = Some vs →
  lookupN (groups (vars c')) i = Some vs
  ∧ ∀ k, cbook_word_index (vars c') i k = cbook_word_index (vars c) i k.
Proof.
  intros (_ & _ & [extra Hp]) Hi.
  assert (Hlt : i < N.of_nat (length (groups (vars c)))).
  { unfold lookupN in Hi. by destruct (N.ltb_spec i (N.of_nat (length (groups (vars c))))). }
  split.
  - rewrite Hp. by rewrite lookupN_app_l.
  - intros k. unfold cbook_word_index, cbook_groups_number. rewrite Hp, length_app.
    rewrite !N.min_l by lia. rewrite take_app_le by lia. done.
Qed.

Section Replay.
Variable parse : context → option context.
Hypothesis parse_steady : ∀ c c', parse c = Some c' → steady c c'.

Lemma iterate_values_replay fuel name i gs ge vs :
  ∀ m count ctx k,
  lookupN (groups (vars ctx)) i = Some vs →
  (k + m = length vs)%nat → (m < count)%nat →
  iterate_values parse fuel count ctx name i gs ge (N.of_nat k)
  = replay_values parse fuel name gs ge
      (map (λ j, cbook_word_index (vars ctx) i (N.of_nat j)) (seq k m)) ctx.
Proof.
  induction m as [|m IH]; intros count ctx k Hi Hk Hcount.
  - destruct count as [|count]; [lia|]. cbn [iterate_values seq map replay_values].
    unfold cbook_group_length, cbook_group. rewrite Hi. cbn [default from_option id].
    destruct (N.ltb_spec (N.of_nat k) (N.of_nat (length vs))); [lia|done].
  - destruct count as [|count]; [lia|]. cbn [iterate_values seq map replay_values].
    unfold cbook_group_length, cbook_group. rewrite Hi. cbn [default from_option id].
    destruct (N.ltb_spec (N.of_nat k) (N.of_nat (length vs))) as [_|?]; [|lia].
    destruct (iterate_groups _ _ _ _) as [c1|] eqn:Hg; [|done].
    cbn [mbind option_bind]. apply (iterate_groups_steady parse parse_steady) in Hg.
    destruct (steady_group _ c1 i vs Hg) as [Hi1 Hidx]; [done|].
    replace (N.of_nat k + 1) with (N.of_nat (S k)) by lia.
    rewrite (IH count c1 (S k)) by (done || lia).
    f_equal. apply map_ext. intros j. apply Hidx.
Qed.

Lemma iterate_values_none fuel name i gs ge count ctx :
  cbook_group (vars ctx) i = [] →
  iterate_values parse fuel (S count) ctx name i gs ge 0 = Some ctx.
Proof.
  intros Hi. cbn [iterate_values]. unfold cbook_group_length. by rewrite Hi.
Qed.

End Replay.

(** ** Iteration: the replay *)

Lemma iterate_values_all `{Platform} parse fuel name i gs ge ctx :
  (∀ c c', parse c = Some c' → steady c c') →
  (length (cbook_group (vars ctx) i) < fuel)%nat →
  iterate_values parse fuel fuel ctx name i gs ge 0
  = replay_values parse fuel name gs ge
      (map (λ k, cbook_word_index (vars ctx) i (N.of_nat k))
         (seq 0 (length (cbook_group (vars ctx) i)))) ctx.
Proof.
  intros Hparse Hlen. unfold cbook_group in *.
  destruct (lookupN (groups (vars ctx)) i) as [vs|] eqn:Hi; cbn [default from_option id] in *.
  - by apply (iterate_values_replay parse Hparse fuel name i gs ge vs
      (length vs) fuel ctx 0%nat).
  - destruct fuel as [|fuel]; [cbn in Hlen; lia|].
    apply iterate_values_none. unfold cbook_group. by rewrite Hi.
Qed.

Lemma sample_sequence_parse_steady fuel c c' :
  @sequence_parse sample_platform fuel c = Some c' → steady c c'.
Proof. apply (@sequence_parse_steady sample_platform). intros c0 f. reflexivity. Qed.

(** C4, as stated, fails on the two guards of [iterate].  The variable v
    is bound under VARIABLE and not under ITERATION, and its group holds
    two values.  In restricted mode the handler returns the context as it
    is: nothing is bound, captured or replayed.  Outside restricted mode,
    when the body has no FOR_END, the body is captured and never replayed:
    no resource is declared, where the same body closed by FOR_END
    declares one per value.  When the body holds a loop of its own, the
    line of that loop is replayed twice for each value, by the inner
    handler, and not once: the body declares four resources. *)
Lemma iterate_guards_skip_replay :
  cdict_find (keys_vars (iterate_context loop_text)) "v" CONTEXT_DICT_VARIABLE = Some 0
  ∧ cdict_find (keys_vars (iterate_context loop_text)) "v" CONTEXT_DICT_ITERATION = None
  ∧ cbook_group (vars (iterate_context loop_text)) 0 = ["a"; "b"]
  ∧ iterate (sequence_parse 30) 30 (with_restricted true (iterate_context loop_text))
    = Some (with_restricted true (iterate_context loop_text))
  ∧ (λ c, groups (sequences c))
      <$> iterate (sequence_parse 30) 30 (iterate_context open_loop_text)
    = Some []
  ∧ (λ c, groups (sequences c))
      <$> iterate (sequence_parse 30) 30 (iterate_context loop_text)
    = Some [["x"]; ["x"]]
  ∧ (λ c, groups (sequences c))
      <$> iterate (sequence_parse 30) 30 (iterate_context nested_loop_text)
    = Some [["x"]; ["x"]; ["x"]; ["x"]].
Proof. repeat split; by vm_compute. Qed.

(** ** The scenarios of the specification, run on the sample platform *)

(** A line whose leader is no keyword declares a resource of the
    namespace that the leader names. *)
Lemma sequence_parse_declares_resource `{Platform} fuel ctx :
  let l := context_get_token (depth_enter ctx) uninit_token None in
  (depth ctx < CONTEXT_MAX_DEPTH)%nat → skip_sequences ctx = false →
  r_type l = TOKEN_STRING ∨ r_type l = TOKEN_NUMBER →
  sequence_parse (S fuel) ctx
  = c ← declare_resource fuel (r_ctx l) (r_token l);
    Some (depth_leave (context_goto_eol c)).
Proof.
  intros l Hd Hskip Hty. rewrite sequence_parse_unfold.
  destruct (Nat.leb_spec CONTEXT_MAX_DEPTH (depth ctx)) as [?|_]; [lia|].
  fold l. cbv zeta.
  destruct (frame_fields _ _ (context_get_token_frame (depth_enter ctx) uninit_token None))
    as (_ & _ & _ & Hs & _).
  fold l in Hs. change (skip_sequences (depth_enter ctx)) with (skip_sequences ctx) in Hs.
  rewrite Hs, Hskip, andb_false_r. by destruct Hty as [-> | ->].
Qed.

Example load_resource :
  (λ c, ccfg_resources c "myns" "prop")
    <$> ccfg_load_internal 20 "myns prop alpha beta"
  = Some ["alpha"; "beta"].
Proof. vm_compute. reflexivity. Qed.

Example load_injection :
  (λ c, ccfg_resources c "ui" "accent")
    <$> ccfg_load_internal 20 (text ["LET colors red green blue"; "ui accent $ colors"])
  = Some ["red"; "green"; "blue"].
Proof. vm_compute. reflexivity. Qed.

Example load_redeclaration :
  (λ c, (ccfg_resources c "ns" "p", groups (sequences c)))
    <$> ccfg_load_internal 20 (text ["ns p a"; "ns p b c"])
  = Some (["b"; "c"], [["a"]; ["b"; "c"]]).
Proof. vm_compute. reflexivity. Qed.

Example load_sections :
  (λ c, (ccfg_resources c "ui" "bg", ccfg_resources c "ui" "fg"))
    <$> ccfg_load_internal 30
          (text ["SECTION_ADD light"; "SECTION dark"; "ui bg black";
                 "SECTION light"; "ui fg white"])
  = Some ([], ["white"]).
Proof. vm_compute. reflexivity. Qed.

Example load_restricted :
  (λ c, (ccfg_resources c "ns" "p", groups (vars c), restricted c))
    <$> ccfg_load_internal 30 (text ["RESTRICT"; "LET a b"; "ns p v"])
  = Some (["v"], [], true).
Proof. vm_compute. reflexivity. Qed.

Example load_iteration :
  (λ c, (groups (sequences c), groups (iteration c)))
    <$> ccfg_load_internal 40 (text ["LET v a b"; "FOR v"; "r p x"; "FOR_END"])
  = Some ([["x"]; ["x"]], []).
Proof. vm_compute. reflexivity. Qed.

(** ** The size of a token and the kinds a read delivers *)

Lemma str_take_length n s : (String.length (str_take n s) ≤ n)%nat.
Proof.
  revert s. induction n as [|n IH]; intros [|c s]; simpl; try lia.
  specialize (IH s). lia.
Qed.

Lemma snprintf_s_fits s : fits (snprintf_s s).
Proof. apply str_take_length. Qed.

Lemma char_add_fits tok c : fits tok → fits (char_add tok c).
Proof.
  unfold fits, char_add. intros Hf.
  destruct (Nat.ltb_spec (String.length tok) (TOKEN_MAX_LEN - 1)); [|done].
  rewrite str_length_app. simpl. lia.
Qed.

Lemma strncat_tok_fits a b : fits a → fits (strncat_tok a b).
Proof.
  unfold fits, strncat_tok. intros Hf. rewrite str_length_app.
  pose proof (str_take_length (TOKEN_MAX_LEN - String.length a - 1) b). lia.
Qed.

Lemma read_word_loop_fits n c ch q1 q2 tok :
  fits tok → fits (read_word_loop n c ch q1 q2 tok).1.2.
Proof.
  revert c ch q1 q2 tok. induction n as [|n IH]; intros c ch q1 q2 tok Hf; [done|].
  cbn [read_word_loop].
  assert (Hnext : ∀ q1' q2' t, fits t →
    fits (let '(c', ctx') := read_char c in read_word_loop n ctx' c' q1' q2' t).1.2).
  { intros q1' q2' t Ht. destruct (read_char c) as [c' ctx']. by apply IH. }
  pose proof (char_add_fits tok ch Hf) as Hadd.
  repeat case_match; try done; by apply Hnext.
Qed.

Lemma read_word_fits c tok : fits tok → fits (read_word c tok).1.2.
Proof.
  intros Hf. unfold read_word. destruct (eol_reached c); [done|].
  destruct (skip_lead _ _) as [ch c1].
  pose proof (read_word_loop_fits (S (String.length (buffer c))) c1 ch false false
    EmptyString) as Hloop.
  destruct (read_word_loop _ _ _ _ _ _) as [[ch' t] c2]. apply Hloop.
  unfold fits. simpl. lia.
Qed.

Lemma context_get_token_raw_fits c tok :
  fits tok → fits (context_get_token_raw c tok).1.2.
Proof.
  intros Hf. unfold context_get_token_raw.
  destruct (_ <? _); [apply snprintf_s_fits|].
  destruct (_ <? _); [apply snprintf_s_fits|].
  pose proof (read_word_fits c tok Hf) as Hw.
  destruct (read_word c tok) as [[ok t] c1]. by destruct ok.
Qed.

Lemma context_get_token_raw_kind c tok :
  (context_get_token_raw c tok).1.1 = TOKEN_STRING
  ∨ (context_get_token_raw c tok).1.1 = TOKEN_INVALID.
Proof.
  unfold context_get_token_raw. destruct (_ <? _); [by left|].
  destruct (_ <? _); [by left|].
  destruct (read_word c tok) as [[[] t] c1]; [by left|by right].
Qed.

Section Delivered.
Context `{Platform}.
Variable g : context → string → option float → token_result.
Hypothesis Hg : ∀ c t m, delivered t (g c t m).

Lemma get_token_numeral_fits c t d :
  fits t → fits (r_token (get_token_numeral g c t d)).
Proof.
  intros Hf. destruct (Hg c t (Some d)) as [_ Hfit]. unfold get_token_numeral.
  repeat case_match; by apply Hfit.
Qed.

Lemma numeral_args_fits n c t : fits t → fits (numeral_args g n c t).1.2.
Proof.
  revert c t. induction n as [|n IH]; intros c t Hf; [done|]. cbn [numeral_args].
  pose proof (get_token_numeral_fits c t 0%float Hf) as Hr.
  destruct (is_invalid _); [done|].
  specialize (IH (r_ctx (get_token_numeral g c t 0%float)) _ Hr).
  by destruct (numeral_args g n _ _) as [[ds t'] c'].
Qed.

Lemma _math_delivered c t m ty n : delivered t (_math g c t m ty n).
Proof.
  unfold _math, delivered. pose proof (numeral_args_fits n c t) as Hargs.
  destruct (numeral_args g n c t) as [[[d|] t'] c1]; [|done].
  destruct (math_eval c1 ty d) as [[v c2]|]; [|done].
  destruct m; [done|]. split; [done|]. intros _. apply snprintf_s_fits.
Qed.

Lemma _math_cl_delivered c t m ty n : delivered t (_math_cl g c t m ty n).
Proof.
  unfold _math_cl, delivered. pose proof (numeral_args_fits n c t) as Hargs.
  destruct (numeral_args g n c t) as [[[d|] t'] c1]; [|done].
  destruct (math_cl_eval ty d); [|done].
  destruct m; [done|]. split; [done|]. intros _. apply snprintf_s_fits.
Qed.

Lemma _if_delivered c t m ty : delivered t (_if g c t m ty).
Proof.
  unfold _if, delivered.
  pose proof (get_token_numeral_fits c t uninit_double) as H1.
  set (n1 := get_token_numeral g c t uninit_double) in *.
  pose proof (get_token_numeral_fits (r_ctx n1) (r_token n1) uninit_double) as H2.
  set (n2 := get_token_numeral g (r_ctx n1) (r_token n1) uninit_double) in *.
  destruct (is_invalid (r_type n1)); [done|].
  destruct (is_invalid (r_type n2)); [split; [done|]; by intros ?%H1%H2|].
  destruct (if_compare _ _ _) as [[]|]; [| |split; [done|]; by intros ?%H1%H2].
  - destruct (Hg (r_ctx n2) (r_token n2) m) as [Hk Hf]. split; [done|].
    by intros ?%H1%H2%Hf.
  - destruct (Hg (r_ctx n2) (r_token n2) m) as [_ Hf].
    set (r1 := g (r_ctx n2) (r_token n2) m) in *.
    destruct (Hg (r_ctx r1) (r_token r1) (r_math r1)) as [Hk' Hf'].
    split; [done|]. by intros ?%H1%H2%Hf%Hf'.
Qed.

Lemma _join_delivered c t m : delivered t (_join g c t m).
Proof.
  unfold _join, delivered. destruct (Hg c t None) as [_ Hf].
  destruct (is_invalid _); [done|]. destruct (is_invalid _); [done|].
  split; [done|]. intros ?%Hf. by apply strncat_tok_fits.
Qed.

Lemma _variable_delivered c t m : delivered t (_variable g c t m).
Proof.
  unfold _variable, delivered. destruct (Hg c t None) as [_ Hf].
  set (r1 := g c t None) in *.
  destruct (is_invalid _); [done|]. destruct (cdict_find _ _ _) as [i|]; [|done].
  destruct (Hg (do_book_reset_iterator (r_ctx r1) i) (r_token r1) m) as [Hk Hf'].
  split; [done|]. by intros ?%Hf%Hf'.
Qed.

Lemma _escape_delivered c t m : delivered t (_escape c t m).
Proof.
  unfold _escape, delivered.
  pose proof (context_get_token_raw_fits (with_eol_reached false c) t) as Hf.
  pose proof (context_get_token_raw_kind (with_eol_reached false c) t) as Hk.
  destruct (context_get_token_raw _ _) as [[ty t'] c1]. cbn in *.
  split; [by destruct Hk as [-> | ->]|done].
Qed.

Lemma substitution_switch_delivered c t m :
  delivered t (substitution_switch g c t m).
Proof.
  unfold substitution_switch.
  destruct (token_match t) eqn:Hm;
    first [ apply _math_delivered | apply _math_cl_delivered | apply _if_delivered
          | apply _join_delivered | apply _variable_delivered
          | apply _escape_delivered | apply Hg | by split ].
Qed.

Lemma dr_subtitution_apply_delivered c t m :
  delivered t (dr_subtitution_apply g c t m).
Proof.
  unfold dr_subtitution_apply. destruct (_ <=? _)%nat; [done|].
  apply substitution_switch_delivered.
Qed.

End Delivered.

Lemma get_token_fuel_delivered `{Platform} n c t m :
  delivered t (get_token_fuel n c t m).
Proof.
  revert c t m. induction n as [|n IH]; intros c t m; [done|].
  cbn [get_token_fuel].
  pose proof (context_get_token_raw_fits c t) as Hf.
  destruct (context_get_token_raw c t) as [[ty t'] c1]. cbn in Hf.
  destruct (is_invalid ty); [done|].
  destruct (dr_subtitution_apply_delivered (get_token_fuel n) IH c1 t' m) as [Hk Hf'].
  split; [done|]. by intros ?%Hf%Hf'.
Qed.

Lemma context_get_token_delivered `{Platform} c t m :
  delivered t (context_get_token c t m).
Proof. apply get_token_fuel_delivered. Qed.

Lemma tokens_until_invalid_fit `{Platform} fuel c tok vs c' :
  fits tok → tokens_until_invalid fuel c tok = Some (vs, c') → Forall fits vs.
Proof.
  revert c tok vs. induction fuel as [|fuel IH]; intros c tok vs Hf; [done|].
  cbn [tokens_until_invalid].
  destruct (context_get_token_delivered c tok None) as [_ Hr].
  destruct (is_invalid _); [by intros [= <- <-]|].
  destruct (tokens_until_invalid fuel _ _) as [[vs' c1]|] eqn:Hrec; [|done].
  cbn. intros [= <- <-]. constructor; [by apply Hr|].
  eapply IH; [|done]. by apply Hr.
Qed.

(** X1: a token read never overflows the token buffer: given a text that
    fits, the raw reader and the substituting reader deliver a text of
    at most [TOKEN_MAX_LEN - 1] characters, and so is every token of the
    rest of a line. *)
Theorem token_fits_buffer `{Platform} (ctx : context) (tok : string)
    (mr : option float) :
  fits tok →
  fits (context_get_token_raw ctx tok).1.2
  ∧ fits (r_token (context_get_token ctx tok mr))
  ∧ fits (r_token (substitution_apply ctx tok mr))
  ∧ ∀ fuel vs c', tokens_until_invalid fuel ctx tok = Some (vs, c') → Forall fits vs.
Proof.
  intros Hf. split; [by apply context_get_token_raw_fits|].
  split; [by apply context_get_token_delivered|]. split.
  - by apply (dr_subtitution_apply_delivered context_get_token
      context_get_token_delivered).
  - intros fuel vs c'. by apply tokens_until_invalid_fit.
Qed.

Lemma token_fits_buffer_witness :
  fits (r_token (context_get_token (context_init long_word) uninit_token None))
  ∧ String.length (r_token (context_get_token (context_init long_word) uninit_token None))
    = 1023%nat.
Proof.
  split; [|vm_compute; reflexivity].
  destruct (token_fits_buffer (context_init long_word) uninit_token None)
    as (_ & Hfit & _); [|exact Hfit].
  unfold fits, uninit_token. cbn [String.length]. lia.
Defined.

(** X2: the kinds that the substitution switch handles never come out of a
    token read: a read delivers INVALID, STRING, NUMBER or a kind that
    the switch leaves to the caller. *)
Theorem substitution_kinds_are_consumed `{Platform} (ctx : context) (tok : string)
    (mr : option float) :
  is_substitution_token (r_type (context_get_token ctx tok mr)) = false
  ∧ is_substitution_token (r_type (substitution_apply ctx tok mr)) = false.
Proof.
  split; [by apply context_get_token_delivered|].
  by apply (dr_subtitution_apply_delivered context_get_token
    context_get_token_delivered).
Qed.

Lemma str_take_app_fit m a b :
  (String.length a ≤ m)%nat →
  a +:+ str_take (m - String.length a) b = str_take m (a +:+ b).
Proof.
  revert m. induction a as [|x a IH]; intros m Hm.
  { rewrite !str_app_nil_l. cbn [String.length]. by rewrite Nat.sub_0_r. }
  cbn [String.length] in *. destruct m as [|m]; [lia|].
  rewrite !str_app_cons. cbn [str_take Nat.sub]. f_equal. apply IH. lia.
Qed.

Lemma strncat_tok_take a b :
  fits a → strncat_tok a b = snprintf_s (a +:+ b).
Proof.
  unfold fits, strncat_tok, snprintf_s. intros Hf.
  replace (TOKEN_MAX_LEN - String.length a - 1)%nat
    with (TOKEN_MAX_LEN - 1 - String.length a)%nat by lia.
  by apply str_take_app_fit.
Qed.

(** X3: JOIN reads two tokens through substitution and delivers, as a
    STRING, their concatenation cut to the size of the token buffer; it
    delivers INVALID when one of the two is invalid (the second is not
    read when the first is invalid). *)
Theorem join_concatenates `{Platform} (ctx : context) (tok : string)
    (mr : option float) :
  let r1 := context_get_token ctx tok None in
  let r2 := context_get_token (r_ctx r1) uninit_token None in
  let r := _join context_get_token ctx tok mr in
  fits tok →
  (r_type r1 = TOKEN_INVALID → r_type r = TOKEN_INVALID ∧ r_ctx r = r_ctx r1)
  ∧ (r_type r1 ≠ TOKEN_INVALID → r_type r2 = TOKEN_INVALID →
     r_type r = TOKEN_INVALID ∧ r_ctx r = r_ctx r2)
  ∧ (r_type r1 ≠ TOKEN_INVALID → r_type r2 ≠ TOKEN_INVALID →
     r_type r = TOKEN_STRING
     ∧ r_token r = snprintf_s (r_token r1 +:+ r_token r2)
     ∧ r_math r = mr ∧ r_ctx r = r_ctx r2).
Proof.
  intros r1 r2 r Hf. subst r. unfold _join. fold r1. split; [|split].
  - intros ->. done.
  - intros Hv%is_invalid_false. rewrite Hv. fold r2. by intros ->.
  - intros Hv%is_invalid_false Hv2%is_invalid_false. rewrite Hv. fold r2.
    rewrite Hv2. cbn [r_type r_token r_math r_ctx]. split; [done|].
    split; [|done]. apply strncat_tok_take.
    by apply (context_get_token_delivered ctx tok None).
Qed.

Lemma join_concatenates_witness :
  r_token (_join context_get_token (context_init " ab cd ef") uninit_token None)
  = snprintf_s ("ab" +:+ "cd")
  ∧ buffer (r_ctx (_join context_get_token (context_init " ab cd ef") uninit_token None))
    = "ef".
Proof.
  destruct (join_concatenates (context_init " ab cd ef") uninit_token None)
    as (_ & _ & Hjoin); [unfold fits, uninit_token; cbn [String.length]; lia|].
  destruct Hjoin as (_ & Htok & _ & Hctx); [by vm_compute|by vm_compute|].
  rewrite Htok, Hctx. split; vm_compute; reflexivity.
Defined.

(** ** Words, quotes and the end of a line *)

Lemma token_max_len_value : TOKEN_MAX_LEN = 1024%nat.
Proof. by vm_compute. Qed.

Lemma is_separator_not_nul sep : is_separator sep = true → Ascii.eqb sep NUL = false.
Proof.
  destruct (Ascii.eqb sep NUL) eqn:Hn; [|done].
  apply Ascii.eqb_eq in Hn as ->. by vm_compute.
Qed.

Lemma word_str_separator rest sep tok :
  is_separator sep = true → word_str rest sep false false tok = (sep, tok, rest).
Proof.
  intros Hs. pose proof (is_separator_not_nul sep Hs) as Hn.
  unfold is_separator in Hs. destruct rest; simpl; by rewrite Hn, Hs.
Qed.

Lemma word_str_quote_opens q b tok :
  q = SQUOTE ∨ q = DQUOTE →
  word_str b q false false tok =
    match b with
    | EmptyString => (NUL, tok, EmptyString)
    | String c' b' =>
        if Ascii.eqb c' NUL then (NUL, tok, b)
        else word_str b' c' (Ascii.eqb q SQUOTE) (Ascii.eqb q DQUOTE) tok
    end.
Proof. intros [-> | ->]; by destruct b. Qed.

Lemma word_str_quote_closes q b tok :
  q = SQUOTE ∨ q = DQUOTE →
  word_str b q (Ascii.eqb q SQUOTE) (Ascii.eqb q DQUOTE) tok =
    match b with
    | EmptyString => (NUL, tok, EmptyString)
    | String c' b' =>
        if Ascii.eqb c' NUL then (NUL, tok, b) else word_str b' c' false false tok
    end.
Proof. intros [-> | ->]; by destruct b. Qed.

Lemma str_add_empty s : str_add EmptyString s = snprintf_s s.
Proof.
  rewrite str_add_take by (cbn [String.length]; lia). by rewrite str_app_nil_l.
Qed.

Lemma snprintf_s_nonempty c s : str_is_empty (snprintf_s (String c s)) = false.
Proof. unfold snprintf_s. by rewrite token_max_len_value. Qed.

Lemma update_state_separator c sep :
  is_separator sep = true →
  update_state c sep = if Ascii.eqb sep LF then with_eol_reached true c else c.
Proof.
  intros Hs%is_separator_not_nul. unfold update_state. by rewrite Hs.
Qed.

Lemma read_word_separated (ctx : context) (tok lead : string) (p : ascii)
    (word : string) (sep : ascii) (rest : string) :
  eol_reached ctx = false →
  buffer ctx = lead +:+ String p word +:+ String sep rest →
  str_all is_blank lead = true →
  str_all (literal false false) (String p word) = true →
  is_separator sep = true →
  read_word ctx tok
  = (true, snprintf_s (String p word),
     if Ascii.eqb sep LF then with_eol_reached true (with_buffer rest ctx)
     else with_buffer rest ctx).
Proof.
  intros Heol Hbuf Hlead Hword Hsep. unfold read_word. rewrite Heol.
  remember (S (String.length (buffer ctx))) as n eqn:Hfuel.
  rewrite skip_lead_fuel by lia.
  assert (Hp := Hword). cbn [str_all] in Hp. apply andb_prop in Hp as [Hp _].
  destruct (literal_plain p Hp) as [Hb Hn].
  assert (Hs : skip_str (buffer ctx) = (p, word +:+ String sep rest)).
  { rewrite Hbuf, str_app_cons. by apply skip_str_blanks. }
  rewrite Hs. cbn [fst snd].
  rewrite read_word_loop_fuel.
  2:{ cbn [buffer with_buffer fst snd]. rewrite Hfuel, Hbuf, str_app_cons.
      rewrite !str_length_app. cbn [String.length]. rewrite ?str_length_app. cbn [String.length]. lia. }
  cbn [buffer with_buffer].
  rewrite (word_str_literal word (String sep rest) p _ _ EmptyString Hword).
  rewrite (is_separator_not_nul sep Hsep), word_str_separator by done.
  rewrite str_add_empty, snprintf_s_nonempty. cbn [negb].
  rewrite update_state_separator by done.
  by destruct (Ascii.eqb sep LF).
Qed.

Lemma context_get_token_raw_buffer c t :
  reads_buffer c →
  context_get_token_raw c t =
    let '(ok, t', c') := read_word c t in
    if ok then (TOKEN_STRING, t', c') else (TOKEN_INVALID, t', c').
Proof. intros [Hv Hi]. unfold context_get_token_raw. by rewrite Hv, Hi. Qed.

(** The first word of the buffer, read by the raw reader. *)
Lemma context_get_token_raw_plain c tok lead p word sep rest :
  reads_buffer c → eol_reached c = false →
  buffer c = lead +:+ String p word +:+ String sep rest →
  str_all is_blank lead = true →
  str_all (literal false false) (String p word) = true →
  is_separator sep = true →
  context_get_token_raw c tok
  = (TOKEN_STRING, snprintf_s (String p word),
     if Ascii.eqb sep LF then with_eol_reached true (with_buffer rest c)
     else with_buffer rest c).
Proof.
  intros Hr He Hb Hl Hw Hs. rewrite context_get_token_raw_buffer by done.
  by rewrite (read_word_separated c tok lead p word sep rest).
Qed.

(** X4: a word outside quotes: after the leading blanks, the characters up
    to the first separator are the token (cut to the size of the token
    buffer); the separator is consumed, and a newline sets
    [eol_reached].  When no replay is pending, the raw reader delivers
    this word as a STRING. *)
Theorem read_word_plain (ctx : context) (tok lead : string) (p : ascii)
    (word : string) (sep : ascii) (rest : string) :
  eol_reached ctx = false →
  buffer ctx = lead +:+ String p word +:+ String sep rest →
  str_all is_blank lead = true →
  str_all (literal false false) (String p word) = true →
  is_separator sep = true →
  read_word ctx tok
  = (true, snprintf_s (String p word),
     if Ascii.eqb sep LF then with_eol_reached true (with_buffer rest ctx)
     else with_buffer rest ctx)
  ∧ (reads_buffer ctx →
     context_get_token_raw ctx tok
     = (TOKEN_STRING, snprintf_s (String p word),
        if Ascii.eqb sep LF then with_eol_reached true (with_buffer rest ctx)
        else with_buffer rest ctx)).
Proof.
  intros Heol Hbuf Hlead Hword Hsep. split.
  - by apply (read_word_separated ctx tok lead).
  - intros Hr. by apply (context_get_token_raw_plain ctx tok lead).
Qed.

Lemma read_word_plain_witness :
  read_word (context_init "  alpha beta") uninit_token
  = (true, snprintf_s "alpha", with_buffer "beta" (context_init "  alpha beta"))
  ∧ context_get_token_raw (context_init "  alpha beta") uninit_token
    = (TOKEN_STRING, snprintf_s "alpha",
       with_buffer "beta" (context_init "  alpha beta")).
Proof.
  destruct (read_word_plain (context_init "  alpha beta") uninit_token "  " "a" "lpha"
              " " "beta" eq_refl eq_refl eq_refl eq_refl eq_refl) as [Hword Hraw].
  split; [exact Hword|]. apply Hraw. by split.
Defined.

(** X5: a quoted word: the quotes are dropped, and what stands between
    them is the token, blanks, newlines and quotes of the other kind
    included; an empty pair of quotes is no token. *)
Theorem read_word_quoted (ctx : context) (tok lead : string) (q : ascii)
    (inner : string) (sep : ascii) (rest : string) :
  eol_reached ctx = false →
  buffer ctx = lead +:+ String q inner +:+ String q (String sep rest) →
  str_all is_blank lead = true →
  q = SQUOTE ∨ q = DQUOTE →
  str_all (literal (Ascii.eqb q SQUOTE) (Ascii.eqb q DQUOTE)) inner = true →
  is_separator sep = true →
  read_word ctx tok
  = (negb (str_is_empty inner), snprintf_s inner,
     if Ascii.eqb sep LF then with_eol_reached true (with_buffer rest ctx)
     else with_buffer rest ctx).
Proof.
  intros Heol Hbuf Hlead Hq Hinner Hsep. unfold read_word. rewrite Heol.
  remember (S (String.length (buffer ctx))) as n eqn:Hfuel.
  rewrite skip_lead_fuel by lia.
  destruct (quote_plain q Hq) as [Hb Hn].
  assert (Hs : skip_str (buffer ctx) = (q, inner +:+ String q (String sep rest))).
  { rewrite Hbuf, str_app_cons. by apply skip_str_blanks. }
  rewrite Hs. cbn [fst snd].
  rewrite read_word_loop_fuel.
  2:{ cbn [buffer with_buffer fst snd]. rewrite Hfuel, Hbuf, str_app_cons.
      rewrite !str_length_app. cbn [String.length]. rewrite ?str_length_app. cbn [String.length]. lia. }
  cbn [buffer with_buffer].
  pose proof (is_separator_not_nul sep Hsep) as Hsn.
  assert (Hw : word_str (inner +:+ String q (String sep rest)) q false false EmptyString
    = (sep, snprintf_s inner, rest)).
  { rewrite word_str_quote_opens by done. destruct inner as [|i inner].
    - rewrite str_app_nil_l, Hn, word_str_quote_closes by done.
      rewrite Hsn, word_str_separator by done. by rewrite <-str_add_empty.
    - rewrite str_app_cons.
      assert (Hi : Ascii.eqb i NUL = false).
      { cbn [str_all] in Hinner. apply andb_prop in Hinner as [Hi _].
        unfold literal in Hi. apply andb_prop in Hi as [Hi _].
        by apply negb_true_iff in Hi. }
      rewrite Hi, (word_str_literal inner _ i _ _ EmptyString Hinner), Hn.
      rewrite word_str_quote_closes by done.
      rewrite Hsn, word_str_separator by done. by rewrite str_add_empty. }
  rewrite Hw. rewrite update_state_separator by done.
  assert (He : str_is_empty (snprintf_s inner) = str_is_empty inner).
  { destruct inner; [done|]. by rewrite snprintf_s_nonempty. }
  rewrite He. by destruct (Ascii.eqb sep LF).
Qed.

Lemma read_word_quoted_witness :
  read_word (context_init " 'a b' c") uninit_token
  = (true, snprintf_s "a b", with_buffer "c" (context_init " 'a b' c")).
Proof.
  exact (read_word_quoted (context_init " 'a b' c") uninit_token " " SQUOTE "a b"
           " " "c" eq_refl eq_refl eq_refl (or_introl eq_refl) eq_refl eq_refl).
Defined.

Lemma eol_str_newline line rest :
  str_all in_line line = true → eol_str (line +:+ String LF rest) = (rest, false).
Proof.
  induction line as [|c line IH]; intros Hall.
  { by rewrite str_app_nil_l. }
  cbn [str_all] in Hall. apply andb_prop in Hall as [Hc Hall].
  unfold in_line in Hc. apply andb_prop in Hc as [Hn Hl].
  apply negb_true_iff in Hn, Hl. rewrite str_app_cons. cbn [eol_str].
  rewrite Hn, Hl. by apply IH.
Qed.

Lemma eol_str_last line :
  str_all in_line line = true → eol_str line = (EmptyString, true).
Proof.
  induction line as [|c line IH]; intros Hall; [done|].
  cbn [str_all] in Hall. apply andb_prop in Hall as [Hc Hall].
  unfold in_line in Hc. apply andb_prop in Hc as [Hn Hl].
  apply negb_true_iff in Hn, Hl. cbn [eol_str]. rewrite Hn, Hl. by apply IH.
Qed.

(** X6: [context_goto_eol] moves the reader behind the next newline and
    parks both replay positions; on the last line it stops at the
    terminator and sets [eof_reached]; when the end of the line was
    already reached it leaves the buffer alone, so that a second call
    skips no further line. *)
Theorem context_goto_eol_next_line (ctx : context) (line rest : string) :
  str_all in_line line = true →
  (eol_reached ctx = false → buffer ctx = line +:+ String LF rest →
   context_goto_eol ctx
   = with_it_i SIZE_MAX (with_var_i SIZE_MAX
       (with_eol_reached true (with_buffer rest ctx))))
  ∧ (eol_reached ctx = false → buffer ctx = line →
     context_goto_eol ctx
     = with_it_i SIZE_MAX (with_var_i SIZE_MAX
         (with_eol_reached true (with_eof_reached true
            (with_buffer EmptyString ctx)))))
  ∧ (eol_reached ctx = true →
     context_goto_eol ctx = with_it_i SIZE_MAX (with_var_i SIZE_MAX ctx))
  ∧ context_goto_eol (context_goto_eol ctx) = context_goto_eol ctx.
Proof.
  intros Hline.
  assert (Hdone : ∀ c, eol_reached c = true →
    context_goto_eol c = with_it_i SIZE_MAX (with_var_i SIZE_MAX c)).
  { intros c He. unfold context_goto_eol. cbn [goto_eol_loop]. by rewrite He. }
  split; [|split; [|split]].
  - intros Heol Hbuf. unfold context_goto_eol.
    rewrite goto_eol_loop_fuel by (done || lia).
    by rewrite Hbuf, eol_str_newline.
  - intros Heol Hbuf. unfold context_goto_eol.
    rewrite goto_eol_loop_fuel by (done || lia).
    by rewrite Hbuf, eol_str_last.
  - apply Hdone.
  - rewrite (Hdone (context_goto_eol ctx)) by apply context_goto_eol_reached.
    done.
Qed.

Lemma context_goto_eol_next_line_witness :
  context_goto_eol (context_init ("a b" +:+ String LF "c d"))
  = with_it_i SIZE_MAX (with_var_i SIZE_MAX
      (with_eol_reached true
         (with_buffer "c d" (context_init ("a b" +:+ String LF "c d"))))).
Proof.
  destruct (context_goto_eol_next_line (context_init ("a b" +:+ String LF "c d"))
              "a b" "c d" eq_refl) as [Hnext _].
  exact (Hnext eq_refl eq_refl).
Defined.

Lemma goto_eol_loop_var_group n c : var_group (goto_eol_loop n c) = var_group c.
Proof.
  revert c. induction n as [|n IH]; intros c; [done|]. cbn [goto_eol_loop].
  destruct (eol_reached c); [done|].
  destruct (read_char c) as [ch c1] eqn:Hr. rewrite IH.
  assert (Hc1 : var_group c1 = var_group c).
  { unfold read_char in Hr. repeat case_match; by simplify_eq. }
  rewrite <-Hc1. unfold update_state. by repeat case_match.
Qed.

(** X7: after [context_goto_eol] no token is left on the line: the raw
    reader delivers INVALID and leaves the token and the context as they
    are, whatever the replay groups hold (a group has fewer than
    [SIZE_MAX] words). *)
Theorem context_goto_eol_ends_line (ctx : context) (tok : string) :
  cbook_group_length (vars ctx) (var_group ctx) ≤ SIZE_MAX →
  cbook_group_length (iteration ctx) (it_group ctx) ≤ SIZE_MAX →
  context_get_token_raw (context_goto_eol ctx) tok
  = (TOKEN_INVALID, tok, context_goto_eol ctx).
Proof.
  intros Hv Hi. unfold context_get_token_raw.
  destruct (frame_fields _ _ (context_goto_eol_frame ctx))
    as (_ & _ & _ & _ & _ & Hg & _ & _ & Hvars & _ & Hit & _).
  rewrite Hvars, Hit, Hg.
  assert (Hvg : var_group (context_goto_eol ctx) = var_group ctx)
    by apply goto_eol_loop_var_group.
  rewrite Hvg.
  change (var_i (context_goto_eol ctx)) with SIZE_MAX.
  change (it_i (context_goto_eol ctx)) with SIZE_MAX.
  destruct (N.ltb_spec SIZE_MAX (cbook_group_length (vars ctx) (var_group ctx)));
    [lia|].
  destruct (N.ltb_spec SIZE_MAX (cbook_group_length (iteration ctx) (it_group ctx)));
    [lia|].
  unfold read_word. by rewrite context_goto_eol_reached.
Qed.

Lemma context_goto_eol_ends_line_witness :
  context_get_token_raw (context_goto_eol (context_init "a b")) uninit_token
  = (TOKEN_INVALID, uninit_token, context_goto_eol (context_init "a b")).
Proof.
  apply (context_goto_eol_ends_line (context_init "a b") uninit_token);
    by vm_compute.
Defined.

(** ** Invariants of the resource store *)

Lemma frame_resources c c' : frame c' = frame c → resources c' = resources c.
Proof.
  intros Hf. destruct (frame_fields _ _ Hf)
    as (_ & _ & _ & _ & _ & _ & Hs & Hk & _).
  unfold resources. by rewrite Hs, Hk.
Qed.

Lemma tokens_of_while_token `{Platform} fuel b ctx tok n m c' :
  while_token fuel write_sequences (with_sequences b ctx) tok n = Some (m, c') →
  ∃ vs c, tokens_until_invalid fuel ctx tok = Some (vs, c)
    ∧ m = n + N.of_nat (length vs)
    ∧ c' = with_sequences (fold_left cbook_write vs b) c.
Proof.
  rewrite while_token_write_sequences.
  destruct (tokens_until_invalid fuel ctx tok) as [[vs c]|]; [|done].
  cbn. intros [= <- <-]. by exists vs, c.
Qed.

(** What a call of [declare_resource] that returns has done. *)
Lemma declare_resource_returns `{Platform} fuel ctx namespace c' :
  declare_resource fuel ctx namespace = Some c' →
  let r := context_get_token ctx uninit_token None in
  (r_type r = TOKEN_INVALID ∧ c' = r_ctx r)
  ∨ (r_type r ≠ TOKEN_INVALID
     ∧ ∃ vs c, tokens_until_invalid fuel (r_ctx r) uninit_token = Some (vs, c)
         ∧ c' = with_keys_sequences
                  (resource_store namespace (r_token r) vs (sequences ctx)
                     (keys_sequences ctx)).2
                  (with_sequences
                     (resource_store namespace (r_token r) vs (sequences ctx)
                        (keys_sequences ctx)).1 c)).
Proof.
  intros Hrun r. destruct (is_invalid (r_type r)) eqn:Hty.
  - left. apply is_invalid_true in Hty. split; [done|].
    unfold declare_resource in Hrun. fold r in Hrun. rewrite Hty in Hrun.
    by injection Hrun as <-.
  - right. apply is_invalid_false in Hty. split; [done|].
    assert (Hw := Hrun). unfold declare_resource in Hw. fold r in Hw.
    apply is_invalid_false in Hty. rewrite Hty in Hw. apply is_invalid_false in Hty.
    destruct (while_token _ _ _ _ _) as [[n c1]|] eqn:Hloop; [|done].
    destruct (tokens_of_while_token _ _ _ _ _ _ _ Hloop) as (vs & c & Htok & _ & _).
    exists vs, c. split; [done|].
    rewrite (declare_resource_store fuel ctx namespace vs c Hty Htok) in Hrun.
    by injection Hrun as <-.
Qed.

Section ResourceInvariant.
Context `{Platform}.

(** A property of the resource store that [declare_resource] and the
    child parse keep. *)
Variable Q : cbook → gmap (string * N) N → Prop.
Hypothesis Q_declare : ∀ fuel c namespace c',
  Q (sequences c) (keys_sequences c) →
  declare_resource fuel c namespace = Some c' → Q (sequences c') (keys_sequences c').
Hypothesis Q_child : ∀ c f,
  Q (sequences c) (keys_sequences c) →
  Q (sequences (source_parse_child c f)) (keys_sequences (source_parse_child c f)).

Local Abbreviation holds := (resources_satisfy Q).

Lemma holds_resources c c' : resources c' = resources c → holds c → holds c'.
Proof. unfold resources_satisfy, resources. by intros [= -> ->]. Qed.

Lemma holds_frame c c' : frame c' = frame c → holds c → holds c'.
Proof. intros Hf. by apply holds_resources, frame_resources. Qed.

Lemma holds_get_token c t m : holds c → holds (r_ctx (context_get_token c t m)).
Proof. apply holds_frame, context_get_token_frame. Qed.

Lemma holds_get_token_numeral c t d :
  holds c → holds (r_ctx (context_get_token_numeral c t d)).
Proof.
  apply holds_frame, get_token_numeral_frame. intros. apply context_get_token_frame.
Qed.

Lemma while_token_holds fuel body ctx tok n m c' :
  (∀ v c, holds c → holds (body v c)) →
  holds ctx → while_token fuel body ctx tok n = Some (m, c') → holds c'.
Proof.
  intros Hbody. apply (while_token_invariant holds); [|done].
  intros c t mr. apply holds_get_token.
Qed.

Lemma combine_var_loop_holds fuel ctx type token_2 i j k c' :
  holds ctx → combine_var_loop fuel ctx type token_2 i j k = Some c' → holds c'.
Proof.
  revert ctx k. induction fuel as [|fuel IH]; intros ctx k Hc; [done|].
  cbn [combine_var_loop]. destruct (k <? _); [|by intros [= <-]]. by apply IH.
Qed.

Lemma declare_enum_loop_holds fuel ctx min max steps precision i c' :
  holds ctx →
  declare_enum_loop fuel ctx min max steps precision i = Some c' → holds c'.
Proof.
  revert ctx i. induction fuel as [|fuel IH]; intros ctx i Hc; [done|].
  cbn [declare_enum_loop]. destruct (_ <=? _)%float; [|by intros [= <-]].
  by apply IH.
Qed.

Lemma combine_var_holds fuel ctx type c' :
  holds ctx → combine_var fuel ctx type = Some c' → holds c'.
Proof.
  intros Hc. unfold combine_var. destruct (restricted ctx); [by intros [= <-]|].
  pose proof (holds_get_token ctx uninit_token None Hc) as H0.
  set (r0 := context_get_token ctx uninit_token None) in *.
  pose proof (holds_get_token (r_ctx r0) uninit_token None H0) as H1.
  set (r1 := context_get_token (r_ctx r0) uninit_token None) in *.
  pose proof (holds_get_token (r_ctx r1) uninit_token None H1) as H2.
  set (r2 := context_get_token (r_ctx r1) uninit_token None) in *.
  destruct (is_invalid (r_type r0)); [by intros [= <-]|].
  destruct (is_invalid (r_type r1)); [by intros [= <-]|].
  destruct (is_invalid (r_type r2)); [by intros [= <-]|].
  cbv zeta. destruct (cdict_find _ _ _) as [i|]; [|by intros [= <-]].
  destruct (if token_eqb type TOKEN_VAR_MERGE then _ else _) as [j|];
    [|by intros [= <-]].
  destruct (combine_var_loop _ _ _ _ _ _ _) as [c1|] eqn:Hloop; [|done].
  cbn [mbind option_bind]. intros [= <-].
  by apply combine_var_loop_holds in Hloop.
Qed.

Lemma declare_variable_holds fuel ctx c' :
  holds ctx → declare_variable fuel ctx = Some c' → holds c'.
Proof.
  intros Hc. unfold declare_variable. destruct (restricted ctx); [by intros [= <-]|].
  pose proof (holds_get_token ctx uninit_token None Hc) as H0.
  destruct (is_invalid _); [by intros [= <-]|]. cbv zeta.
  destruct (while_token _ _ _ _ _) as [[n c1]|] eqn:Hloop; [|done].
  cbn [mbind option_bind]. apply while_token_holds in Hloop; [|done|done].
  by destruct (n =? 0); intros [= <-].
Qed.

Lemma declare_enum_holds fuel ctx c' :
  holds ctx → declare_enum fuel ctx = Some c' → holds c'.
Proof.
  intros Hc. unfold declare_enum. destruct (restricted ctx); [by intros [= <-]|]. cbv zeta.
  pose proof (holds_get_token ctx uninit_token None Hc) as H0.
  generalize dependent (context_get_token ctx uninit_token None). intros r0 H0.
  pose proof (holds_get_token_numeral (r_ctx r0) uninit_token (stack_double ctx 0%nat) H0) as H1.
  generalize dependent (context_get_token_numeral (r_ctx r0) uninit_token (stack_double ctx 0%nat)).
  intros r1 H1.
  pose proof (holds_get_token_numeral (r_ctx r1) (r_token r1) (stack_double ctx 1%nat) H1) as H2.
  generalize dependent (context_get_token_numeral (r_ctx r1) (r_token r1) (stack_double ctx 1%nat)).
  intros r2 H2.
  pose proof (holds_get_token_numeral (r_ctx r2) (r_token r2) (stack_double ctx 2%nat) H2) as H3.
  generalize dependent (context_get_token_numeral (r_ctx r2) (r_token r2) (stack_double ctx 2%nat)).
  intros r3 H3.
  pose proof (holds_get_token_numeral (r_ctx r3) (r_token r3) (stack_double ctx 3%nat) H3) as H4.
  generalize dependent (context_get_token_numeral (r_ctx r3) (r_token r3) (stack_double ctx 3%nat)).
  intros r4 H4. cbv zeta.
  assert (Hrun : ∀ min max steps precision,
    (if (steps <? 1)%float || (double_of_uint SIZE_MAX <=? steps)%float
        || (precision <? 0)%float
     then Some (r_ctx r4)
     else
       ctx1 ← declare_enum_loop fuel
         (with_vars (cbook_prepare_new_group (vars (r_ctx r4))) (r_ctx r4))
         min max steps (if (16 <? precision)%float then 16%float else precision) 0;
       Some (with_keys_vars
         (cdict_write (keys_vars ctx1) (r_token r0) CONTEXT_DICT_VARIABLE
            (size_pred (cbook_groups_number (vars ctx1)))) ctx1)) = Some c' →
    holds c').
  { intros min max steps precision. destruct (_ || _); [by intros [= <-]|].
    destruct (declare_enum_loop _ _ _ _ _ _ _) as [c1|] eqn:Hloop; [|done].
    cbn [mbind option_bind]. intros [= <-].
    by apply declare_enum_loop_holds in Hloop. }
  destruct (_ + _)%nat as [|[|[|[|[|n]]]]];
    first [ apply Hrun | intros [= <-]; exact H4 ].
Qed.

Lemma print_holds fuel ctx c' : holds ctx → print fuel ctx = Some c' → holds c'.
Proof.
  intros Hc. unfold print. destruct (restricted ctx); [by intros [= <-]|].
  destruct (while_token _ _ _ _ _) as [[n c1]|] eqn:Hloop; [|done].
  cbn [mbind option_bind]. intros [= <-].
  by apply while_token_holds in Hloop.
Qed.

Lemma section_add_holds fuel ctx c' :
  holds ctx → section_add fuel ctx = Some c' → holds c'.
Proof.
  intros Hc. unfold section_add. destruct (restricted ctx); [by intros [= <-]|].
  destruct (while_token _ _ _ _ _) as [[n c1]|] eqn:Hloop; [|done].
  cbn. intros [= <-]. by apply while_token_holds in Hloop.
Qed.

Lemma section_del_holds fuel ctx c' :
  holds ctx → section_del fuel ctx = Some c' → holds c'.
Proof.
  intros Hc. unfold section_del. destruct (restricted ctx); [by intros [= <-]|].
  destruct (while_token _ _ _ _ _) as [[n c1]|] eqn:Hloop; [|done].
  cbn. intros [= <-]. by apply while_token_holds in Hloop.
Qed.

Lemma section_begin_holds fuel ctx c' :
  holds ctx → section_begin fuel ctx = Some c' → holds c'.
Proof.
  unfold section_begin. destruct (restricted ctx); [by intros ? [= <-]|].
  generalize uninit_token. revert ctx.
  induction fuel as [|fuel IH]; intros ctx tok Hc; [done|].
  cbn [section_begin_loop].
  pose proof (holds_get_token ctx tok None Hc) as H0.
  destruct (is_invalid _); [by intros [= <-]|].
  destruct (cdict_find _ _ _); [by apply IH|by intros [= <-]].
Qed.

Lemma seed_holds ctx : holds ctx → holds (seed ctx).
Proof.
  intros Hc. unfold seed. destruct (restricted ctx); [done|].
  pose proof (holds_get_token_numeral ctx uninit_token uninit_double Hc) as H0.
  by destruct (is_invalid _).
Qed.

Lemma include_holds fuel ctx c' : holds ctx → include fuel ctx = Some c' → holds c'.
Proof.
  intros Hc. unfold include. destruct (_ || _); [by intros [= <-]|].
  destruct (while_token _ _ _ _ _) as [[n c1]|] eqn:Hloop; [|done].
  cbn. intros [= <-]. apply while_token_holds in Hloop; [done| |done].
  intros v c. unfold include_file. destruct (negb _); apply Q_child.
Qed.

Lemma iterate_holds parse fuel ctx c' :
  (∀ c c', holds c → parse c = Some c' → holds c') →
  holds ctx → iterate parse fuel ctx = Some c' → holds c'.
Proof.
  intros Hparse Hc. unfold iterate. destruct (restricted ctx); [by intros [= <-]|].
  pose proof (holds_get_token ctx uninit_token None Hc) as H1.
  set (r1 := context_get_token ctx uninit_token None) in *.
  pose proof (holds_get_token (r_ctx r1) uninit_token None H1) as H2.
  set (r2 := context_get_token (r_ctx r1) uninit_token None) in *.
  clearbody r1 r2.
  destruct (is_invalid (r_type r1)); [by intros [= <-]|].
  destruct (cdict_find _ _ _) as [i|]; [|by intros [= <-]].
  cbv zeta. destruct (cdict_find _ _ _); [by intros [= <-]|].
  destruct (iterate_preproc _ _) as [[[[gs ge] fail] c1]|] eqn:Hpre; [|done].
  cbn [mbind option_bind].
  assert (H3 : holds c1).
  { destruct (book_frame_fields _ _ (iterate_preproc_book_frame _ _ _ _ _ _ Hpre))
      as (_ & _ & Hs & Hk & _). unfold resources_satisfy. by rewrite Hs, Hk. }
  assert (Hgroups : ∀ fuel c ge c', holds c →
    iterate_groups parse fuel c ge = Some c' → holds c').
  { clear -Hparse. intros fuel. induction fuel as [|fuel IH]; intros c ge c' Hc; [done|].
    cbn [iterate_groups]. destruct (_ <? _); [|by intros [= <-]].
    destruct (parse _) as [c1|] eqn:Hp; [|done]. cbn [mbind option_bind].
    apply IH. change (holds c1).
    apply (Hparse (with_it_i 0 c)); [exact Hc|exact Hp]. }
  assert (Hvalues : ∀ count c name k c', holds c →
    iterate_values parse fuel count c name i gs ge k = Some c' → holds c').
  { intros count. induction count as [|count IH]; intros c name k c2 Hc2; [done|].
    cbn [iterate_values]. destruct (_ <? _); [|by intros [= <-]].
    destruct (iterate_groups _ _ _ _) as [c3|] eqn:Hg; [|done].
    cbn [mbind option_bind]. apply IH. apply Hgroups in Hg; [exact Hg|exact Hc2]. }
  destruct fail.
  - cbn [mbind option_bind]. intros [= <-]. by destruct (negb _).
  - destruct (iterate_values _ _ _ _ _ _ _ _ _) as [c2|] eqn:Hval; [|done].
    cbn [mbind option_bind]. intros [= <-]. apply Hvalues in Hval; [|done].
    by destruct (negb _).
Qed.

Lemma sequence_parse_holds fuel ctx c' :
  holds ctx → sequence_parse fuel ctx = Some c' → holds c'.
Proof.
  revert ctx c'. induction fuel as [|fuel IH]; intros ctx c' Hc; [done|].
  rewrite sequence_parse_unfold.
  destruct (_ <=? _)%nat; [by intros [= <-]|].
  pose proof (holds_get_token (depth_enter ctx) uninit_token None Hc) as H0.
  set (r := context_get_token (depth_enter ctx) uninit_token None) in *.
  clearbody r. cbv zeta.
  set (type := if _ && _ then TOKEN_INVALID else r_type r). clearbody type.
  assert (Hh : ∀ c1, holds c1 → holds (depth_leave (context_goto_eol c1))).
  { intros c1. apply (holds_frame c1 (context_goto_eol c1)), context_goto_eol_frame. }
  destruct type;
    match goal with
    | |- (?h ≫= _) = _ → _ => destruct h as [c1|] eqn:Hrun; [|done]
    end; cbn [mbind option_bind]; intros [= <-]; apply Hh;
    first
      [ by eapply Q_declare
      | by eapply combine_var_holds
      | by eapply declare_variable_holds
      | by eapply declare_enum_holds
      | by eapply section_begin_holds
      | by eapply section_add_holds
      | by eapply section_del_holds
      | by eapply include_holds
      | by eapply print_holds
      | by eapply (iterate_holds (sequence_parse fuel)); [intros ? ? ? ?; eapply IH|..]
      | injection Hrun as <-; first [done | by apply seed_holds] ].
Qed.

Lemma source_parse_loop_holds fuel ctx c' :
  holds ctx → source_parse_loop fuel ctx = Some c' → holds c'.
Proof.
  revert ctx. induction fuel as [|fuel IH]; intros ctx Hc; [done|].
  cbn [source_parse_loop]. destruct (eof_reached ctx); [by intros [= <-]|].
  destruct (sequence_parse _ _) as [c1|] eqn:Hp; [|done]. cbn [mbind option_bind].
  apply IH. by apply sequence_parse_holds in Hp.
Qed.

End ResourceInvariant.

Lemma declare_resource_wf `{Platform} fuel c namespace c' :
  sequences_wf (sequences c) (keys_sequences c) →
  declare_resource fuel c namespace = Some c' →
  sequences_wf (sequences c') (keys_sequences c').
Proof.
  intros Hwf Hrun.
  destruct (declare_resource_returns _ _ _ _ Hrun) as [[_ ->]|(_ & vs & c1 & _ & ->)].
  - destruct (frame_fields _ _ (context_get_token_frame c uninit_token None))
      as (_ & _ & _ & _ & _ & _ & -> & -> & _). done.
  - pose proof (resource_store_wf namespace
      (r_token (context_get_token c uninit_token None)) vs _ _ Hwf) as Hwf'.
    by destruct (resource_store _ _ _ _ _) as [b' k'].
Qed.

(** X8: the resource store is well formed in every context that a parse
    reaches from a well-formed one, and the empty store is: the
    identifier of a namespace is not 0, a property key leads to a group
    of the book, and no two property keys lead to the same group.  The
    child parse of an included file is assumed to keep the store well
    formed. *)
Theorem sequences_wf_invariant `{Platform} :
  (∀ c f, sequences_wf (sequences c) (keys_sequences c) →
     sequences_wf (sequences (source_parse_child c f))
       (keys_sequences (source_parse_child c f))) →
  sequences_wf cbook_empty ∅
  ∧ (∀ fuel ctx namespace c',
       sequences_wf (sequences ctx) (keys_sequences ctx) →
       declare_resource fuel ctx namespace = Some c' →
       sequences_wf (sequences c') (keys_sequences c'))
  ∧ (∀ fuel ctx c',
       sequences_wf (sequences ctx) (keys_sequences ctx) →
       sequence_parse fuel ctx = Some c' →
       sequences_wf (sequences c') (keys_sequences c')).
Proof.
  intros Hchild. split.
  { repeat split; intros *; cbn; by rewrite ?lookup_empty. }
  split; [apply @declare_resource_wf|].
  intros fuel ctx c'.
  apply (sequence_parse_holds sequences_wf (@declare_resource_wf _) Hchild).
Qed.

Lemma sequences_wf_invariant_witness :
  ∃ c', sequence_parse 20 redeclaration_context = Some c'
    ∧ sequences_wf (sequences c') (keys_sequences c')
    ∧ groups (sequences c') = [["a"]; ["d"]].
Proof.
  destruct (@sequences_wf_invariant sample_platform) as (_ & _ & Hline).
  { intros c f Hwf. exact Hwf. }
  destruct (sequence_parse 20 redeclaration_context) as [c'|] eqn:Hrun;
    [|by vm_compute in Hrun].
  exists c'. split; [done|]. split.
  - eapply Hline; [|exact Hrun]. apply redeclaration_context_wf.
  - vm_compute in Hrun. injection Hrun as <-. vm_compute. reflexivity.
Defined.

Lemma resource_store_groups namespace name vs b k :
  groups (resource_store namespace name vs b k).1
  = match vs with [] => groups b | _ => groups b ++ [vs] end.
Proof.
  destruct vs as [|v vs]; [done|]. by rewrite resource_store_cons.
Qed.

Lemma declare_resource_words_fit `{Platform} fuel c namespace c' :
  words_fit (sequences c) (keys_sequences c) →
  declare_resource fuel c namespace = Some c' →
  words_fit (sequences c') (keys_sequences c').
Proof.
  unfold words_fit. intros Hfit Hrun.
  destruct (declare_resource_returns _ _ _ _ Hrun)
    as [[_ ->]|(_ & vs & c1 & Htok & ->)].
  - destruct (frame_fields _ _ (context_get_token_frame c uninit_token None))
      as (_ & _ & _ & _ & _ & _ & -> & _). done.
  - cbn [sequences with_sequences with_keys_sequences].
    rewrite resource_store_groups.
    apply tokens_until_invalid_fit in Htok; [|unfold fits, uninit_token; cbn; lia].
    destruct vs; [done|]. apply Forall_app. split; [done|]. by constructor.
Qed.

(** X9: no stored resource value overflows a token buffer: when every word
    of the sequences book has at most [TOKEN_MAX_LEN - 1] characters, so
    has every word after a resource declaration and after a line.  The
    child parse of an included file is assumed to keep this. *)
Theorem resource_values_fit `{Platform} :
  (∀ c f, words_fit (sequences c) (keys_sequences c) →
     words_fit (sequences (source_parse_child c f))
       (keys_sequences (source_parse_child c f))) →
  (∀ fuel ctx namespace c',
     Forall (Forall fits) (groups (sequences ctx)) →
     declare_resource fuel ctx namespace = Some c' →
     Forall (Forall fits) (groups (sequences c')))
  ∧ (∀ fuel ctx c',
       Forall (Forall fits) (groups (sequences ctx)) →
       sequence_parse fuel ctx = Some c' →
       Forall (Forall fits) (groups (sequences c'))).
Proof.
  intros Hchild. split; [apply @declare_resource_words_fit|].
  intros fuel ctx c'.
  apply (sequence_parse_holds words_fit (@declare_resource_words_fit _) Hchild).
Qed.

Lemma resource_values_fit_witness :
  ∃ c', sequence_parse 30 (context_init ("ns p " +:+ long_word)) = Some c'
    ∧ Forall (Forall fits) (groups (sequences c'))
    ∧ map (map String.length) (groups (sequences c')) = [[1023%nat]].
Proof.
  destruct (@resource_values_fit sample_platform) as (_ & Hline).
  { intros c f Hfit. exact Hfit. }
  destruct (sequence_parse 30 (context_init ("ns p " +:+ long_word)))
    as [c'|] eqn:Hrun; [|by vm_compute in Hrun].
  exists c'. split; [done|]. split.
  - eapply Hline; [|exact Hrun]. constructor.
  - vm_compute in Hrun. injection Hrun as <-. vm_compute. reflexivity.
Defined.

(** X10: a resource declaration leaves the rest of the store alone: the
    groups that the book had keep their index and their words, a
    namespace that had an identifier keeps it, and every entry of the
    dictionary other than the identifier of the namespace and the
    declared property is as before. *)
Theorem declare_resource_keeps_others `{Platform} (fuel : nat) (ctx : context)
    (namespace : string) (v : string) (vs : list string) (c : context) :
  let r := context_get_token ctx uninit_token None in
  sequences_wf (sequences ctx) (keys_sequences ctx) →
  r_type r ≠ TOKEN_INVALID →
  tokens_until_invalid fuel (r_ctx r) uninit_token = Some (v :: vs, c) →
  ∃ ctx' id,
    declare_resource fuel ctx namespace = Some ctx'
    ∧ id ≠ 0
    ∧ keys_sequences ctx' !! (namespace, 0) = Some id
    ∧ keys_sequences ctx' !! (r_token r, id)
      = Some (cbook_groups_number (sequences ctx))
    ∧ (∀ id', keys_sequences ctx !! (namespace, 0) = Some id' → id = id')
    ∧ (∀ key, key ≠ (namespace, 0) → key ≠ (r_token r, id) →
         keys_sequences ctx' !! key = keys_sequences ctx !! key)
    ∧ (∀ g, g < cbook_groups_number (sequences ctx) →
         cbook_group (sequences ctx') g = cbook_group (sequences ctx) g)
    ∧ vars ctx' = vars ctx ∧ keys_vars ctx' = keys_vars ctx.
Proof.
  intros r Hwf Hty Htok.
  pose proof (declare_resource_store fuel ctx namespace (v :: vs) c Hty Htok) as Hrun.
  fold r in Hrun. rewrite resource_store_cons in Hrun. cbn [fst snd] in Hrun.
  pose proof (namespace_id_ne_0 namespace _ _ Hwf) as Hne.
  eexists. exists (namespace_id namespace (sequences ctx) (keys_sequences ctx)).
  split; [exact Hrun|]. split; [exact Hne|].
  cbn [keys_sequences sequences vars keys_vars with_keys_sequences with_sequences].
  split; [|split; [|split; [|split; [|split]]]].
  - rewrite lookup_insert_ne by congruence.
    unfold namespace_id, cdict_find.
    destruct (keys_sequences ctx !! (namespace, 0)) as [i|] eqn:Hi; [done|].
    by rewrite lookup_insert_eq.
  - by rewrite lookup_insert_eq.
  - intros id' Hid. unfold namespace_id, cdict_find. by rewrite Hid.
  - intros key Hk1 Hk2. rewrite lookup_insert_ne by done.
    destruct (cdict_find _ _ _); [done|]. by rewrite lookup_insert_ne.
  - intros g Hg. by eapply cbook_group_app_l.
  - destruct (frame_fields _ _ (tokens_until_invalid_frame _ _ _ _ _ Htok))
      as (_ & _ & _ & _ & _ & _ & _ & _ & Hv & Hk & _).
    destruct (frame_fields _ _ (context_get_token_frame ctx uninit_token None))
      as (_ & _ & _ & _ & _ & _ & _ & _ & Hv' & Hk' & _).
    fold r in Hv', Hk'. by rewrite Hv, Hk, Hv', Hk'.
Qed.

Lemma declare_resource_keeps_others_witness :
  ∃ ctx', declare_resource 8 redeclaration_context "other" = Some ctx'
    ∧ keys_sequences ctx' !! ("ns", 0) = Some 1
    ∧ cbook_group (sequences ctx') 0 = ["a"].
Proof.
  destruct (declare_resource_keeps_others 8 redeclaration_context "other" "c" ["d"]
    (with_depth_peak 1 (with_eof_reached true (with_eol_reached true
       (with_buffer EmptyString redeclaration_context)))))
    as (ctx' & id & Hrun & Hid & _ & _ & _ & Hkeys & Hgroups & _).
  - apply redeclaration_context_wf.
  - by vm_compute.
  - vm_compute. reflexivity.
  - exists ctx'. split; [exact Hrun|]. split.
    + rewrite Hkeys; [vm_compute; reflexivity|congruence|congruence].
    + rewrite Hgroups; [vm_compute; reflexivity|vm_compute; reflexivity].
Defined.

(** ** Section tags *)

Lemma while_token_values_keys `{Platform} fuel body step ctx tok vs c :
  (∀ v c, keys_vars (body v c) = step (keys_vars c) v) →
  (∀ v c, variables_frame (with_keys_vars (keys_vars c) (body v c)) = variables_frame c
          ∧ resources (body v c) = resources c) →
  while_token_values fuel body ctx tok = Some (vs, c) →
  keys_vars c = fold_left step vs (keys_vars ctx)
  ∧ vars c = vars ctx ∧ restricted c = restricted ctx
  ∧ skip_sequences c = skip_sequences ctx ∧ resources c = resources ctx.
Proof.
  intros Hstep Hbody. revert ctx tok vs.
  induction fuel as [|fuel IH]; intros ctx tok vs; [done|].
  cbn [while_token_values].
  pose proof (context_get_token_frame ctx tok None) as Hf.
  destruct (frame_fields _ _ Hf) as (_ & _ & _ & Hs & Hr & _ & _ & _ & Hv & Hk & _).
  pose proof (frame_resources _ _ Hf) as Hres.
  set (r := context_get_token ctx tok None) in *. clearbody r.
  destruct (is_invalid (r_type r)).
  { intros [= <- <-]. by rewrite Hs, Hr, Hv, Hk, Hres. }
  destruct (while_token_values fuel _ _ _) as [[vs' c']|] eqn:Hrec; [|done].
  cbn. intros [= <- <-]. destruct (IH _ _ _ Hrec) as (Hk' & Hv' & Hr' & Hs' & Hres').
  destruct (Hbody (r_token r) (r_ctx r)) as [Hb1 Hb2].
  apply variables_frame_fields in Hb1 as (Hbr & Hbs & Hbv & _).
  cbn [restricted skip_sequences vars with_keys_vars] in Hbr, Hbs, Hbv.
  rewrite Hk', Hv', Hr', Hs', Hres', Hstep, Hbr, Hbs, Hbv, Hb2.
  cbn [fold_left]. by rewrite Hk, Hs, Hr, Hv, Hres.
Qed.

Lemma fold_insert_lookup (g0 : context_dict) (tags : list string)
    (k : gmap (string * context_dict) N) t g :
  fold_left (λ k t, <[(t, g0) := 0]> k) tags k !! (t, g)
  = if bool_decide (g = g0 ∧ t ∈ tags) then Some 0 else k !! (t, g).
Proof.
  revert k. induction tags as [|t0 tags IH]; intros k; cbn [fold_left].
  { rewrite bool_decide_eq_false_2; [done|]. intros [_ Hin]. by apply elem_of_nil in Hin. }
  rewrite IH. destruct (decide (g = g0 ∧ t ∈ tags)) as [Hin|Hout].
  - rewrite !bool_decide_eq_true_2; [done| |done]. destruct Hin. split; [done|].
    by apply elem_of_cons; right.
  - rewrite (bool_decide_eq_false_2 _ Hout).
    destruct (decide ((t0, g0) = (t, g))) as [[= -> ->]|Hk].
    + rewrite lookup_insert_eq, bool_decide_eq_true_2; [done|].
      split; [done|]. by apply elem_of_cons; left.
    + rewrite lookup_insert_ne by done. rewrite bool_decide_eq_false_2; [done|].
      intros [-> [->|Hin]%elem_of_cons]; [done|]. by apply Hout.
Qed.

Lemma fold_delete_lookup (g0 : context_dict) (tags : list string)
    (k : gmap (string * context_dict) N) t g :
  fold_left (λ k t, delete (t, g0) k) tags k !! (t, g)
  = if bool_decide (g = g0 ∧ t ∈ tags) then None else k !! (t, g).
Proof.
  revert k. induction tags as [|t0 tags IH]; intros k; cbn [fold_left].
  { rewrite bool_decide_eq_false_2; [done|]. intros [_ Hin]. by apply elem_of_nil in Hin. }
  rewrite IH. destruct (decide (g = g0 ∧ t ∈ tags)) as [Hin|Hout].
  - rewrite !bool_decide_eq_true_2; [done| |done]. destruct Hin. split; [done|].
    by apply elem_of_cons; right.
  - rewrite (bool_decide_eq_false_2 _ Hout).
    destruct (decide ((t0, g0) = (t, g))) as [[= -> ->]|Hk].
    + rewrite lookup_delete_eq, bool_decide_eq_true_2; [done|].
      split; [done|]. by apply elem_of_cons; left.
    + rewrite lookup_delete_ne by done. rewrite bool_decide_eq_false_2; [done|].
      intros [-> [->|Hin]%elem_of_cons]; [done|]. by apply Hout.
Qed.

(** X11: SECTION_ADD registers each of its tokens under SECTION: after it
    every listed tag is registered, the registration of any other tag and
    the entries under VARIABLE and ITERATION are as before, and neither
    book has changed. *)
Theorem section_add_registers `{Platform} (fuel : nat) (ctx : context)
    (tags : list string) (c : context) :
  restricted ctx = false →
  while_token_values fuel section_add_tag ctx uninit_token = Some (tags, c) →
  section_add fuel ctx = Some c
  ∧ (∀ t, t ∈ tags → section_registered (keys_vars c) t = true)
  ∧ (∀ t, t ∉ tags →
       section_registered (keys_vars c) t = section_registered (keys_vars ctx) t)
  ∧ (∀ t g, g ≠ CONTEXT_DICT_SECTION →
       cdict_find (keys_vars c) t g = cdict_find (keys_vars ctx) t g)
  ∧ vars c = vars ctx ∧ sequences c = sequences ctx
  ∧ keys_sequences c = keys_sequences ctx.
Proof.
  intros Hres Hvals. unfold section_add. rewrite Hres, while_token_count, Hvals.
  split; [done|].
  destruct (while_token_values_keys fuel section_add_tag
    (λ k t, <[(t, CONTEXT_DICT_SECTION) := 0]> k) ctx uninit_token tags c)
    as (Hk & Hv & _ & _ & Hr); [done|done|done|].
  unfold section_registered, cdict_find. rewrite Hk.
  injection Hr as Hseq Hkeys.
  split; [|split; [|split; [|done]]].
  - intros t Hin. rewrite fold_insert_lookup, bool_decide_eq_true_2; done.
  - intros t Hout. rewrite fold_insert_lookup, bool_decide_eq_false_2; [done|].
    by intros [_ ?].
  - intros t g Hg. rewrite fold_insert_lookup, bool_decide_eq_false_2; [done|].
    by intros [? _].
Qed.

Lemma section_add_registers_witness :
  ∃ c, section_add 8 (context_init " dark wide") = Some c
    ∧ section_registered (keys_vars c) "dark" = true
    ∧ section_registered (keys_vars c) "wide" = true
    ∧ section_registered (keys_vars c) "light" = false.
Proof.
  destruct (while_token_values 8 section_add_tag (context_init " dark wide")
    uninit_token) as [[tags c]|] eqn:Hvals; [|by vm_compute in Hvals].
  destruct (section_add_registers 8 (context_init " dark wide") tags c eq_refl Hvals)
    as (Hrun & Hin & Hout & _).
  assert (Htags : tags = ["dark"; "wide"]).
  { vm_compute in Hvals. by injection Hvals as <- _. }
  subst tags. exists c. split; [done|]. split; [|split].
  - apply Hin. apply elem_of_cons. by left.
  - apply Hin. apply elem_of_cons. right. apply elem_of_cons. by left.
  - rewrite Hout; [vm_compute; reflexivity|].
    rewrite !elem_of_cons, elem_of_nil. intros [?|[?|[]]]; discriminate.
Defined.

(** X12: SECTION_DEL erases the registration of each of its tokens and of no
    other tag; the entries under VARIABLE and ITERATION and both books
    are as before. *)
Theorem section_del_unregisters `{Platform} (fuel : nat) (ctx : context)
    (tags : list string) (c : context) :
  restricted ctx = false →
  while_token_values fuel section_del_tag ctx uninit_token = Some (tags, c) →
  section_del fuel ctx = Some c
  ∧ (∀ t, t ∈ tags → section_registered (keys_vars c) t = false)
  ∧ (∀ t, t ∉ tags →
       section_registered (keys_vars c) t = section_registered (keys_vars ctx) t)
  ∧ (∀ t g, g ≠ CONTEXT_DICT_SECTION →
       cdict_find (keys_vars c) t g = cdict_find (keys_vars ctx) t g)
  ∧ vars c = vars ctx ∧ sequences c = sequences ctx
  ∧ keys_sequences c = keys_sequences ctx.
Proof.
  intros Hres Hvals. unfold section_del. rewrite Hres, while_token_count, Hvals.
  split; [done|].
  destruct (while_token_values_keys fuel section_del_tag
    (λ k t, delete (t, CONTEXT_DICT_SECTION) k) ctx uninit_token tags c)
    as (Hk & Hv & _ & _ & Hr); [done|done|done|].
  unfold section_registered, cdict_find. rewrite Hk.
  injection Hr as Hseq Hkeys.
  split; [|split; [|split; [|done]]].
  - intros t Hin. rewrite fold_delete_lookup, bool_decide_eq_true_2; done.
  - intros t Hout. rewrite fold_delete_lookup, bool_decide_eq_false_2; [done|].
    by intros [_ ?].
  - intros t g Hg. rewrite fold_delete_lookup, bool_decide_eq_false_2; [done|].
    by intros [? _].
Qed.

Lemma section_del_unregisters_witness :
  ∃ c, section_del 8 (sections_context " dark") = Some c
    ∧ section_registered (keys_vars c) "dark" = false
    ∧ section_registered (keys_vars c) "wide" = true.
Proof.
  destruct (while_token_values 8 section_del_tag (sections_context " dark")
    uninit_token) as [[tags c]|] eqn:Hvals; [|by vm_compute in Hvals].
  destruct (section_del_unregisters 8 (sections_context " dark") tags c eq_refl Hvals)
    as (Hrun & Hin & Hout & _).
  assert (Htags : tags = ["dark"]).
  { vm_compute in Hvals. by injection Hvals as <- _. }
  subst tags. exists c. split; [done|]. split.
  - apply Hin. apply elem_of_cons. by left.
  - rewrite Hout; [vm_compute; reflexivity|].
    rewrite !elem_of_cons, elem_of_nil. intros [?|[]]; discriminate.
Defined.

(** ** PRINT *)

Lemma transparent_with_stderr_log l : transparent (with_stderr_log l).
Proof. by split. Qed.

Lemma context_get_token_transparent `{Platform} phi c t m :
  transparent phi →
  context_get_token (phi c) t m = map_result phi (context_get_token c t m).
Proof.
  intros Hphi. unfold context_get_token. rewrite (tr_depth _ Hphi).
  apply get_token_fuel_tr; [done|lia..].
Qed.

Lemma while_token_print `{Platform} fuel l ctx tok n :
  while_token fuel print_token (with_stderr_log l ctx) tok n
  = '(vs, c) ← tokens_until_invalid fuel ctx tok;
    Some (n + N.of_nat (length vs),
          with_stderr_log
            (l ++ map (λ t, t +:+ String "," (String TAB EmptyString)) vs) c).
Proof.
  revert l ctx tok n. induction fuel as [|fuel IH]; intros l ctx tok n; [done|].
  cbn [while_token tokens_until_invalid].
  rewrite (context_get_token_transparent _ _ _ _ (transparent_with_stderr_log l)).
  cbn [map_result r_type r_token r_ctx].
  destruct (is_invalid (r_type (context_get_token ctx tok None))).
  { cbn. by rewrite N.add_0_r, app_nil_r. }
  change (print_token ?v (with_stderr_log l ?c))
    with (with_stderr_log
            (l ++ [v +:+ String "," (String TAB EmptyString)]) c).
  rewrite IH.
  destruct (tokens_until_invalid fuel _ _) as [[vs c]|]; [|done].
  cbn. rewrite <-app_assoc. do 2 f_equal. rewrite Nat2N.inj_succ. lia.
Qed.

Lemma with_stderr_log_same c : with_stderr_log (stderr_log c) c = c.
Proof. by destruct c. Qed.

(** X13: PRINT appends to the diagnostic output the tokens of the rest of
    the line, each followed by a comma and a tabulation, and a newline;
    apart from the output, the context is the one that reading the
    tokens leaves, so that no book and no dictionary changes. *)
Theorem print_writes_tokens `{Platform} (fuel : nat) (ctx : context)
    (vs : list string) (c : context) :
  restricted ctx = false →
  tokens_until_invalid fuel ctx uninit_token = Some (vs, c) →
  print fuel ctx = Some (with_stderr_log (stderr_log ctx ++ print_line vs) c)
  ∧ vars c = vars ctx ∧ keys_vars c = keys_vars ctx
  ∧ sequences c = sequences ctx ∧ keys_sequences c = keys_sequences ctx.
Proof.
  intros Hres Htok. split.
  - unfold print. rewrite Hres. rewrite <-(with_stderr_log_same ctx) at 1.
    rewrite while_token_print, Htok. cbn [mbind option_bind].
    cbn [stderr_log with_stderr_log]. unfold print_line. by rewrite <-app_assoc.
  - destruct (frame_fields _ _ (tokens_until_invalid_frame _ _ _ _ _ Htok))
      as (_ & _ & _ & _ & _ & _ & Hs & Hks & Hv & Hk & _). done.
Qed.

Lemma print_writes_tokens_witness :
  stderr_log <$> print 8 (context_init " a b")
  = Some ["a" +:+ String "," (String TAB EmptyString);
          "b" +:+ String "," (String TAB EmptyString); String LF EmptyString].
Proof.
  destruct (print_writes_tokens 8 (context_init " a b") ["a"; "b"]
    (with_depth_peak 1 (with_eof_reached true (with_eol_reached true
       (context_init EmptyString))))) as [-> _];
    [reflexivity|vm_compute; reflexivity|].
  reflexivity.
Defined.

(** ** Declarations that declare nothing *)

(** X14: a variable declaration with no name, or with a name and no value,
    declares nothing: the groups of the variable book and its dictionary
    are as before, so that a variable of that name keeps its values. *)
Theorem declare_variable_without_values `{Platform} (fuel : nat) (ctx : context) :
  let r := context_get_token ctx uninit_token None in
  restricted ctx = false →
  (r_type r = TOKEN_INVALID → declare_variable fuel ctx = Some (r_ctx r))
  ∧ (∀ c, r_type r ≠ TOKEN_INVALID →
       while_token_values fuel write_vars
         (with_vars (cbook_prepare_new_group (vars (r_ctx r))) (r_ctx r)) uninit_token
       = Some ([], c) →
       declare_variable fuel ctx = Some (with_vars (cbook_undo_new_group (vars c)) c)
       ∧ groups (vars c) = groups (vars ctx)
       ∧ keys_vars c = keys_vars ctx)
  ∧ groups (vars (r_ctx r)) = groups (vars ctx)
  ∧ keys_vars (r_ctx r) = keys_vars ctx.
Proof.
  intros r Hres.
  destruct (frame_fields _ _ (context_get_token_frame ctx uninit_token None))
    as (_ & _ & _ & _ & _ & _ & _ & _ & Hv & Hk & _). fold r in Hv, Hk.
  unfold declare_variable. rewrite Hres. fold r.
  split; [by intros ->|]. split; [|by rewrite Hv, Hk].
  intros c Hty%is_invalid_false Hvals. rewrite Hty, while_token_count, Hvals.
  split; [done|].
  destruct (while_token_values_write_vars _ _ _ _ _ Hvals) as [Hk' Hv'].
  cbn [fold_left vars keys_vars with_vars] in Hk', Hv'.
  by rewrite Hv', Hk', Hk, Hv.
Qed.

Lemma declare_variable_without_values_witness :
  ∃ c', declare_variable 8 (with_buffer " p" redeclaration_context) = Some c'
    ∧ variable_values c' "p" = Some ["a"].
Proof.
  destruct (declare_variable_without_values 8 (with_buffer " p" redeclaration_context))
    as (_ & Hempty & _); [reflexivity|].
  destruct (Hempty
    (with_vars (Cbook [["a"]] true)
       (with_depth_peak 1 (with_eof_reached true (with_eol_reached true
          (with_buffer EmptyString redeclaration_context))))))
    as (Hrun & _); [by vm_compute|vm_compute; reflexivity|].
  eexists. split; [exact Hrun|]. vm_compute. reflexivity.
Defined.

(** ** The end of a dispatched line *)

(** X15: below the depth limit, whenever [sequence_parse] returns from a
    line, the line is consumed to its end: [eol_reached] is set and both
    replay positions are parked, so that the raw reader delivers INVALID
    and changes nothing until the caller starts a new line.  This is a
    statement about the runs that return; that every line returns is
    not stated (the hypothesis [sequence_parse fuel ctx = Some c'] picks
    the runs that do). *)
Theorem sequence_parse_ends_line `{Platform} (fuel : nat) (ctx c' : context) :
  (depth ctx < CONTEXT_MAX_DEPTH)%nat →
  sequence_parse fuel ctx = Some c' →
  eol_reached c' = true ∧ var_i c' = SIZE_MAX ∧ it_i c' = SIZE_MAX
  ∧ (∀ tok,
       cbook_group_length (vars c') (var_group c') ≤ SIZE_MAX →
       cbook_group_length (iteration c') (it_group c') ≤ SIZE_MAX →
       context_get_token_raw c' tok = (TOKEN_INVALID, tok, c')).
Proof.
  intros Hd. destruct fuel as [|fuel]; [done|]. rewrite sequence_parse_unfold.
  destruct (Nat.leb_spec CONTEXT_MAX_DEPTH (depth ctx)) as [?|_]; [lia|]. cbv zeta.
  match goal with
  | |- (?h ≫= _) = _ → _ => destruct h as [c1|]; [|done]
  end.
  cbn [mbind option_bind]. intros [= <-].
  assert (He : eol_reached (depth_leave (context_goto_eol c1)) = true)
    by apply context_goto_eol_reached.
  split; [exact He|]. split; [done|]. split; [done|].
  intros tok Hv Hi. unfold context_get_token_raw.
  change (var_i (depth_leave (context_goto_eol c1))) with SIZE_MAX.
  change (it_i (depth_leave (context_goto_eol c1))) with SIZE_MAX.
  destruct (N.ltb_spec SIZE_MAX (cbook_group_length
    (vars (depth_leave (context_goto_eol c1)))
    (var_group (depth_leave (context_goto_eol c1))))); [lia|].
  destruct (N.ltb_spec SIZE_MAX (cbook_group_length
    (iteration (depth_leave (context_goto_eol c1)))
    (it_group (depth_leave (context_goto_eol c1))))); [lia|].
  unfold read_word. by rewrite He.
Qed.

Lemma sequence_parse_ends_line_witness :
  ∃ c', sequence_parse 20 (context_init (text ["ns p a"; "ns q b"])) = Some c'
    ∧ eol_reached c' = true
    ∧ buffer c' = text ["ns q b"]
    ∧ context_get_token_raw c' uninit_token = (TOKEN_INVALID, uninit_token, c').
Proof.
  destruct (sequence_parse 20 (context_init (text ["ns p a"; "ns q b"])))
    as [c'|] eqn:Hrun; [|by vm_compute in Hrun].
  destruct (sequence_parse_ends_line 20 (context_init (text ["ns p a"; "ns q b"])) c')
    as (He & _ & _ & Hraw); [vm_compute; lia|exact Hrun|].
  exists c'. split; [done|]. split; [exact He|].
  vm_compute in Hrun. injection Hrun as <-. split; [vm_compute; reflexivity|].
  apply Hraw; vm_compute; discriminate.
Defined.

(** ** Combined variables *)

Lemma grown_group old b g :
  grown old b → g < N.of_nat (length old) →
  cbook_group b g = default [] (lookupN old g).
Proof.
  intros [[extra Hp] _] Hg. unfold cbook_group. rewrite Hp.
  by rewrite lookupN_app_l.
Qed.

Lemma grown_word old b g k :
  grown old b → g < N.of_nat (length old) →
  cbook_word_in_group b g k = cbook_word_in_group (Cbook old false) g k.
Proof.
  intros Hgr Hg. unfold cbook_word_in_group. rewrite (grown_group old b g Hgr Hg).
  done.
Qed.

Lemma combine_var_loop_writes `{Platform} fuel type token_2 i j old vs :
  lookupN old i = Some vs → j < N.of_nat (length old) →
  ∀ m c k,
  grown old (vars c) → (k + m = length vs)%nat → (m < fuel)%nat →
  combine_var_loop fuel c type token_2 i j (N.of_nat k)
  = Some (with_vars
      (fold_left cbook_write
         (map (λ k', combined type token_2 (Cbook old false) i j (N.of_nat k'))
            (seq k m)) (vars c)) c).
Proof.
  intros Hi Hj.
  assert (Hilt : i < N.of_nat (length old)).
  { unfold lookupN in Hi. by destruct (N.ltb_spec i (N.of_nat (length old))). }
  intros m. revert fuel. induction m as [|m IH]; intros fuel c k Hgr Hk Hfuel.
  - destruct fuel as [|fuel]; [lia|]. cbn [combine_var_loop seq map fold_left].
    unfold cbook_group_length. rewrite (grown_group old _ i Hgr Hilt), Hi.
    cbn [default from_option id].
    destruct (N.ltb_spec (N.of_nat k) (N.of_nat (length vs))); [lia|].
    by destruct c.
  - destruct fuel as [|fuel]; [lia|]. cbn [combine_var_loop seq map fold_left].
    unfold cbook_group_length. rewrite (grown_group old _ i Hgr Hilt), Hi.
    cbn [default from_option id].
    destruct (N.ltb_spec (N.of_nat k) (N.of_nat (length vs))) as [_|?]; [|lia].
    replace (N.of_nat k + 1) with (N.of_nat (S k)) by lia.
    rewrite IH; [|by apply cbook_write_grown|lia|lia].
    f_equal. change (with_vars ?b (write_vars ?w c)) with (with_vars b c).
    apply (f_equal (λ b, with_vars b c)). cbn [vars write_vars with_vars].
    apply (f_equal (fold_left cbook_write _)), (f_equal (cbook_write (vars c))).
    unfold combined. rewrite !(grown_word old (vars c)) by done. done.
Qed.

(** X16: VAR_APPEND, VAR_PREPEND and VAR_MERGE declare a variable with one
    value for each value of the source variable, in order: the source
    value followed by the suffix, preceded by the prefix, or followed by
    the value of the same rank of the second variable.  The values are
    a new group of the variable book, and the name leads to it. *)
Theorem combine_var_values `{Platform} (fuel : nat) (ctx : context) (type : token)
    (i j : N) (v : string) (vs : list string) :
  let r0 := context_get_token ctx uninit_token None in
  let r1 := context_get_token (r_ctx r0) uninit_token None in
  let r2 := context_get_token (r_ctx r1) uninit_token None in
  let values :=
    map (λ k, combined type (r_token r2) (vars ctx) i j (N.of_nat k))
      (seq 0 (length (v :: vs))) in
  restricted ctx = false →
  r_type r0 ≠ TOKEN_INVALID → r_type r1 ≠ TOKEN_INVALID →
  r_type r2 ≠ TOKEN_INVALID →
  cdict_find (keys_vars ctx) (r_token r1) CONTEXT_DICT_VARIABLE = Some i →
  (if token_eqb type TOKEN_VAR_MERGE
   then cdict_find (keys_vars ctx) (r_token r2) CONTEXT_DICT_VARIABLE = Some j
   else j = 0) →
  lookupN (groups (vars ctx)) i = Some (v :: vs) →
  j < cbook_groups_number (vars ctx) →
  (length (v :: vs) < fuel)%nat →
  ∃ ctx',
    combine_var fuel ctx type = Some ctx'
    ∧ groups (vars ctx') = groups (vars ctx) ++ [values]
    ∧ keys_vars ctx'
      = <[(r_token r0, CONTEXT_DICT_VARIABLE) := cbook_groups_number (vars ctx)]>
          (keys_vars ctx)
    ∧ variable_values ctx' (r_token r0) = Some values.
Proof.
  intros r0 r1 r2 values Hres H0 H1 H2 Hi Hj Hgroup Hjlt Hfuel.
  destruct (frame_fields _ _ (context_get_token_frame ctx uninit_token None))
    as (_ & _ & _ & _ & _ & _ & _ & _ & Hv0 & Hk0 & _). fold r0 in Hv0, Hk0.
  destruct (frame_fields _ _ (context_get_token_frame (r_ctx r0) uninit_token None))
    as (_ & _ & _ & _ & _ & _ & _ & _ & Hv1 & Hk1 & _). fold r1 in Hv1, Hk1.
  destruct (frame_fields _ _ (context_get_token_frame (r_ctx r1) uninit_token None))
    as (_ & _ & _ & _ & _ & _ & _ & _ & Hv2 & Hk2 & _). fold r2 in Hv2, Hk2.
  assert (Hv : vars (r_ctx r2) = vars ctx) by (by rewrite Hv2, Hv1, Hv0).
  assert (Hk : keys_vars (r_ctx r2) = keys_vars ctx) by (by rewrite Hk2, Hk1, Hk0).
  unfold combine_var. rewrite Hres. fold r0.
  apply is_invalid_false in H0, H1, H2. rewrite H0. fold r1. rewrite H1. fold r2.
  rewrite H2. cbv zeta. rewrite Hk, Hi.
  assert (Hjj : (if token_eqb type TOKEN_VAR_MERGE
                 then cdict_find (keys_vars ctx) (r_token r2) CONTEXT_DICT_VARIABLE
                 else Some 0) = Some j).
  { destruct (token_eqb type TOKEN_VAR_MERGE); [done|by rewrite Hj]. }
  rewrite Hjj. rewrite Hv.
  pose proof (combine_var_loop_writes fuel type (r_token r2) i j (groups (vars ctx))
    (v :: vs) Hgroup Hjlt (length (v :: vs))
    (with_vars (cbook_prepare_new_group (vars ctx)) (r_ctx r2)) 0%nat) as Hloop.
  change (N.of_nat 0) with 0 in Hloop. rewrite Hloop; [|by split; [|left]|done|done].
  cbn [mbind option_bind vars keys_vars with_vars with_keys_vars].
  assert (Hsame : ∀ k, combined type (r_token r2) (Cbook (groups (vars ctx)) false) i j k
                       = combined type (r_token r2) (vars ctx) i j k) by done.
  rewrite (map_ext _ _ (λ k', Hsame (N.of_nat k'))).
  fold values.
  assert (Hvalues : ∃ w ws, values = w :: ws).
  { unfold values. cbn [length seq map]. eauto. }
  destruct Hvalues as (w & ws & Hw). rewrite Hw, cbook_write_group by done.
  cbn [groups cbook_prepare_new_group]. rewrite <-Hw.
  eexists. split; [done|]. cbn [vars keys_vars with_keys_vars].
  unfold cbook_groups_number. cbn [groups]. rewrite length_app. cbn [length].
  rewrite Nat2N.inj_add. change (N.of_nat 1) with 1. rewrite size_pred_succ.
  split; [done|]. split; [by rewrite Hk|].
  unfold variable_values, cdict_find, cdict_write. cbn [vars keys_vars with_keys_vars].
  rewrite lookup_insert_eq. cbn [mbind option_bind groups]. apply lookupN_snoc.
Qed.

Lemma combine_var_values_witness :
  ∃ c', combine_var 8 (with_buffer " q v .png" (iterate_context EmptyString))
          TOKEN_VAR_APPEND = Some c'
    ∧ variable_values c' "q" = Some ["a.png"; "b.png"].
Proof.
  destruct (combine_var_values 8 (with_buffer " q v .png" (iterate_context EmptyString))
    TOKEN_VAR_APPEND 0 0 "a" ["b"]) as (c' & Hrun & _ & _ & Hvalues);
    [reflexivity|by vm_compute|by vm_compute|by vm_compute|vm_compute; reflexivity
    |reflexivity|reflexivity|vm_compute; reflexivity|vm_compute; lia|].
  exists c'. split; [exact Hrun|].
  assert (Hname : r_token (context_get_token
    (with_buffer " q v .png" (iterate_context EmptyString)) uninit_token None) = "q")
    by (vm_compute; reflexivity).
  rewrite Hname in Hvalues. rewrite Hvalues. vm_compute. reflexivity.
Defined.

(** ** Comments, the end-of-file token and line continuation *)

Lemma is_blank_not_newline sep : is_blank sep = true → Ascii.eqb sep LF = false.
Proof.
  destruct (Ascii.eqb sep LF) eqn:Hl; [|done]. apply Ascii.eqb_eq in Hl as ->.
  by vm_compute.
Qed.

Lemma is_blank_separator sep : is_blank sep = true → is_separator sep = true.
Proof. unfold is_separator. by intros ->. Qed.

Lemma substitution_apply_comment `{Platform} c t m :
  token_match t = TOKEN_COMMENT →
  let r := substitution_apply c t m in
  r_type r = TOKEN_INVALID ∧ buffer (r_ctx r) = buffer c
  ∧ eol_reached (r_ctx r) = eol_reached c ∧ eof_reached (r_ctx r) = eof_reached c.
Proof.
  intros Hm. unfold substitution_apply, dr_subtitution_apply.
  destruct (_ <=? _)%nat; [done|]. unfold substitution_switch. by rewrite Hm.
Qed.

(** X17: a line whose first word is the comment token is skipped: the
    reader moves behind the newline, and the books, the dictionaries,
    the flags and the depth are as before. *)
Theorem comment_line_is_skipped `{Platform} (fuel : nat) (ctx : context)
    (lead : string) (p : ascii) (word : string) (sep : ascii) (line rest : string) :
  (depth ctx < CONTEXT_MAX_DEPTH)%nat →
  reads_buffer ctx → eol_reached ctx = false →
  buffer ctx = lead +:+ String p word +:+ String sep (line +:+ String LF rest) →
  str_all is_blank lead = true →
  str_all (literal false false) (String p word) = true →
  is_blank sep = true →
  str_all in_line line = true →
  token_match (snprintf_s (String p word)) = TOKEN_COMMENT →
  ∃ c',
    sequence_parse (S fuel) ctx = Some c'
    ∧ buffer c' = rest ∧ eol_reached c' = true
    ∧ eof_reached c' = eof_reached ctx
    ∧ sequences c' = sequences ctx ∧ keys_sequences c' = keys_sequences ctx
    ∧ vars c' = vars ctx ∧ keys_vars c' = keys_vars ctx
    ∧ iteration c' = iteration ctx
    ∧ skip_sequences c' = skip_sequences ctx ∧ restricted c' = restricted ctx
    ∧ depth c' = depth ctx.
Proof.
  intros Hd Hrb Heol Hbuf Hlead Hword Hsep Hline Hm.
  rewrite sequence_parse_unfold.
  destruct (Nat.leb_spec CONTEXT_MAX_DEPTH (depth ctx)) as [?|_]; [lia|].
  pose proof (context_get_token_frame (depth_enter ctx) uninit_token None) as Hf.
  assert (Hl : r_type (context_get_token (depth_enter ctx) uninit_token None)
               = TOKEN_INVALID
    ∧ buffer (r_ctx (context_get_token (depth_enter ctx) uninit_token None))
      = line +:+ String LF rest
    ∧ eol_reached (r_ctx (context_get_token (depth_enter ctx) uninit_token None))
      = false
    ∧ eof_reached (r_ctx (context_get_token (depth_enter ctx) uninit_token None))
      = eof_reached ctx).
  { rewrite context_get_token_unfold.
    rewrite (context_get_token_raw_plain (depth_enter ctx) uninit_token lead p word sep
      (line +:+ String LF rest)); try done; [|by apply is_blank_separator].
    rewrite (is_blank_not_newline sep Hsep). cbn [is_invalid].
    destruct (substitution_apply_comment (with_buffer (line +:+ String LF rest)
      (depth_enter ctx)) (snprintf_s (String p word)) None Hm) as (-> & -> & -> & ->).
    done. }
  set (l := context_get_token (depth_enter ctx) uninit_token None) in *.
  destruct Hl as (Hty & Hb & He & Hf').
  cbv zeta. rewrite Hty. cbn [token_eqb negb]. 
  replace (if _ && _ then TOKEN_INVALID else TOKEN_INVALID) with TOKEN_INVALID
    by (by destruct (_ && _)).
  cbn [mbind option_bind]. eexists. split; [done|].
  unfold context_goto_eol. rewrite goto_eol_loop_fuel by (done || lia).
  rewrite Hb, eol_str_newline by done.
  cbn [depth_leave buffer eol_reached eof_reached sequences keys_sequences vars
       keys_vars iteration skip_sequences restricted depth with_depth with_it_i
       with_var_i with_eol_reached with_buffer id].
  destruct (frame_fields _ _ Hf)
    as (_ & _ & Hdp & Hsk & Hr & _ & Hs & Hks & Hv & Hk & Hi & _).
  rewrite Hf', Hs, Hks, Hv, Hk, Hi, Hsk, Hr, Hdp. by repeat split.
Qed.

Lemma comment_line_is_skipped_witness :
  ∃ c', sequence_parse 5 (context_init ("// a note" +:+ String LF "ns p v")) = Some c'
    ∧ buffer c' = "ns p v" ∧ sequences c' = cbook_empty.
Proof.
  assert (Hd : (depth (context_init ("// a note" +:+ String LF "ns p v"))
                < CONTEXT_MAX_DEPTH)%nat) by (vm_compute; lia).
  assert (Hr : reads_buffer (context_init ("// a note" +:+ String LF "ns p v")))
    by (split; reflexivity).
  assert (Hm : token_match (snprintf_s "//") = TOKEN_COMMENT)
    by (vm_compute; reflexivity).
  destruct (comment_line_is_skipped 4 (context_init ("// a note" +:+ String LF "ns p v"))
    EmptyString "/" "/" " " "a note" "ns p v" Hd Hr eq_refl eq_refl eq_refl eq_refl
    eq_refl eq_refl Hm)
    as (c' & Hrun & Hbuf & _ & _ & Hseq & _).
  exists c'. split; [exact Hrun|]. split; [exact Hbuf|exact Hseq].
Defined.

Lemma reads_buffer_same c c' :
  vars c' = vars c → var_group c' = var_group c → var_i c' = var_i c →
  iteration c' = iteration c → it_group c' = it_group c → it_i c' = it_i c →
  reads_buffer c → reads_buffer c'.
Proof. unfold reads_buffer. by intros -> -> -> -> -> ->. Qed.

(** X18: the end-of-file token, met as the first word of a line below the
    depth limit, raises both end flags: nothing of this line or of the
    rest of the buffer is declared, and the books, the dictionaries and
    the flags are as before. *)
Theorem eof_token_ends_input `{Platform} (fuel : nat) (ctx : context)
    (lead : string) (p : ascii) (word : string) (sep : ascii) (rest : string) :
  (depth ctx + 1 < CONTEXT_MAX_DEPTH)%nat →
  reads_buffer ctx → eol_reached ctx = false →
  buffer ctx = lead +:+ String p word +:+ String sep rest →
  str_all is_blank lead = true →
  str_all (literal false false) (String p word) = true →
  is_separator sep = true →
  token_match (snprintf_s (String p word)) = TOKEN_EOF →
  ∃ c',
    sequence_parse (S fuel) ctx = Some c'
    ∧ eof_reached c' = true ∧ eol_reached c' = true ∧ buffer c' = rest
    ∧ sequences c' = sequences ctx ∧ keys_sequences c' = keys_sequences ctx
    ∧ vars c' = vars ctx ∧ keys_vars c' = keys_vars ctx
    ∧ iteration c' = iteration ctx
    ∧ skip_sequences c' = skip_sequences ctx ∧ restricted c' = restricted ctx
    ∧ depth c' = depth ctx.
Proof.
  intros Hd Hrb Heol Hbuf Hlead Hword Hsep Hm.
  rewrite sequence_parse_unfold.
  destruct (Nat.leb_spec CONTEXT_MAX_DEPTH (depth ctx)) as [?|_]; [lia|].
  pose proof (context_get_token_frame (depth_enter ctx) uninit_token None) as Hf.
  assert (Hl : r_type (context_get_token (depth_enter ctx) uninit_token None)
               = TOKEN_INVALID
    ∧ buffer (r_ctx (context_get_token (depth_enter ctx) uninit_token None)) = rest
    ∧ eol_reached (r_ctx (context_get_token (depth_enter ctx) uninit_token None))
      = true
    ∧ eof_reached (r_ctx (context_get_token (depth_enter ctx) uninit_token None))
      = true).
  { rewrite context_get_token_unfold.
    rewrite (context_get_token_raw_plain (depth_enter ctx) uninit_token lead p word sep
      rest); try done.
    cbn [is_invalid]. unfold substitution_apply, dr_subtitution_apply.
    assert (Hdepth : ∀ c, depth c = depth (depth_enter ctx) →
      (CONTEXT_MAX_DEPTH <=? depth c)%nat = false).
    { intros c ->. apply Nat.leb_gt. cbn [depth_enter depth with_depth with_depth_peak].
      lia. }
    rewrite Hdepth by (by destruct (Ascii.eqb sep LF)).
    unfold substitution_switch. rewrite Hm. by destruct (Ascii.eqb sep LF). }
  set (l := context_get_token (depth_enter ctx) uninit_token None) in *.
  destruct Hl as (Hty & Hb & He & Hf').
  cbv zeta. rewrite Hty. cbn [token_eqb negb].
  replace (if _ && _ then TOKEN_INVALID else TOKEN_INVALID) with TOKEN_INVALID
    by (by destruct (_ && _)).
  cbn [mbind option_bind]. eexists. split; [done|].
  unfold context_goto_eol. cbn [goto_eol_loop]. rewrite He.
  cbn [depth_leave buffer eol_reached eof_reached sequences keys_sequences vars
       keys_vars iteration skip_sequences restricted depth with_depth with_it_i
       with_var_i with_eol_reached with_buffer].
  destruct (frame_fields _ _ Hf)
    as (_ & _ & Hdp & Hsk & Hr & _ & Hs & Hks & Hv & Hk & Hi & _).
  rewrite Hf', He, Hb, Hs, Hks, Hv, Hk, Hi, Hsk, Hr, Hdp. by repeat split.
Qed.

Lemma eof_token_ends_input_witness :
  ∃ c', sequence_parse 5 (context_init (text ["EOF"; "ns p v"])) = Some c'
    ∧ eof_reached c' = true ∧ sequences c' = cbook_empty.
Proof.
  assert (Hd : (depth (context_init (text ["EOF"; "ns p v"])) + 1
                < CONTEXT_MAX_DEPTH)%nat) by (vm_compute; lia).
  assert (Hr : reads_buffer (context_init (text ["EOF"; "ns p v"])))
    by (split; reflexivity).
  assert (Hm : token_match (snprintf_s "EOF") = TOKEN_EOF)
    by (vm_compute; reflexivity).
  destruct (eof_token_ends_input 4 (context_init (text ["EOF"; "ns p v"]))
    EmptyString "E" "OF" LF (text ["ns p v"]) Hd Hr eq_refl eq_refl eq_refl eq_refl
    eq_refl Hm)
    as (c' & Hrun & Heof & _ & _ & Hseq & _).
  exists c'. split; [exact Hrun|]. split; [exact Heof|exact Hseq].
Defined.

(** X19: the escape token makes the reader take the next word raw: the word
    comes back as a plain string whatever it spells, and when the
    escape token ends a line the word is taken from the next line,
    the end of the line being forgotten. *)
Theorem escape_reads_next_word_raw `{Platform} (ctx : context) (tok : string)
    (mr : option float) (lead : string) (e : ascii) (esc : string) (sep1 : ascii)
    (lead2 : string) (p : ascii) (word : string) (sep : ascii) (rest : string) :
  (depth ctx < CONTEXT_MAX_DEPTH)%nat →
  reads_buffer ctx → eol_reached ctx = false →
  buffer ctx = lead +:+ String e esc
               +:+ String sep1 (lead2 +:+ String p word +:+ String sep rest) →
  str_all is_blank lead = true →
  str_all (literal false false) (String e esc) = true →
  is_separator sep1 = true →
  str_all is_blank lead2 = true →
  str_all (literal false false) (String p word) = true →
  is_separator sep = true →
  token_match (snprintf_s (String e esc)) = TOKEN_ESCAPE →
  let r := context_get_token ctx tok mr in
  r_type r = TOKEN_STRING ∧ r_token r = snprintf_s (String p word) ∧ r_math r = mr
  ∧ buffer (r_ctx r) = rest ∧ eol_reached (r_ctx r) = Ascii.eqb sep LF
  ∧ depth (r_ctx r) = depth ctx.
Proof.
  intros Hd Hrb Heol Hbuf Hlead Hesc Hsep1 Hlead2 Hword Hsep Hm r. subst r.
  rewrite context_get_token_unfold.
  rewrite (context_get_token_raw_plain ctx tok lead e esc sep1
    (lead2 +:+ String p word +:+ String sep rest)); try done.
  cbn [is_invalid]. unfold substitution_apply, dr_subtitution_apply.
  set (c1 := if Ascii.eqb sep1 LF then _ else _).
  assert (Hc1 : depth c1 = depth ctx ∧ reads_buffer c1
    ∧ buffer c1 = lead2 +:+ String p word +:+ String sep rest).
  { subst c1. by destruct (Ascii.eqb sep1 LF). }
  destruct Hc1 as (Hd1 & Hr1 & Hb1).
  destruct (Nat.leb_spec CONTEXT_MAX_DEPTH (depth c1)) as [?|_]; [lia|].
  unfold substitution_switch. rewrite Hm. unfold _escape.
  rewrite (context_get_token_raw_plain (with_eol_reached false (depth_enter c1))
    (snprintf_s (String e esc)) lead2 p word sep rest); try done.
  cbn [r_type r_token r_math r_ctx].
  destruct (Ascii.eqb sep LF);
    cbn [depth_leave depth_enter buffer eol_reached depth with_depth with_depth_peak
         with_eol_reached with_buffer]; by rewrite Hd1.
Qed.

Lemma escape_reads_next_word_raw_witness :
  r_type (context_get_token (context_init (text ["\"; "  LET b"])) uninit_token None)
  = TOKEN_STRING
  ∧ r_token (context_get_token (context_init (text ["\"; "  LET b"])) uninit_token None)
    = "LET"
  ∧ buffer (r_ctx (context_get_token (context_init (text ["\"; "  LET b"]))
                     uninit_token None)) = text ["b"].
Proof.
  assert (Hd : (depth (context_init (text ["\"; "  LET b"])) < CONTEXT_MAX_DEPTH)%nat)
    by (vm_compute; lia).
  assert (Hr : reads_buffer (context_init (text ["\"; "  LET b"])))
    by (split; reflexivity).
  assert (Hm : token_match (snprintf_s "\") = TOKEN_ESCAPE)
    by (vm_compute; reflexivity).
  destruct (escape_reads_next_word_raw (context_init (text ["\"; "  LET b"]))
    uninit_token None EmptyString "\" EmptyString LF "  " "L" "ET" " " (text ["b"])
    Hd Hr eq_refl eq_refl eq_refl eq_refl eq_refl eq_refl eq_refl eq_refl Hm)
    as (Hty & Htok & _ & Hbuf & _).
  split; [exact Hty|]. split; [|exact Hbuf]. rewrite Htok. vm_compute. reflexivity.
Defined.

(** ** What reading leaves alone, and what a line never overwrites *)

Lemma frame_stores c c' : frame c' = frame c → stores c' = stores c.
Proof.
  intros Hf. destruct (frame_fields _ _ Hf)
    as (_ & _ & Hd & Hsk & Hr & _ & Hs & Hks & Hv & Hk & Hi & Hl).
  unfold stores. by rewrite Hd, Hsk, Hr, Hs, Hks, Hv, Hk, Hi, Hl.
Qed.

(** X20: reading moves the reader and nothing else: a token read with all its
    substitutions, a numeral, a raw word and a jump to the end of the
    line leave the books, the dictionaries, the mode flags, the printed
    text and the depth as they were. *)
Theorem reading_keeps_stores `{Platform} (ctx : context) (tok : string) :
  (∀ mr, stores (r_ctx (context_get_token ctx tok mr)) = stores ctx)
  ∧ (∀ d, stores (r_ctx (context_get_token_numeral ctx tok d)) = stores ctx)
  ∧ stores (context_get_token_raw ctx tok).2 = stores ctx
  ∧ stores (context_goto_eol ctx) = stores ctx.
Proof.
  split; [|split; [|split]].
  - intros mr. apply frame_stores, context_get_token_frame.
  - intros d. apply frame_stores, get_token_numeral_frame. intros.
    apply context_get_token_frame.
  - apply frame_stores, context_get_token_raw_frame.
  - apply frame_stores, context_goto_eol_frame.
Qed.

(** X21: the book of variables is only appended to: whatever a line does
    (declare, combine, enumerate, iterate, include a file whose parse
    does the same), every group of values that the book held is still
    there under its index, and the depth is the one of entry. *)
Theorem variable_book_append_only `{Platform} (fuel : nat) (ctx c' : context) :
  (∀ c f, steady c (source_parse_child c f)) →
  sequence_parse fuel ctx = Some c' →
  depth c' = depth ctx
  ∧ groups (vars ctx) `prefix_of` groups (vars c')
  ∧ ∀ i vs, groups (vars ctx) !! i = Some vs → groups (vars c') !! i = Some vs.
Proof.
  intros Hchild Hrun.
  destruct (sequence_parse_steady Hchild fuel ctx c' Hrun) as (Hd & _ & Hp).
  split; [done|]. split; [done|]. intros i vs Hi.
  by apply (prefix_lookup_Some _ _ _ _ Hi).
Qed.

Lemma variable_book_append_only_witness :
  ∃ c', sequence_parse 20 (iterate_context "LET v c") = Some c'
    ∧ groups (vars c') !! 0%nat = Some ["a"; "b"]
    ∧ variable_values c' "v" = Some ["c"].
Proof.
  destruct (sequence_parse 20 (iterate_context "LET v c")) as [c'|] eqn:Hrun;
    [|by vm_compute in Hrun].
  destruct (@variable_book_append_only sample_platform 20 (iterate_context "LET v c") c')
    as (_ & _ & Hold); [intros c f; reflexivity|exact Hrun|].
  exists c'. split; [done|]. split; [by apply Hold|].
  vm_compute in Hrun. injection Hrun as <-. vm_compute. reflexivity.
Defined.

(** ** Iteration: the body as the text holds it *)

Lemma last_cons {A} (a d : A) l : List.last (a :: l) d = List.last l a.
Proof.
  revert a d. induction l as [|b l IH]; intros a d; [done|].
  change (List.last (a :: b :: l) d) with (List.last (b :: l) d).
  by rewrite (IH b d), (IH b a).
Qed.

Lemma sized_group_length b g : sized (groups b) → cbook_group_length b g ≤ SIZE_MAX.
Proof.
  intros Hs. unfold cbook_group_length, cbook_group, lookupN.
  destruct (g <? _); cbn [default from_option id length]; [|done].
  destruct (groups b !! N.to_nat g) as [l|] eqn:Hl; cbn [default from_option id length];
    [|done].
  by apply (Forall_lookup_1 _ _ _ _ Hs Hl).
Qed.

Lemma reads_buffer_parked c :
  var_done c → it_i c = SIZE_MAX → sized (groups (iteration c)) → reads_buffer c.
Proof.
  intros Hv Hi Hs. split; [done|]. rewrite Hi. apply N.ltb_ge.
  by apply sized_group_length.
Qed.

Lemma snprintf_s_plain w : fits w → snprintf_s w = w.
Proof. intros Hf. by apply str_take_all. Qed.

(** The raw reader on a plain word followed by a separator. *)
Lemma context_get_token_raw_word c tok w sep rest :
  reads_buffer c → eol_reached c = false →
  buffer c = w +:+ String sep rest →
  plain_word w → is_separator sep = true →
  context_get_token_raw c tok
  = (TOKEN_STRING, w,
     if Ascii.eqb sep LF then with_eol_reached true (with_buffer rest c)
     else with_buffer rest c).
Proof.
  intros Hr He Hb (Hne & Hlit & Hfit) Hsep. destruct w as [|p word]; [done|].
  rewrite (context_get_token_raw_plain c tok EmptyString p word sep rest); try done.
  by rewrite snprintf_s_plain.
Qed.

Lemma read_word_end c tok :
  eol_reached c = false → buffer c = EmptyString →
  read_word c tok
  = (false, EmptyString, with_eol_reached true (with_eof_reached true c)).
Proof.
  intros He Hb. unfold read_word. rewrite He.
  remember (S (String.length (buffer c))) as n eqn:Hn.
  rewrite skip_lead_fuel by lia. rewrite Hb. cbn [skip_str fst snd].
  rewrite read_word_loop_fuel by (cbn [buffer with_buffer String.length]; lia).
  cbn [buffer with_buffer].
  change (word_str "" NUL false false "") with (NUL, EmptyString, EmptyString).
  cbn [str_is_empty negb]. rewrite with_buffer_twice.
  replace (with_buffer "" c) with c by (by rewrite <-Hb, with_buffer_same).
  reflexivity.
Qed.

Lemma render_line_cons w ws tail :
  render_line (w :: ws) +:+ tail
  = w +:+ String (match ws with [] => LF | _ :: _ => " "%char end)
            (match ws with [] => tail | _ :: _ => render_line ws +:+ tail end).
Proof.
  cbn [render_line]. rewrite str_app_assoc. by destruct ws.
Qed.

(** The rest of a line, written word by word into the group that its
    first word opened. *)
Lemma preproc_iter_line_words ws : ∀ c tok gs g tail fuel,
  var_done c → it_i c = SIZE_MAX → iteration c = Cbook (gs ++ [g]) false →
  sized gs → N.of_nat (length (g ++ ws)) ≤ SIZE_MAX →
  Forall plain_word ws → at_words ws tail c → (length ws < fuel)%nat →
  preproc_iter_line fuel c tok
  = Some (List.last ws tok,
          with_eol_reached true (with_buffer tail
            (with_iteration (Cbook (gs ++ [g ++ ws]) false) c))).
Proof.
  induction ws as [|w ws IH]; intros c tok gs g tail fuel Hv Hi Hit Hs Hlen Hws Hat Hfuel.
  - destruct fuel as [|fuel]; [cbn in Hfuel; lia|]. destruct Hat as [He Hb].
    cbn [preproc_iter_line List.last].
    assert (Hr : reads_buffer c).
    { apply reads_buffer_parked; try done. rewrite Hit. cbn [groups].
      apply Forall_app. split; [done|]. constructor; [|constructor].
      rewrite app_nil_r in Hlen. done. }
    rewrite context_get_token_raw_buffer by done. unfold read_word. rewrite He.
    cbn [is_invalid]. rewrite app_nil_r, <-Hit, <-Hb, <-He. reflexivity.
  - destruct fuel as [|fuel]; [cbn in Hfuel; lia|].
    cbn [preproc_iter_line]. apply Forall_cons in Hws as [Hw Hws].
    destruct Hat as [He Hb]. rewrite render_line_cons in Hb.
    assert (Hr : reads_buffer c).
    { apply reads_buffer_parked; try done. rewrite Hit. cbn [groups].
      apply Forall_app. split; [done|]. constructor; [|constructor].
      rewrite length_app in *. lia. }
    rewrite (context_get_token_raw_word c tok w _ _ Hr He Hb Hw) by (by destruct ws).
    cbn [is_invalid]. rewrite last_cons.
    set (c1 := if Ascii.eqb _ LF then _ else _).
    assert (Hc1 : var_done c1 ∧ it_i c1 = SIZE_MAX ∧ iteration c1 = iteration c
                  ∧ at_words ws tail c1).
    { subst c1. destruct ws as [|w' ws].
      - change (Ascii.eqb LF LF) with true. cbv iota. by repeat split.
      - change (Ascii.eqb " " LF) with false. cbv iota. by repeat split. }
    destruct Hc1 as (Hv1 & Hi1 & Hit1 & Hat1).
    rewrite (IH (write_iteration w c1) w gs (g ++ [w]) tail fuel); try done.
    + rewrite <-app_assoc. cbn [app]. do 2 f_equal.
      subst c1. by destruct (Ascii.eqb _ LF).
    + unfold write_iteration. cbn [iteration with_iteration]. rewrite Hit1, Hit.
      unfold cbook_write. cbn [new_group groups]. by rewrite append_to_last_snoc.
    + by rewrite <-app_assoc.
    + cbn [length] in Hfuel. lia.
Qed.

(** A line of text, read into a new group of the iteration book. *)
Lemma preproc_iter_line_text c tok w ws tail fuel :
  var_done c → it_i c = SIZE_MAX → sized (groups (iteration c)) →
  N.of_nat (length (w :: ws)) ≤ SIZE_MAX →
  Forall plain_word (w :: ws) → buffer c = render_line (w :: ws) +:+ tail →
  (length (w :: ws) ≤ fuel)%nat →
  ∃ c1,
    context_get_token_raw (with_eol_reached false c) tok = (TOKEN_STRING, w, c1)
    ∧ preproc_iter_line fuel
        (write_iteration w
           (with_iteration (cbook_prepare_new_group (iteration c1)) c1)) w
      = Some (List.last ws w,
              with_eol_reached true (with_buffer tail
                (with_iteration (Cbook (groups (iteration c) ++ [w :: ws]) false) c))).
Proof.
  intros Hv Hi Hs Hlen Hws Hb Hfuel. apply Forall_cons in Hws as [Hw Hws].
  rewrite render_line_cons in Hb.
  assert (Hr : reads_buffer (with_eol_reached false c)).
  { by apply reads_buffer_parked. }
  eexists. split.
  { apply (context_get_token_raw_word (with_eol_reached false c) tok w _ _ Hr eq_refl Hb Hw).
    by destruct ws. }
  set (c1 := if Ascii.eqb _ LF then _ else _).
  assert (Hc1 : var_done c1 ∧ it_i c1 = SIZE_MAX ∧ iteration c1 = iteration c
                ∧ at_words ws tail c1).
  { subst c1. destruct ws as [|w' ws].
    - change (Ascii.eqb LF LF) with true. cbv iota. by repeat split.
    - change (Ascii.eqb " " LF) with false. cbv iota. by repeat split. }
  destruct Hc1 as (Hv1 & Hi1 & Hit1 & Hat1).
  rewrite (preproc_iter_line_words ws _ w (groups (iteration c)) [w] tail fuel).
  all: try done.
  { cbn [app]. do 2 f_equal. subst c1. by destruct (Ascii.eqb _ LF). }
  unfold write_iteration. cbn [iteration with_iteration]. by rewrite Hit1.
Qed.

Lemma preproc_iter_new_loop_unfold `{Platform} fuel ctx tok n :
  preproc_iter_new_loop (S fuel) ctx tok n
  = if eof_reached ctx then Some (true, ctx)
    else
      let '(_, tok, ctx) :=
        context_get_token_raw (with_eol_reached false ctx) tok in
      let save n :=
        '(tok, ctx) ← preproc_iter_line (S fuel)
          (write_iteration tok
             (with_iteration (cbook_prepare_new_group (iteration ctx)) ctx)) tok;
        preproc_iter_new_loop fuel ctx tok n in
      match token_match tok with
      | TOKEN_FOR_BEGIN => save (n + 1)
      | TOKEN_FOR_END =>
          if n =? 0 then Some (false, context_goto_eol ctx)
          else save (n - 1)
      | TOKEN_INVALID => preproc_iter_new_loop fuel (context_goto_eol ctx) tok n
      | _ => save n
      end.
Proof. reflexivity. Qed.

(** One turn of the loop of [preproc_iter_new] on a line that does not
    close the loop: the line is saved and the nesting moves on. *)
Lemma preproc_iter_new_loop_step `{Platform} fuel c tok n n' ty w c1 :
  eof_reached c = false →
  context_get_token_raw (with_eol_reached false c) tok = (ty, w, c1) →
  token_match w ≠ TOKEN_INVALID →
  nest_step (token_match w) n = Some n' →
  preproc_iter_new_loop (S fuel) c tok n
  = '(tok', ctx) ← preproc_iter_line (S fuel)
        (write_iteration w
           (with_iteration (cbook_prepare_new_group (iteration c1)) c1)) w;
    preproc_iter_new_loop fuel ctx tok' n'.
Proof.
  intros He Hraw Hk Hn. cbn [preproc_iter_new_loop]. rewrite He, Hraw.
  destruct (token_match w); cbn [nest_step] in Hn; try done;
    try (by injection Hn as <-).
  destruct (n =? 0); [done|]. by injection Hn as <-.
Qed.

Lemma leader_kind_plain `{Platform} w ws :
  plain_word w → leader_kind (w :: ws) = token_match w.
Proof. intros (_ & _ & Hf). unfold leader_kind. cbn [hd]. by rewrite snprintf_s_plain. Qed.

(** The loop of [preproc_iter_new] over lines that do not close the
    loop: each line becomes a group of the iteration book. *)
Lemma preproc_iter_new_loop_lines `{Platform} ls : ∀ n m c tok tail fuel,
  var_done c → it_i c = SIZE_MAX → sized (groups (iteration c)) → sized ls →
  eof_reached c = false →
  Forall body_line ls → nest_after n ls = Some m →
  buffer c = render ls +:+ tail →
  Forall (λ l, (length l ≤ fuel)%nat) ls →
  ∃ tok',
    preproc_iter_new_loop (length ls + fuel) c tok n
    = preproc_iter_new_loop fuel (captured ls tail c) tok' m.
Proof.
  induction ls as [|l ls IH]; intros n m c tok tail fuel Hv Hi Hs Hsl He Hls Hn Hb Hf.
  { cbn [nest_after] in Hn. injection Hn as <-. by exists tok. }
  apply Forall_cons in Hls as [(Hne & Hws & Hk) Hls].
  apply Forall_cons in Hsl as [Hl Hsl]. apply Forall_cons in Hf as [Hfl Hf].
  destruct l as [|w ws]; [done|].
  cbn [render foldr] in Hb. rewrite str_app_assoc in Hb.
  fold (render ls) in Hb.
  cbn [nest_after] in Hn.
  destruct (nest_step (leader_kind (w :: ws)) n) as [n'|] eqn:Hstep; [|done].
  cbn [mbind option_bind] in Hn.
  assert (Hpw : plain_word w) by (by apply Forall_cons in Hws as [? _]).
  rewrite leader_kind_plain in Hstep, Hk by done.
  destruct (preproc_iter_line_text c tok w ws (render ls +:+ tail)
              (S (length ls + fuel)) Hv Hi Hs Hl Hws Hb) as (c1 & Hraw & Hline); [lia|].
  cbn [length Nat.add].
  rewrite (preproc_iter_new_loop_step _ c tok n n' _ w c1 He Hraw Hk Hstep).
  rewrite Hline. cbn [mbind option_bind].
  set (cl := with_eol_reached true _).
  destruct (IH n' m cl (List.last ws w) tail fuel) as [tok' Hrec]; try done.
  { unfold cl. cbn [iteration with_eol_reached with_buffer with_iteration groups].
    apply Forall_app. split; [done|]. by constructor. }
  exists tok'. rewrite Hrec. f_equal.
  unfold captured, capture_book, cl. destruct ls as [|l' ls]; [done|].
  cbn [iteration with_eol_reached with_buffer with_iteration groups].
  by rewrite <-app_assoc.
Qed.

Lemma parked_same c :
  var_i c = SIZE_MAX → it_i c = SIZE_MAX →
  with_it_i SIZE_MAX (with_var_i SIZE_MAX c) = c.
Proof.
  intros Hv Hi. transitivity (with_it_i (it_i c) (with_var_i (var_i c) c)).
  - by rewrite Hv, Hi.
  - reflexivity.
Qed.

Lemma context_goto_eol_done c :
  eol_reached c = true → var_i c = SIZE_MAX → it_i c = SIZE_MAX →
  context_goto_eol c = c.
Proof.
  intros He Hv Hi. unfold context_goto_eol. cbn [goto_eol_loop]. rewrite He.
  by apply parked_same.
Qed.

Lemma captured_fields ls tail c :
  var_i (captured ls tail c) = var_i c ∧ it_i (captured ls tail c) = it_i c
  ∧ vars (captured ls tail c) = vars c ∧ var_group (captured ls tail c) = var_group c
  ∧ eof_reached (captured ls tail c) = eof_reached c
  ∧ iteration (captured ls tail c) = capture_book (iteration c) ls.
Proof. by destruct ls. Qed.

Lemma capture_book_sized b ls :
  sized (groups b) → sized ls → sized (groups (capture_book b ls)).
Proof.
  intros Hb Hl. destruct ls as [|l ls]; [done|]. cbn [capture_book groups].
  by apply Forall_app.
Qed.

(** The lines of a body and the FOR_END that closes it: the body is
    captured, the reader stands behind the line of the FOR_END. *)
Lemma preproc_iter_new_loop_closed `{Platform} body e rest c tok fuel :
  var_done c → var_i c = SIZE_MAX → it_i c = SIZE_MAX →
  sized (groups (iteration c)) → sized body → eof_reached c = false →
  Forall body_line body → nest_after 0 body = Some 0 →
  plain_word e → token_match e = TOKEN_FOR_END →
  buffer c = render body +:+ render_line [e] +:+ rest →
  Forall (λ l, (length l ≤ S fuel)%nat) body →
  preproc_iter_new_loop (length body + S fuel) c tok 0
  = Some (false,
          with_eol_reached true
            (with_buffer rest (with_iteration (capture_book (iteration c) body) c))).
Proof.
  intros Hv Hvi Hi Hs Hsb He Hbody Hn He1 He2 Hb Hf.
  rewrite (render_line_cons e [] rest) in Hb.
  destruct (preproc_iter_new_loop_lines body 0 0 c tok (e +:+ String LF rest)
              (S fuel) Hv Hi Hs Hsb He Hbody Hn Hb Hf) as [tok' ->].
  destruct (captured_fields body (e +:+ String LF rest) c)
    as (Hvi' & Hi' & Hva & Hvg & He' & Hit').
  set (c' := captured body (e +:+ String LF rest) c) in *.
  assert (Hb' : buffer c' = e +:+ String LF rest).
  { unfold c', captured. destruct body; [by rewrite Hb|done]. }
  cbn [preproc_iter_new_loop]. rewrite He', He.
  assert (Hr : reads_buffer (with_eol_reached false c')).
  { apply reads_buffer_parked.
    - unfold var_done in *. cbn [var_i vars var_group with_eol_reached].
      by rewrite Hvi', Hva, Hvg.
    - cbn [it_i with_eol_reached]. by rewrite Hi'.
    - cbn [iteration with_eol_reached]. rewrite Hit'. by apply capture_book_sized. }
  rewrite (context_get_token_raw_word (with_eol_reached false c') tok' e LF rest Hr eq_refl
             Hb' He1 eq_refl).
  change (Ascii.eqb LF LF) with true. cbv iota. rewrite He2.
  change (0 =? 0) with true. cbv iota. do 2 f_equal.
  rewrite context_goto_eol_done; [|done|by rewrite <-Hvi|by rewrite <-Hi].
  unfold c', captured. destruct body; [|done].
  cbn [capture_book]. reflexivity.
Qed.

(** The lines of a body that the end of the text leaves open: the
    search fails; the context differs from the one at the end of the
    text in the iteration book only. *)
Lemma preproc_iter_new_loop_open `{Platform} body m c tok fuel :
  var_done c → var_i c = SIZE_MAX → it_i c = SIZE_MAX →
  sized (groups (iteration c)) → sized body → eof_reached c = false →
  Forall body_line body → nest_after 0 body = Some m →
  token_match EmptyString ≠ TOKEN_FOR_END →
  buffer c = render body →
  Forall (λ l, (length l ≤ S (S fuel))%nat) body →
  ∃ cx,
    preproc_iter_new_loop (length body + S (S fuel)) c tok 0 = Some (true, cx)
    ∧ ∀ b, with_iteration b cx
           = with_iteration b
               (with_eol_reached true (with_eof_reached true
                  (with_buffer EmptyString c))).
Proof.
  intros Hv Hvi Hi Hs Hsb He Hbody Hn Hk Hb Hf.
  rewrite <-(str_app_nil_r (render body)) in Hb.
  destruct (preproc_iter_new_loop_lines body 0 m c tok EmptyString
              (S (S fuel)) Hv Hi Hs Hsb He Hbody Hn Hb Hf) as [tok' ->].
  destruct (captured_fields body EmptyString c)
    as (Hvi' & Hi' & Hva & Hvg & He' & Hit').
  assert (Hc' : ∀ b, with_iteration b (with_eol_reached true (with_eof_reached true
                       (captured body EmptyString c)))
                = with_iteration b (with_eol_reached true (with_eof_reached true
                       (with_buffer EmptyString c)))).
  { intros b. unfold captured. destruct body; [|done].
    cbn [render foldr] in Hb. change ("" +:+ "") with EmptyString in Hb.
    replace (with_buffer EmptyString c) with c; [done|].
    by rewrite <-Hb, with_buffer_same. }
  assert (Hb' : buffer (captured body EmptyString c) = EmptyString).
  { unfold captured. destruct body; [by rewrite Hb|done]. }
  set (c' := captured body EmptyString c) in *.
  assert (Hv' : var_done c').
  { unfold var_done in *. by rewrite Hvi', Hva, Hvg. }
  assert (Hs' : sized (groups (iteration c'))).
  { rewrite Hit'. by apply capture_book_sized. }
  rewrite preproc_iter_new_loop_unfold. rewrite He', He.
  assert (Hr : reads_buffer (with_eol_reached false c')).
  { apply reads_buffer_parked; [done|by rewrite <-Hi|done]. }
  rewrite context_get_token_raw_buffer by done.
  rewrite (read_word_end (with_eol_reached false c') tok' eq_refl Hb'). cbv zeta.
  set (ce := with_eol_reached true (with_eof_reached true (with_eol_reached false c'))).
  assert (Hsave : ∀ n',
    ('(tok0, ctx) ← preproc_iter_line (S (S fuel))
        (write_iteration EmptyString
           (with_iteration (cbook_prepare_new_group (iteration ce)) ce)) EmptyString;
     preproc_iter_new_loop (S fuel) ctx tok0 n')
    = Some (true, write_iteration EmptyString
           (with_iteration (cbook_prepare_new_group (iteration ce)) ce))).
  { intros n'. change (preproc_iter_line (S (S fuel)) ?a ?b) with
      (let '(ty, tok, ctx) := context_get_token_raw a b in
       if is_invalid ty then Some (tok, ctx)
       else preproc_iter_line (S fuel) (write_iteration tok ctx) tok).
    set (cw := write_iteration _ _).
    assert (Hrw : reads_buffer cw).
    { apply reads_buffer_parked; [done|by rewrite <-Hi|].
      unfold cw, write_iteration, cbook_write.
      cbn [iteration with_iteration new_group cbook_prepare_new_group groups].
      apply Forall_app. split; [done|]. constructor; [|constructor]. by vm_compute. }
    rewrite context_get_token_raw_buffer by done. unfold read_word.
    change (eol_reached cw) with true. cbv iota. cbn [is_invalid mbind option_bind].
    rewrite preproc_iter_new_loop_unfold. change (eof_reached cw) with true. done. }
  destruct (token_match EmptyString) eqn:Hk0; try done.
  all: try (rewrite Hsave; eexists; split; [reflexivity|]; intros b; by rewrite <-Hc').
  - rewrite preproc_iter_new_loop_unfold.
    rewrite context_goto_eol_done; [|done|by rewrite <-Hvi|by rewrite <-Hi].
    change (eof_reached ce) with true. cbv iota.
    eexists. split; [reflexivity|]. intros b. by rewrite <-Hc'.
Qed.

(** ** Iteration: the body as the iteration book holds it *)

Lemma preproc_iter_nest_loop_unfold `{Platform} count ctx tok i n :
  preproc_iter_nest_loop (S count) ctx tok i n
  = if i <? cbook_groups_number (iteration ctx) then
      let '(_, tok, ctx) :=
        context_get_token_raw (with_it_i 0 (with_it_group i ctx)) tok in
      match token_match tok with
      | TOKEN_FOR_BEGIN => preproc_iter_nest_loop count ctx tok (i + 1) (n + 1)
      | TOKEN_FOR_END =>
          if n =? 0 then (i, false, ctx)
          else preproc_iter_nest_loop count ctx tok (i + 1) (n - 1)
      | _ => preproc_iter_nest_loop count ctx tok (i + 1) n
      end
    else (i, true, ctx).
Proof. reflexivity. Qed.

(** The raw reader on the first word of a group of the iteration book. *)
Lemma context_get_token_raw_group c tok pre l post :
  var_done c → groups (iteration c) = pre ++ l :: post → l ≠ [] →
  context_get_token_raw (with_it_i 0 (with_it_group (N.of_nat (length pre)) c)) tok
  = (TOKEN_STRING, snprintf_s (hd EmptyString l),
     with_it_i 1 (with_it_group (N.of_nat (length pre)) c)).
Proof.
  intros Hv Hg Hl. unfold context_get_token_raw.
  change (var_i (with_it_i 0 ?x) <? _) with (var_i c <? cbook_group_length (vars c) (var_group c)).
  rewrite Hv. cbn [it_i it_group iteration with_it_i with_it_group].
  assert (Hgroup : cbook_group (iteration c) (N.of_nat (length pre)) = l).
  { unfold cbook_group, lookupN. rewrite Hg, length_app. cbn [length].
    destruct (N.ltb_spec (N.of_nat (length pre)) (N.of_nat (length pre + S (length post))))
      as [_|?]; [|lia].
    by rewrite Nat2N.id, list_lookup_middle. }
  unfold cbook_group_length, cbook_word_in_group. rewrite Hgroup.
  destruct l as [|w l]; [done|]. cbn [length hd].
  destruct (N.ltb_spec 0 (N.of_nat (S (length l)))) as [_|?]; [|lia].
  unfold lookupN. cbn [length].
  destruct (N.ltb_spec 0 (N.of_nat (S (length l)))) as [_|?]; [|lia].
  reflexivity.
Qed.

(** The loop of [preproc_iter_nest] over groups that do not close the
    loop. *)
Lemma preproc_iter_nest_loop_groups `{Platform} ls : ∀ pre post n m c tok count,
  var_done c → groups (iteration c) = pre ++ ls ++ post →
  Forall (λ l, l ≠ []) ls → nest_after n ls = Some m →
  ∃ tok',
    preproc_iter_nest_loop (length ls + count) c tok (N.of_nat (length pre)) n
    = preproc_iter_nest_loop count (scanned pre ls c) tok'
        (N.of_nat (length pre + length ls)) m.
Proof.
  induction ls as [|l ls IH]; intros pre post n m c tok count Hv Hg Hne Hn.
  { cbn [nest_after] in Hn. injection Hn as <-. exists tok.
    cbn [length Nat.add scanned]. by rewrite Nat.add_0_r. }
  apply Forall_cons in Hne as [Hl Hne]. cbn [nest_after] in Hn.
  destruct (nest_step (leader_kind l) n) as [n'|] eqn:Hstep; [|done].
  cbn [mbind option_bind] in Hn. cbn [length Nat.add].
  rewrite preproc_iter_nest_loop_unfold.
  assert (Hlt : (N.of_nat (length pre) <? cbook_groups_number (iteration c)) = true).
  { apply N.ltb_lt. unfold cbook_groups_number. rewrite Hg, !length_app. cbn [length]. lia. }
  rewrite Hlt. cbn [app] in Hg.
  rewrite (context_get_token_raw_group c tok pre l (ls ++ post) Hv Hg Hl).
  fold (leader_kind l).
  set (c1 := with_it_i 1 (with_it_group (N.of_nat (length pre)) c)).
  destruct (IH (pre ++ [l]) post n' m c1 (snprintf_s (hd EmptyString l)) count)
    as [tok' Hrec]; try done.
  { cbn [iteration c1 with_it_i with_it_group]. by rewrite Hg, <-app_assoc. }
  rewrite length_app in Hrec. cbn [length] in Hrec.
  replace (N.of_nat (length pre + 1)) with (N.of_nat (length pre) + 1) in Hrec by lia.
  replace (length pre + 1 + length ls)%nat with (length pre + S (length ls))%nat
    in Hrec by lia.
  assert (Hsc : scanned (pre ++ [l]) ls c1 = scanned pre (l :: ls) c).
  { unfold scanned, c1. destruct ls as [|l' ls].
    - cbn [length]. replace (N.of_nat (length pre + 1) - 1) with (N.of_nat (length pre))
        by lia. reflexivity.
    - rewrite length_app. cbn [length].
      replace (N.of_nat (length pre + 1 + S (length ls)) - 1)
        with (N.of_nat (length pre + S (S (length ls))) - 1) by lia.
      reflexivity. }
  rewrite Hsc in Hrec. exists tok'.
  destruct (leader_kind l); cbn [nest_step] in Hstep; try done;
    try (injection Hstep as <-; exact Hrec).
  destruct (n =? 0); [done|]. injection Hstep as <-. exact Hrec.
Qed.

Lemma scanned_fields pre ls c :
  vars (scanned pre ls c) = vars c ∧ var_i (scanned pre ls c) = var_i c
  ∧ var_group (scanned pre ls c) = var_group c
  ∧ iteration (scanned pre ls c) = iteration c.
Proof. by destruct ls. Qed.

(** The groups of a body and the group of the FOR_END that closes it. *)
Lemma preproc_iter_nest_closed `{Platform} pre body e extra post c :
  var_done c → groups (iteration c) = pre ++ body ++ (e :: extra) :: post →
  Forall (λ l, l ≠ []) body → nest_after 0 body = Some 0 →
  token_match (snprintf_s e) = TOKEN_FOR_END →
  preproc_iter_nest c (N.of_nat (length pre))
  = (N.of_nat (length pre + length body), false,
     with_it_i 1 (with_it_group (N.of_nat (length pre + length body)) c)).
Proof.
  intros Hv Hg Hne Hn He. unfold preproc_iter_nest.
  replace (S (length (groups (iteration c))))
    with (length body + S (S (length pre + length post)))%nat
    by (rewrite Hg, !length_app; cbn [length]; lia).
  destruct (preproc_iter_nest_loop_groups body pre ((e :: extra) :: post) 0 0 c
              uninit_token (S (S (length pre + length post))) Hv Hg Hne Hn) as [tok' ->].
  destruct (scanned_fields pre body c) as (Hva & Hvi & Hvg & Hit).
  rewrite preproc_iter_nest_loop_unfold.
  assert (Hlt : (N.of_nat (length pre + length body)
                 <? cbook_groups_number (iteration (scanned pre body c))) = true).
  { apply N.ltb_lt. unfold cbook_groups_number. rewrite Hit, Hg, !length_app.
    cbn [length]. lia. }
  rewrite Hlt.
  assert (Hv' : var_done (scanned pre body c)).
  { unfold var_done in *. by rewrite Hvi, Hva, Hvg. }
  assert (Hg' : groups (iteration (scanned pre body c))
                = (pre ++ body) ++ (e :: extra) :: post).
  { by rewrite Hit, Hg, <-app_assoc. }
  pose proof (context_get_token_raw_group (scanned pre body c) tok' (pre ++ body)
                (e :: extra) post Hv' Hg') as Hraw.
  rewrite length_app in Hraw. rewrite Hraw by done. cbn [hd]. rewrite He.
  change (0 =? 0) with true. cbv iota. f_equal.
  unfold scanned. by destruct body.
Qed.

(** The groups of a body that the end of the book leaves open. *)
Lemma preproc_iter_nest_open `{Platform} pre body m c :
  var_done c → groups (iteration c) = pre ++ body →
  Forall (λ l, l ≠ []) body → nest_after 0 body = Some m →
  preproc_iter_nest c (N.of_nat (length pre))
  = (N.of_nat (length pre + length body), true, scanned pre body c).
Proof.
  intros Hv Hg Hne Hn. unfold preproc_iter_nest.
  replace (S (length (groups (iteration c))))
    with (length body + S (length pre))%nat
    by (rewrite Hg, !length_app; lia).
  rewrite <-(app_nil_r body) in Hg.
  destruct (preproc_iter_nest_loop_groups body pre [] 0 m c
              uninit_token (S (length pre)) Hv Hg Hne Hn) as [tok' ->].
  destruct (scanned_fields pre body c) as (Hva & Hvi & Hvg & Hit).
  rewrite preproc_iter_nest_loop_unfold.
  assert (Hlt : (N.of_nat (length pre + length body)
                 <? cbook_groups_number (iteration (scanned pre body c))) = false).
  { apply N.ltb_ge. unfold cbook_groups_number. rewrite Hit, Hg, app_nil_r, !length_app.
    lia. }
  by rewrite Hlt.
Qed.

(** ** Iteration: the replay, in the words of the specification *)

Section ReplaySpec.
Variable parse : context → option context.

Lemma iterate_groups_replay n : ∀ g c fuel,
  (n < fuel)%nat → g + N.of_nat n ≤ SIZE_MAX →
  keeps_cursor parse g n c →
  iterate_groups parse fuel (with_it_group g c) (g + N.of_nat n)
  = c' ← replay_groups parse g n c; Some (with_it_group (g + N.of_nat n) c').
Proof.
  induction n as [|n IH]; intros g c fuel Hfuel Hmax Hkeep.
  - destruct fuel as [|fuel]; [lia|]. cbn [iterate_groups replay_groups mbind option_bind].
    cbn [it_group with_it_group]. rewrite N.add_0_r, N.ltb_irrefl. done.
  - destruct fuel as [|fuel]; [lia|]. cbn [iterate_groups replay_groups].
    cbn [it_group with_it_group].
    destruct (N.ltb_spec g (g + N.of_nat (S n))) as [_|?]; [|lia].
    cbn [keeps_cursor] in Hkeep.
    change (with_it_i 0 (with_it_group g c)) with (with_it_i 0 (with_it_group g c)) in *.
    destruct (parse (with_it_i 0 (with_it_group g c))) as [c1|]; [|done].
    cbn [mbind option_bind]. destruct Hkeep as [Hg Hkeep]. rewrite Hg.
    unfold size_succ. destruct (N.eqb_spec g SIZE_MAX) as [->|_]; [lia|].
    replace (g + N.of_nat (S n)) with (g + 1 + N.of_nat n) by lia.
    apply IH; [lia|lia|done].
Qed.

Lemma replay_values_replay fuel name gs n idxs : ∀ c,
  (n < fuel)%nat → gs + N.of_nat n ≤ SIZE_MAX →
  replay_keeps_cursor parse name gs n idxs c →
  replay_values parse fuel name gs (gs + N.of_nat n) idxs c
  = replay parse name gs n idxs c.
Proof.
  induction idxs as [|idx idxs IH]; intros c Hfuel Hmax Hkeep; [done|].
  cbn [replay_values replay]. cbn [replay_keeps_cursor] in Hkeep.
  destruct Hkeep as [Hpass Hrest]. fold (bind_alias name idx c).
  rewrite (iterate_groups_replay n gs (bind_alias name idx c) fuel Hfuel Hmax Hpass).
  destruct (replay_groups parse gs n (bind_alias name idx c)) as [c'|]; [|done].
  cbn [mbind option_bind]. by apply IH.
Qed.

End ReplaySpec.

(** ** Iteration: the handler *)

(** [iterate] past its guards: the search for the body, the run over
    the values, the end. *)
Lemma iterate_found `{Platform} (parse : context → option context) fuel ctx i :
  let r1 := context_get_token ctx uninit_token None in
  let r2 := context_get_token (r_ctx r1) uninit_token None in
  let name :=
    if is_invalid (r_type r2) then snprintf_s (r_token r1) else r_token r2 in
  (∀ c c', parse c = Some c' → steady c c') →
  restricted ctx = false → r_type r1 ≠ TOKEN_INVALID →
  cdict_find (keys_vars ctx) (r_token r1) CONTEXT_DICT_VARIABLE = Some i →
  cdict_find (keys_vars ctx) name CONTEXT_DICT_ITERATION = None →
  (length (cbook_group (vars ctx) i) < fuel)%nat →
  iterate parse fuel ctx
  = '(gs, ge, fail, c0) ← iterate_preproc fuel (r_ctx r2);
    c ← (if fail : bool then Some c0
         else
           c1 ← replay_values parse fuel name gs ge (value_indices ctx i) c0;
           Some (with_keys_vars
                   (cdict_erase (keys_vars c1) name CONTEXT_DICT_ITERATION) c1));
    Some (if cbook_length (iteration ctx) =? 0
          then with_iteration (cbook_clear (iteration c)) c else c).
Proof.
  intros r1 r2 name Hparse Hres Hty Hvar Hnone Hlen. unfold iterate. rewrite Hres. fold r1.
  apply is_invalid_false in Hty. rewrite Hty.
  destruct (frame_fields _ _ (context_get_token_frame ctx uninit_token None))
    as (_ & _ & _ & _ & _ & Hg1 & _ & _ & Hv1 & Hk1 & Hi1 & _).
  fold r1 in Hg1, Hk1, Hi1, Hv1.
  destruct (frame_fields _ _ (context_get_token_frame (r_ctx r1) uninit_token None))
    as (_ & _ & _ & _ & _ & Hg2 & _ & _ & Hv2 & Hk2 & Hi2 & _).
  fold r2 in Hg2, Hk2, Hi2, Hv2. rewrite Hk1, Hvar. fold r2. cbv zeta. fold name.
  rewrite Hk2, Hk1, Hi2, Hi1, Hnone.
  destruct (iterate_preproc fuel (r_ctx r2)) as [[[[gs ge] fail] c0]|] eqn:Hpre; [|done].
  cbn [mbind option_bind].
  destruct (book_frame_fields _ _ (iterate_preproc_book_frame _ _ _ _ _ _ Hpre))
    as (Hv0 & _).
  assert (Hvars : vars c0 = vars ctx) by (by rewrite Hv0, Hv2, Hv1).
  destruct fail.
  - cbn [mbind option_bind]. by destruct (cbook_length (iteration ctx) =? 0).
  - unfold value_indices. rewrite <-Hvars in Hlen |- *.
    rewrite (iterate_values_all parse fuel name i gs ge c0 Hparse Hlen).
    destruct (replay_values _ _ _ _ _ _ _) as [c1|]; [|done].
    cbn [mbind option_bind]. by destruct (cbook_length (iteration ctx) =? 0).
Qed.

Lemma cbook_length_0_sized b : cbook_length b = 0 → sized (groups b).
Proof.
  unfold cbook_length, sized. intros Hlen.
  assert (Hnil : concat (groups b) = []).
  { apply length_zero_iff_nil. lia. }
  induction (groups b) as [|g gs IH]; [constructor|].
  cbn [concat] in Hnil. apply app_eq_nil in Hnil as [-> Hgs].
  constructor; [by vm_compute|by apply IH].
Qed.

Lemma concat_length_le {A} (l : list A) ls :
  l ∈ ls → (length l ≤ length (concat ls))%nat.
Proof.
  induction ls as [|l' ls IH]; intros Hin; [by apply elem_of_nil in Hin|].
  cbn [concat]. rewrite length_app. apply elem_of_cons in Hin as [->|Hin]; [lia|].
  specialize (IH Hin). lia.
Qed.

(** C4 (amended): outside restricted mode, a FOR whose source variable
    is bound under VARIABLE to the group [i] and whose alias (the second
    token, or the name of the source when there is none) is not bound
    under ITERATION looks for its body.

    At the outer level (the iteration book holds no word) the lines that
    follow the line of the FOR are written, each into a new group of the
    iteration book, up to the FOR_END that matches; at a nested level the
    groups that follow the current one are looked at, up to the group of
    the FOR_END that matches.  The body found, it is replayed once for
    each value of the group [i], in order, with the alias bound under
    ITERATION to the index of the value, as long as each line returns
    with the cursor of the iteration on its own group (a line led by FOR
    moves it); then the binding is erased, and at the outer level the
    iteration book is cleared.

    When no FOR_END matches before the end of the text (of the book),
    nothing is replayed; in restricted mode, and when the alias is bound
    under ITERATION, nothing is looked for or replayed. *)
Theorem iterate_replays `{Platform} (parse : context → option context)
    (fuel : nat) (ctx : context) :
  let r1 := context_get_token ctx uninit_token None in
  let r2 := context_get_token (r_ctx r1) uninit_token None in
  let name :=
    if is_invalid (r_type r2) then snprintf_s (r_token r1) else r_token r2 in
  let start := context_goto_eol (r_ctx r2) in
  (∀ c c', parse c = Some c' → steady c c') →
  (restricted ctx = true → iterate parse fuel ctx = Some ctx)
  ∧ (∀ i, restricted ctx = false → r_type r1 ≠ TOKEN_INVALID →
       cdict_find (keys_vars ctx) (r_token r1) CONTEXT_DICT_VARIABLE = Some i →
       (is_Some (cdict_find (keys_vars ctx) name CONTEXT_DICT_ITERATION) →
        iterate parse fuel ctx = Some (r_ctx r2))
       ∧ (cdict_find (keys_vars ctx) name CONTEXT_DICT_ITERATION = None →
          (length (cbook_group (vars ctx) i) < fuel)%nat →
          (* the outer level, the text of the body closed by FOR_END *)
          (∀ body e rest,
             cbook_length (iteration ctx) = 0 →
             eof_reached start = false →
             buffer start = render body +:+ render_line [e] +:+ rest →
             Forall body_line body → nest_after 0 body = Some 0 →
             plain_word e → token_match e = TOKEN_FOR_END →
             cbook_group_length (vars start) (var_group start) ≤ SIZE_MAX →
             sized body →
             N.of_nat (length (groups (iteration ctx)) + length body) ≤ SIZE_MAX →
             (length (groups (iteration ctx)) + length body + length (concat body)
              < fuel)%nat →
             let n := (length (groups (iteration ctx)) + length body)%nat in
             let c0 :=
               with_eol_reached true
                 (with_buffer rest
                    (with_iteration (capture_book (iteration ctx) body) start)) in
             replay_keeps_cursor parse name 0 n (value_indices ctx i) c0 →
             iterate parse fuel ctx
             = c1 ← replay parse name 0 n (value_indices ctx i) c0;
               Some (with_iteration (cbook_clear (iteration c1))
                       (with_keys_vars
                          (cdict_erase (keys_vars c1) name CONTEXT_DICT_ITERATION)
                          c1)))
          (* the outer level, the text ends before a FOR_END matches *)
          ∧ (∀ body m,
               cbook_length (iteration ctx) = 0 →
               eof_reached start = false →
               buffer start = render body →
               Forall body_line body → nest_after 0 body = Some m →
               token_match EmptyString ≠ TOKEN_FOR_END →
               cbook_group_length (vars start) (var_group start) ≤ SIZE_MAX →
               sized body →
               (length body + length (concat body) + 1 < fuel)%nat →
               iterate parse fuel ctx
               = Some (with_iteration (cbook_clear (iteration ctx))
                         (with_eol_reached true (with_eof_reached true
                            (with_buffer EmptyString start)))))
          (* a nested level, the groups of the body closed by FOR_END *)
          ∧ (∀ pre body e extra post,
               cbook_length (iteration ctx) ≠ 0 →
               groups (iteration ctx) = pre ++ body ++ (e :: extra) :: post →
               N.of_nat (length pre) = size_succ (it_group ctx) →
               Forall (λ l, l ≠ []) body → nest_after 0 body = Some 0 →
               token_match (snprintf_s e) = TOKEN_FOR_END →
               var_done (r_ctx r2) →
               N.of_nat (length pre + length body) ≤ SIZE_MAX →
               (length body < fuel)%nat →
               let c0 :=
                 with_it_i 1
                   (with_it_group (N.of_nat (length pre + length body)) (r_ctx r2)) in
               replay_keeps_cursor parse name (N.of_nat (length pre)) (length body)
                 (value_indices ctx i) c0 →
               iterate parse fuel ctx
               = c1 ← replay parse name (N.of_nat (length pre)) (length body)
                        (value_indices ctx i) c0;
                 Some (with_keys_vars
                         (cdict_erase (keys_vars c1) name CONTEXT_DICT_ITERATION) c1))
          (* a nested level, the book ends before a FOR_END matches *)
          ∧ (∀ pre body m,
               cbook_length (iteration ctx) ≠ 0 →
               groups (iteration ctx) = pre ++ body →
               N.of_nat (length pre) = size_succ (it_group ctx) →
               Forall (λ l, l ≠ []) body → nest_after 0 body = Some m →
               var_done (r_ctx r2) →
               iterate parse fuel ctx = Some (scanned pre body (r_ctx r2))))).
Proof.
  intros r1 r2 name start Hparse. split.
  { intros Hres. unfold iterate. by rewrite Hres. }
  intros i Hres Hty Hvar.
  destruct (frame_fields _ _ (context_get_token_frame ctx uninit_token None))
    as (_ & _ & _ & _ & _ & Hg1 & _ & _ & Hv1 & Hk1 & Hi1 & _).
  fold r1 in Hg1, Hk1, Hi1, Hv1.
  destruct (frame_fields _ _ (context_get_token_frame (r_ctx r1) uninit_token None))
    as (_ & _ & _ & _ & _ & Hg2 & _ & _ & Hv2 & Hk2 & Hi2 & _).
  fold r2 in Hg2, Hk2, Hi2, Hv2.
  assert (Hit2 : iteration (r_ctx r2) = iteration ctx) by (by rewrite Hi2, Hi1).
  assert (Hgr2 : it_group (r_ctx r2) = it_group ctx) by (by rewrite Hg2, Hg1).
  split.
  { intros [j Hj]. unfold iterate. rewrite Hres. fold r1.
    apply is_invalid_false in Hty. rewrite Hty, Hk1, Hvar. fold r2. cbv zeta.
    fold name. by rewrite Hk2, Hk1, Hj. }
  intros Hnone Hlen.
  pose proof (iterate_found parse fuel ctx i Hparse Hres Hty Hvar Hnone Hlen) as Hit.
  fold r1 r2 name in Hit.
  destruct (frame_fields _ _ (context_goto_eol_frame (r_ctx r2)))
    as (_ & _ & _ & _ & _ & _ & _ & _ & _ & _ & His & _).
  fold start in His. rewrite Hit2 in His.
  assert (Hstart : var_i start = SIZE_MAX ∧ it_i start = SIZE_MAX) by done.
  destruct Hstart as [Hsv Hsi].
  assert (Hnew : cbook_length (iteration ctx) = 0 →
    iterate_preproc fuel (r_ctx r2)
    = '(fail, c) ← preproc_iter_new_loop fuel start uninit_token 0;
      Some (0, cbook_groups_number (iteration c), fail, c)).
  { intros Hz. unfold iterate_preproc, preproc_iter_new. rewrite Hit2, Hz. done. }
  assert (Hnest : ∀ pre : list (list string), cbook_length (iteration ctx) ≠ 0 →
    N.of_nat (length pre) = size_succ (it_group ctx) →
    iterate_preproc fuel (r_ctx r2)
    = let '(ge, fail, c) := preproc_iter_nest (r_ctx r2) (N.of_nat (length pre)) in
      Some (N.of_nat (length pre), ge, fail, c)).
  { intros pre Hnz Hpre. unfold iterate_preproc. rewrite Hit2, Hgr2, <-Hpre.
    apply N.eqb_neq in Hnz. by rewrite Hnz. }
  split; [|split; [|split]].
  - intros body e rest Hz Heof Hbuf Hbody Hn He1 He2 Hsize Hsb Hmax Hfuel n c0 Hkeep.
    rewrite Hit, (Hnew Hz).
    replace fuel with (length body + S (fuel - length body - 1))%nat at 1 by lia.
    rewrite (preproc_iter_new_loop_closed body e rest start uninit_token
               (fuel - length body - 1)); try done.
    + rewrite His. fold c0. cbn [mbind option_bind].
      assert (Hge : cbook_groups_number (iteration c0) = 0 + N.of_nat n).
      { unfold c0, cbook_groups_number, capture_book, n.
        cbn [iteration with_eol_reached with_buffer with_iteration].
        destruct body as [|l body]; cbn [groups length]; [by rewrite Nat.add_0_r|].
        by rewrite length_app. }
      rewrite Hge, (replay_values_replay parse fuel name 0 n); [|unfold n; lia|lia|done].
      destruct (replay parse name 0 n (value_indices ctx i) c0) as [c1|]; [|done].
      cbn [mbind option_bind]. by rewrite Hz.
    + unfold var_done. rewrite Hsv. apply N.ltb_ge. done.
    + rewrite His. by apply cbook_length_0_sized.
    + apply Forall_forall. intros l Hl. pose proof (concat_length_le l body Hl). lia.
  - intros body m Hz Heof Hbuf Hbody Hn Hk Hsize Hsb Hfuel.
    rewrite Hit, (Hnew Hz).
    replace fuel with (length body + S (S (fuel - length body - 2)))%nat at 1 by lia.
    destruct (preproc_iter_new_loop_open body m start uninit_token
                (fuel - length body - 2)) as (cx & -> & Hcx); try done.
    + unfold var_done. rewrite Hsv. apply N.ltb_ge. done.
    + rewrite His. by apply cbook_length_0_sized.
    + apply Forall_forall. intros l Hl. pose proof (concat_length_le l body Hl). lia.
    + cbn [mbind option_bind]. rewrite Hz. change (0 =? 0) with true. cbv iota.
      unfold cbook_clear. by rewrite Hcx.
  - intros pre body e extra post Hnz Hgroups Hpre Hne Hn He Hvd Hmax Hfuel c0 Hkeep.
    rewrite Hit, (Hnest pre Hnz Hpre).
    rewrite (preproc_iter_nest_closed pre body e extra post (r_ctx r2)); try done.
    2:{ by rewrite Hit2. }
    fold c0. cbn [mbind option_bind].
    replace (N.of_nat (length pre + length body))
      with (N.of_nat (length pre) + N.of_nat (length body)) by lia.
    rewrite (replay_values_replay parse fuel name); [|done|lia|done].
    destruct (replay parse name _ _ (value_indices ctx i) c0) as [c1|]; [|done].
    cbn [mbind option_bind]. apply N.eqb_neq in Hnz. by rewrite Hnz.
  - intros pre body m Hnz Hgroups Hpre Hne Hn Hvd.
    rewrite Hit, (Hnest pre Hnz Hpre).
    rewrite (preproc_iter_nest_open pre body m (r_ctx r2)); try done.
    2:{ by rewrite Hit2. }
    cbn [mbind option_bind]. apply N.eqb_neq in Hnz. by rewrite Hnz.
Qed.

Lemma plain_word_sample w :
  w ≠ EmptyString → str_all (literal false false) w = true →
  (String.length w ≤ 1023)%nat → plain_word w.
Proof. intros Hne Hl Hf. split; [done|]. split; [done|]. exact Hf. Qed.

Lemma iterate_replays_witness :
  ∃ c', iterate (sequence_parse 30) 30 (iterate_context loop_text) = Some c'
    ∧ replay (sequence_parse 30) "v" 0 1 [0; 1]
        (with_iteration (Cbook [["r"; "p"; "x"]] false)
           (with_var_i SIZE_MAX (with_it_i SIZE_MAX
              (with_eol_reached true
                 (with_buffer EmptyString
                    (with_depth_peak 1 (iterate_context loop_text)))))))
      = Some (with_keys_vars
                (cdict_write (keys_vars c') "v" CONTEXT_DICT_ITERATION 1)
                (with_iteration (Cbook [["r"; "p"; "x"]] false) c'))
    ∧ groups (sequences c') = [["x"]; ["x"]]
    ∧ cdict_find (keys_vars c') "v" CONTEXT_DICT_ITERATION = None
    ∧ groups (iteration c') = [].
Proof.
  destruct (iterate_replays (@sequence_parse sample_platform 30) 30
    (iterate_context loop_text) (sample_sequence_parse_steady 30)) as [_ Hrun].
  destruct (Hrun 0) as [_ Hnew]; [by vm_compute|by vm_compute|by vm_compute|].
  destruct Hnew as (Hclosed & _); [by vm_compute|vm_compute; lia|].
  assert (Hbody : Forall body_line [["r"; "p"; "x"]]).
  { constructor; [|constructor]. split; [done|]. split.
    - repeat constructor; apply plain_word_sample; (done || (vm_compute; lia)).
    - by vm_compute. }
  assert (He : plain_word "FOR_END").
  { apply plain_word_sample; (done || (vm_compute; lia)). }
  specialize (Hclosed [["r"; "p"; "x"]] "FOR_END" EmptyString).
  rewrite Hclosed.
  - eexists. split; [vm_compute; reflexivity|]. vm_compute. repeat split.
  - by vm_compute.
  - by vm_compute.
  - vm_compute. reflexivity.
  - exact Hbody.
  - by vm_compute.
  - exact He.
  - by vm_compute.
  - by vm_compute.
  - repeat constructor. by vm_compute.
  - by vm_compute.
  - vm_compute. lia.
  - vm_compute. repeat split.
Defined.

(** ** The lines that keep the cursor of the iteration *)

Lemma frame_cursor c c' : frame c' = frame c → cursor c' = cursor c.
Proof.
  intros Hf. destruct (frame_fields _ _ Hf)
    as (_ & _ & _ & _ & _ & Hg & _ & _ & _ & _ & Hi & _).
  unfold cursor. by rewrite Hg, Hi.
Qed.

Section Cursor.
Context `{Platform}.

Ltac cursor_done :=
  unfold cursor in *;
  cbn [it_group iteration with_vars with_keys_vars with_sequences with_keys_sequences
       with_skip_sequences with_restricted with_rand with_stderr_log write_vars
       write_sequences] in *;
  congruence.

Lemma context_get_token_cursor c t m :
  cursor (r_ctx (context_get_token c t m)) = cursor c.
Proof. apply frame_cursor, context_get_token_frame. Qed.

Lemma context_get_token_numeral_cursor c t d :
  cursor (r_ctx (context_get_token_numeral c t d)) = cursor c.
Proof.
  apply frame_cursor, get_token_numeral_frame. intros. apply context_get_token_frame.
Qed.

Lemma while_token_cursor fuel body ctx tok n m c' :
  (∀ v c, cursor (body v c) = cursor c) →
  while_token fuel body ctx tok n = Some (m, c') → cursor c' = cursor ctx.
Proof.
  intros Hbody. apply (while_token_invariant (λ c, cursor c = cursor ctx)); [| |done].
  - intros c t mr Hc. by rewrite context_get_token_cursor.
  - intros v c Hc. by rewrite Hbody.
Qed.

Lemma combine_var_loop_cursor fuel ctx type token_2 i j k c' :
  combine_var_loop fuel ctx type token_2 i j k = Some c' → cursor c' = cursor ctx.
Proof.
  revert ctx k. induction fuel as [|fuel IH]; intros ctx k; [done|].
  cbn [combine_var_loop]. destruct (k <? _); [|by intros [= <-]].
  intros Hrec%IH. cursor_done.
Qed.

Lemma declare_enum_loop_cursor fuel ctx min max steps precision i c' :
  declare_enum_loop fuel ctx min max steps precision i = Some c' →
  cursor c' = cursor ctx.
Proof.
  revert ctx i. induction fuel as [|fuel IH]; intros ctx i; [done|].
  cbn [declare_enum_loop]. destruct (_ <=? _)%float; [|by intros [= <-]].
  intros Hrec%IH. cursor_done.
Qed.

Lemma section_begin_loop_cursor fuel ctx tok c' :
  section_begin_loop fuel ctx tok = Some c' → cursor c' = cursor ctx.
Proof.
  revert ctx tok. induction fuel as [|fuel IH]; intros ctx tok; [done|].
  cbn [section_begin_loop].
  pose proof (context_get_token_cursor ctx tok None) as H0.
  destruct (is_invalid _); [by intros [= <-]|].
  destruct (cdict_find _ _ _); [|by intros [= <-]].
  intros Hrec%IH. cursor_done.
Qed.

Lemma combine_var_cursor fuel ctx type c' :
  combine_var fuel ctx type = Some c' → cursor c' = cursor ctx.
Proof.
  unfold combine_var. destruct (restricted ctx); [by intros [= <-]|].
  pose proof (context_get_token_cursor ctx uninit_token None) as H0.
  set (r0 := context_get_token ctx uninit_token None) in *.
  pose proof (context_get_token_cursor (r_ctx r0) uninit_token None) as H1.
  set (r1 := context_get_token (r_ctx r0) uninit_token None) in *.
  pose proof (context_get_token_cursor (r_ctx r1) uninit_token None) as H2.
  set (r2 := context_get_token (r_ctx r1) uninit_token None) in *.
  rewrite H0 in H1. rewrite H1 in H2.
  destruct (is_invalid (r_type r0)); [by intros [= <-]|].
  destruct (is_invalid (r_type r1)); [by intros [= <-]|].
  destruct (is_invalid (r_type r2)); [by intros [= <-]|].
  cbv zeta. destruct (cdict_find _ _ _) as [i|]; [|by intros [= <-]].
  destruct (if token_eqb type TOKEN_VAR_MERGE then _ else _) as [j|];
    [|by intros [= <-]].
  destruct (combine_var_loop _ _ _ _ _ _ _) as [c1|] eqn:Hloop; [|done].
  cbn [mbind option_bind]. intros [= <-]. apply combine_var_loop_cursor in Hloop.
  cursor_done.
Qed.

Lemma declare_variable_cursor fuel ctx c' :
  declare_variable fuel ctx = Some c' → cursor c' = cursor ctx.
Proof.
  unfold declare_variable. destruct (restricted ctx); [by intros [= <-]|].
  pose proof (context_get_token_cursor ctx uninit_token None) as H0.
  set (r := context_get_token ctx uninit_token None) in *.
  destruct (is_invalid (r_type r)); [by intros [= <-]|]. cbv zeta.
  destruct (while_token _ _ _ _ _) as [[n c1]|] eqn:Hloop; [|done].
  cbn [mbind option_bind]. apply while_token_cursor in Hloop; [|done].
  destruct (n =? 0); intros [= <-]; cursor_done.
Qed.

Lemma declare_resource_cursor fuel ctx namespace c' :
  declare_resource fuel ctx namespace = Some c' → cursor c' = cursor ctx.
Proof.
  unfold declare_resource.
  pose proof (context_get_token_cursor ctx uninit_token None) as H0.
  set (r := context_get_token ctx uninit_token None) in *.
  destruct (is_invalid (r_type r)); [by intros [= <-]|]. cbv zeta.
  destruct (while_token _ _ _ _ _) as [[n c1]|] eqn:Hloop; [|done].
  cbn [mbind option_bind]. apply while_token_cursor in Hloop; [|done].
  destruct (n =? 0); [intros [= <-]; cursor_done|].
  destruct (cdict_find _ _ _); intros [= <-]; cursor_done.
Qed.

Lemma declare_enum_cursor fuel ctx c' :
  declare_enum fuel ctx = Some c' → cursor c' = cursor ctx.
Proof.
  unfold declare_enum. destruct (restricted ctx); [by intros [= <-]|]. cbv zeta.
  pose proof (context_get_token_cursor ctx uninit_token None) as H0.
  generalize dependent (context_get_token ctx uninit_token None). intros r0 H0.
  pose proof (context_get_token_numeral_cursor (r_ctx r0) uninit_token
                (stack_double ctx 0%nat)) as H1.
  generalize dependent
    (context_get_token_numeral (r_ctx r0) uninit_token (stack_double ctx 0%nat)).
  intros r1 H1.
  pose proof (context_get_token_numeral_cursor (r_ctx r1) (r_token r1)
                (stack_double ctx 1%nat)) as H2.
  generalize dependent
    (context_get_token_numeral (r_ctx r1) (r_token r1) (stack_double ctx 1%nat)).
  intros r2 H2.
  pose proof (context_get_token_numeral_cursor (r_ctx r2) (r_token r2)
                (stack_double ctx 2%nat)) as H3.
  generalize dependent
    (context_get_token_numeral (r_ctx r2) (r_token r2) (stack_double ctx 2%nat)).
  intros r3 H3.
  pose proof (context_get_token_numeral_cursor (r_ctx r3) (r_token r3)
                (stack_double ctx 3%nat)) as H4.
  generalize dependent
    (context_get_token_numeral (r_ctx r3) (r_token r3) (stack_double ctx 3%nat)).
  intros r4 H4. cbv zeta.
  rewrite H3, H2, H1, H0 in H4. clear H0 H1 H2 H3.
  assert (Hrun : ∀ min max steps precision,
    (if (steps <? 1)%float || (double_of_uint SIZE_MAX <=? steps)%float
        || (precision <? 0)%float
     then Some (r_ctx r4)
     else
       ctx1 ← declare_enum_loop fuel
         (with_vars (cbook_prepare_new_group (vars (r_ctx r4))) (r_ctx r4))
         min max steps (if (16 <? precision)%float then 16%float else precision) 0;
       Some (with_keys_vars
         (cdict_write (keys_vars ctx1) (r_token r0) CONTEXT_DICT_VARIABLE
            (size_pred (cbook_groups_number (vars ctx1)))) ctx1)) = Some c' →
    cursor c' = cursor ctx).
  { intros min max steps precision. destruct (_ || _); [by intros [= <-]|].
    destruct (declare_enum_loop _ _ _ _ _ _ _) as [c1|] eqn:Hloop; [|done].
    cbn [mbind option_bind]. intros [= <-]. apply declare_enum_loop_cursor in Hloop.
    cursor_done. }
  destruct (_ + _)%nat as [|[|[|[|[|n]]]]];
    first [ apply Hrun | intros [= <-]; exact H4 ].
Qed.

Lemma print_cursor fuel ctx c' : print fuel ctx = Some c' → cursor c' = cursor ctx.
Proof.
  unfold print. destruct (restricted ctx); [by intros [= <-]|].
  destruct (while_token _ _ _ _ _) as [[n c1]|] eqn:Hloop; [|done].
  cbn [mbind option_bind]. apply while_token_cursor in Hloop; [|done].
  intros [= <-]. cursor_done.
Qed.

Lemma section_add_cursor fuel ctx c' :
  section_add fuel ctx = Some c' → cursor c' = cursor ctx.
Proof.
  unfold section_add. destruct (restricted ctx); [by intros [= <-]|].
  destruct (while_token _ _ _ _ _) as [[n c1]|] eqn:Hloop; [|done].
  apply while_token_cursor in Hloop; [|done]. by intros [= <-].
Qed.

Lemma section_del_cursor fuel ctx c' :
  section_del fuel ctx = Some c' → cursor c' = cursor ctx.
Proof.
  unfold section_del. destruct (restricted ctx); [by intros [= <-]|].
  destruct (while_token _ _ _ _ _) as [[n c1]|] eqn:Hloop; [|done].
  apply while_token_cursor in Hloop; [|done]. by intros [= <-].
Qed.

Lemma section_begin_cursor fuel ctx c' :
  section_begin fuel ctx = Some c' → cursor c' = cursor ctx.
Proof.
  unfold section_begin. destruct (restricted ctx); [by intros [= <-]|].
  apply section_begin_loop_cursor.
Qed.

Lemma seed_cursor ctx : cursor (seed ctx) = cursor ctx.
Proof.
  unfold seed. destruct (restricted ctx); [done|].
  pose proof (context_get_token_numeral_cursor ctx uninit_token uninit_double) as H0.
  by destruct (is_invalid _).
Qed.

(** A line that is led by neither FOR nor INCLUDE returns with the
    cursor of the iteration where it was, and leaves the iteration book
    as it is. *)
Lemma sequence_parse_keeps_cursor fuel c c' :
  let l := context_get_token (depth_enter c) uninit_token None in
  sequence_parse fuel c = Some c' →
  r_type l ≠ TOKEN_FOR_BEGIN → r_type l ≠ TOKEN_INCLUDE →
  it_group c' = it_group c ∧ iteration c' = iteration c.
Proof.
  intros l. destruct fuel as [|fuel]; [done|]. rewrite sequence_parse_unfold.
  destruct (Nat.leb_spec CONTEXT_MAX_DEPTH (depth c)) as [?|_]; [by intros [= <-]|].
  pose proof (context_get_token_cursor (depth_enter c) uninit_token None) as H0.
  fold l in H0 |- *. cbv zeta. intros Hrun Hfor Hinc.
  assert (Hh : ∀ c1, cursor c1 = cursor (r_ctx l) →
    cursor (depth_leave (context_goto_eol c1)) = cursor c).
  { intros c1 H1.
    pose proof (frame_cursor _ _ (context_goto_eol_frame c1)) as H2.
    change (cursor (depth_leave ?x)) with (cursor x). by rewrite H2, H1, H0. }
  assert (Hc : cursor c' = cursor c).
  { revert Hrun.
    destruct (if _ && _ then TOKEN_INVALID else r_type l) eqn:Hty;
      match goal with
      | |- (?h ≫= _) = _ → _ => destruct h as [c1|] eqn:Hh1; [|done]
      end; cbn [mbind option_bind]; intros [= <-]; apply Hh;
      first
        [ by eapply declare_resource_cursor
        | by eapply combine_var_cursor
        | by eapply declare_variable_cursor
        | by eapply declare_enum_cursor
        | by eapply section_begin_cursor
        | by eapply section_add_cursor
        | by eapply section_del_cursor
        | by eapply print_cursor
        | injection Hh1 as <-; first [done | apply seed_cursor]
        | exfalso; destruct (_ && _); [done|]; congruence ]. }
  unfold cursor in Hc. by injection Hc as -> ->.
Qed.

End Cursor.

(** ** Variable injection, through the engine *)









(** ** An ENUM whose step count is not a number *)

(** C8: an ENUM whose step count is not a number passes the guard of
    [declare_enum], writes no value and binds its name to the last group
    of the book, here the group of the first declaration of a.  After
    the second declaration of a, the name a leads to the new values and
    the earlier group is still reached through b: a resource that
    injects b holds the earlier value.  A declaration of b without
    values, by [declare_variable], binds nothing.  In an empty book the
    ENUM binds its name to the index [SIZE_MAX], where no group is.  The
    step count written nan, with a [strtod] that reads it as the C
    library does, gives what the square root gives. *)
Theorem enum_without_values_aliases_group :
  (∃ c, @ccfg_load_internal sample_platform 60 alias_text = Some c
      ∧ groups (vars c) = [["x"]; ["y"]]
      ∧ variable_values c "a" = Some ["y"]
      ∧ cdict_find (keys_vars c) "b" CONTEXT_DICT_VARIABLE = Some 0
      ∧ variable_values c "b" = Some ["x"]
      ∧ ccfg_resources c "ns" "old" = ["x"])
  ∧ (∃ c, @ccfg_load_internal sample_platform 60 no_alias_text = Some c
      ∧ groups (vars c) = [["x"]; ["y"]]
      ∧ cdict_find (keys_vars c) "b" CONTEXT_DICT_VARIABLE = None
      ∧ ccfg_resources c "ns" "old" = [])
  ∧ (∃ c, @ccfg_load_internal sample_platform 60 lone_enum_text = Some c
      ∧ groups (vars c) = []
      ∧ cdict_find (keys_vars c) "b" CONTEXT_DICT_VARIABLE = Some SIZE_MAX)
  ∧ nan_strtod "nan" = nan
  ∧ (∃ c, @ccfg_load_internal nan_platform 60 nan_alias_text = Some c
      ∧ groups (vars c) = [["x"]; ["y"]]
      ∧ variable_values c "a" = Some ["y"]
      ∧ cdict_find (keys_vars c) "b" CONTEXT_DICT_VARIABLE = Some 0
      ∧ variable_values c "b" = Some ["x"]
      ∧ ccfg_resources c "ns" "old" = ["x"]).
Proof.
  split; [|split; [|split; [|split; [reflexivity|]]]].
  - eexists. split; [vm_compute; reflexivity|]. vm_compute. repeat split.
  - eexists. split; [vm_compute; reflexivity|]. vm_compute. repeat split.
  - eexists. split; [vm_compute; reflexivity|]. vm_compute. repeat split.
  - eexists. split; [vm_compute; reflexivity|]. vm_compute. repeat split.
Qed.
